(** * TextChunker: the chunk navigation and deduplication engine

    A shallow embedding of the [TextChunker] class of [src/cli/xcli.cpp]
    (the dedup front-end).  The plain front-end [src/cli/cli.cpp] and the
    window of [src/gui.cpp] have the same [recalculateChunks], the same
    [getChunkAtPosition] ([getChunk] in the window) and the same branches
    for next, previous, first, last and invert; they have no [used_chunks]
    set, and their empty command is a plain next.

    Layout: machine integers, [std::string] operations, the engine state,
    the member functions in source order, the notions used by the
    statements, then the lemmas and theorems. *)

From Stdlib Require Import ZArith Lia Ascii.
From stdpp Require Import base gmap strings list.

Local Open Scope Z_scope.

(** ** Machine integers

    [size_t] is a 64-bit unsigned integer and [int] a 32-bit signed one.
    Values are carried as [Z]; every C++ operation is followed by the
    reduction into the type of its result.  Signed overflow is undefined in
    C++; the model takes the two's-complement result, and the theorems say
    when no overflow happens. *)
Module Machine.

Definition SIZE_MAX : Z := 2 ^ 64 - 1.
Definition INT_MAX : Z := 2 ^ 31 - 1.
Definition INT_MIN : Z := - 2 ^ 31.
(** No object is larger than [PTRDIFF_MAX] bytes, so no [std::string] is
    longer than this. *)
Definition PTRDIFF_MAX : Z := 2 ^ 63 - 1.

(** Conversion to (and arithmetic in) [size_t]. *)
Definition to_size_t (z : Z) : Z := z mod 2 ^ 64.

(** Conversion to (and arithmetic in) [int]. *)
Definition to_int (z : Z) : Z := (z + 2 ^ 31) mod 2 ^ 32 - 2 ^ 31.

End Machine.
Import Machine.

(** ** Results of fallible, possibly non-terminating code *)

Inductive exn : Type :=
  | out_of_range.   (* std::out_of_range, never caught by the program *)

Inductive res (A : Type) : Type :=
  | Ret (a : A)          (* normal return *)
  | Throw (e : exn)      (* an exception escapes *)
  | OutOfFuel.           (* the loop budget of the model ran out *)
Arguments Ret {A} a.
Arguments Throw {A} e.
Arguments OutOfFuel {A}.

#[global] Instance res_ret : MRet res := λ A a, Ret a.
#[global] Instance res_bind : MBind res := λ A B k m,
  match m with
  | Ret a => k a
  | Throw e => Throw e
  | OutOfFuel => OutOfFuel
  end.

(** ** [std::string] *)

Definition str_length (s : string) : Z := Z.of_nat (String.length s).

Definition str_empty (s : string) : bool := bool_decide (s = "").

(** [s.substr(pos, n)]: throws [std::out_of_range] when [pos > s.size()],
    otherwise returns the [min(n, size - pos)] characters from [pos]. *)
Definition substr (s : string) (pos n : Z) : res string :=
  if bool_decide (str_length s < pos) then Throw out_of_range
  else Ret (String.substring (Z.to_nat pos)
                             (Z.to_nat (Z.min n (str_length s - pos))) s).

(** ** The engine state: the data members of [class TextChunker]

    [clipboard] is the text slot behind [ClipboardManager::setClipboard];
    [cin] is the stream of lines still to be read from standard input.  The
    temporary file written by [updateTempFile] and the text printed on
    standard output carry no engine state and are left out. *)
Record TextChunker : Type := mkTextChunker {
  text : string;
  chunk_size : Z;               (* size_t *)
  tail_mode : bool;
  inverted : bool;
  current_chunk : Z;            (* int *)
  total_chunks : Z;             (* int *)
  used_chunks : gset string;    (* std::set<std::string> *)
  clipboard : string;
  cin : list string
}.

Definition set_text (v : string) (c : TextChunker) : TextChunker :=
  mkTextChunker v (chunk_size c) (tail_mode c) (inverted c) (current_chunk c)
                (total_chunks c) (used_chunks c) (clipboard c) (cin c).
Definition set_chunk_size (v : Z) (c : TextChunker) : TextChunker :=
  mkTextChunker (text c) v (tail_mode c) (inverted c) (current_chunk c)
                (total_chunks c) (used_chunks c) (clipboard c) (cin c).
Definition set_inverted (v : bool) (c : TextChunker) : TextChunker :=
  mkTextChunker (text c) (chunk_size c) (tail_mode c) v (current_chunk c)
                (total_chunks c) (used_chunks c) (clipboard c) (cin c).
Definition set_current_chunk (v : Z) (c : TextChunker) : TextChunker :=
  mkTextChunker (text c) (chunk_size c) (tail_mode c) (inverted c) v
                (total_chunks c) (used_chunks c) (clipboard c) (cin c).
Definition set_total_chunks (v : Z) (c : TextChunker) : TextChunker :=
  mkTextChunker (text c) (chunk_size c) (tail_mode c) (inverted c)
                (current_chunk c) v (used_chunks c) (clipboard c) (cin c).
Definition set_used_chunks (v : gset string) (c : TextChunker) : TextChunker :=
  mkTextChunker (text c) (chunk_size c) (tail_mode c) (inverted c)
                (current_chunk c) (total_chunks c) v (clipboard c) (cin c).
Definition set_clipboard (v : string) (c : TextChunker) : TextChunker :=
  mkTextChunker (text c) (chunk_size c) (tail_mode c) (inverted c)
                (current_chunk c) (total_chunks c) (used_chunks c) v (cin c).
Definition set_cin (v : list string) (c : TextChunker) : TextChunker :=
  mkTextChunker (text c) (chunk_size c) (tail_mode c) (inverted c)
                (current_chunk c) (total_chunks c) (used_chunks c)
                (clipboard c) v.

(** [tail_mode ^ inverted]: the effective direction; [true] is
    reverse-anchored. *)
Definition reverse_anchored (c : TextChunker) : bool :=
  xorb (tail_mode c) (inverted c).

(** ** Member functions *)

(** [recalculateChunks]. The quotient is computed in [size_t] and stored in
    an [int].  [chunk_size] is never 0 when this runs ([main] and the resize
    command both refuse 0). *)
Definition recalculateChunks (c : TextChunker) : TextChunker :=
  let total :=
    to_int (to_size_t (to_size_t (str_length (text c) + chunk_size c) - 1)
            / chunk_size c) in
  let total := if bool_decide (total = 0) then 1 else total in
  let cur := current_chunk c in
  let cur := if bool_decide (cur > total) then total else cur in
  let cur := if bool_decide (cur < 1) then 1 else cur in
  set_current_chunk cur (set_total_chunks total c).
Arguments recalculateChunks : simpl never.

(** The two [size_t] offsets computed by [getChunkAtPosition] for a position
    that passed its range check. *)
Definition chunk_bounds (c : TextChunker) (pos : Z) : Z * Z :=
  if reverse_anchored c then
    let end_pos :=
      to_size_t (str_length (text c)
                 - to_size_t (to_size_t (to_int (total_chunks c - pos))
                              * chunk_size c)) in
    let start_pos :=
      if bool_decide (end_pos > chunk_size c)
      then to_size_t (end_pos - chunk_size c) else 0 in
    (start_pos, end_pos)
  else
    let start_pos :=
      to_size_t (to_size_t (to_int (pos - 1)) * chunk_size c) in
    let end_pos :=
      Z.min (to_size_t (start_pos + chunk_size c)) (str_length (text c)) in
    (start_pos, end_pos).

(** [getChunkAtPosition]. *)
Definition getChunkAtPosition (c : TextChunker) (pos : Z) : res string :=
  if bool_decide (pos < 1 ∨ pos > total_chunks c) then Ret ""
  else
    let '(start_pos, end_pos) := chunk_bounds c pos in
    substr (text c) start_pos (to_size_t (end_pos - start_pos)).

Definition getCurrentChunk (c : TextChunker) : res string :=
  getChunkAtPosition c (current_chunk c).

Definition isChunkUsed (c : TextChunker) (chunk : string) : bool :=
  bool_decide (chunk ∈ used_chunks c).

Definition markChunkAsUsed (chunk : string) (c : TextChunker) : TextChunker :=
  set_used_chunks ({[ chunk ]} ∪ used_chunks c) c.

(** The position reached by one step in the direction of traversal; this is
    the body shared by the empty command, [N] and the scan of
    [findNextUnusedChunk]:
    [std::max(1, current_chunk - 1)] when reverse-anchored, otherwise
    [std::min(total_chunks, current_chunk + 1)]. *)
Definition next_position (c : TextChunker) : Z :=
  if reverse_anchored c
  then Z.max 1 (to_int (current_chunk c - 1))
  else Z.min (total_chunks c) (to_int (current_chunk c + 1)).

(** The position reached by the [P] command. *)
Definition prev_position (c : TextChunker) : Z :=
  if reverse_anchored c
  then Z.min (total_chunks c) (to_int (current_chunk c + 1))
  else Z.max 1 (to_int (current_chunk c - 1)).

(** The [do { ... } while (true)] loop of [findNextUnusedChunk]; one unit of
    fuel per iteration.  The loop works on the data member [current_chunk],
    so the state is returned along with the result. *)
Fixpoint findNextUnusedChunk_loop (fuel : nat) (start_chunk : Z)
    (c : TextChunker) : res (Z * TextChunker) :=
  match fuel with
  | O => OutOfFuel
  | S fuel' =>
      chunk ← getChunkAtPosition c (current_chunk c);
      if negb (isChunkUsed c chunk) then Ret (current_chunk c, c)
      else
        let c' := set_current_chunk (next_position c) c in
        if bool_decide (current_chunk c' = start_chunk) then Ret (-1, c')
        else findNextUnusedChunk_loop fuel' start_chunk c'
  end.

(** [findNextUnusedChunk]. *)
Definition findNextUnusedChunk (fuel : nat) (c : TextChunker)
    : res (Z * TextChunker) :=
  findNextUnusedChunk_loop fuel (current_chunk c) c.

(** [loadText].  The argument is what the source of the text delivered: the
    clipboard content or the content of the file, [None] when the file could
    not be opened.  Returns the [bool] of the source together with the
    state. *)
Definition loadText (content : option string) (c : TextChunker)
    : bool * TextChunker :=
  match content with
  | None => (false, c)
  | Some t =>
      let c := set_text t c in
      if str_empty t then (false, c)
      else
        let c := recalculateChunks c in
        let c := if tail_mode c
                 then set_current_chunk (total_chunks c) c else c in
        (true, c)
  end.

(** The constructor [TextChunker(bool tail, size_t size)].  [total_chunks]
    is not initialised by the constructor; [total0] stands for whatever it
    holds until [loadText] assigns it. *)
Definition init (tail : bool) (size : Z) (total0 : Z) (input : list string)
    : TextChunker :=
  mkTextChunker "" size tail false 1 total0 ∅ "" input.

Definition newline : string := String (Ascii.ascii_of_nat 10) "".

(** The reading loop of [appendText]: lines are taken until an empty line
    (which is consumed) or the end of the input; each one is added with a
    newline after it. *)
Fixpoint read_additional (lines : list string) : string * list string :=
  match lines with
  | [] => ("", [])
  | line :: rest =>
      if str_empty line then ("", rest)
      else let '(more, rest') := read_additional rest in
           (line +:+ newline +:+ more, rest')
  end.

(** [appendText]. *)
Definition appendText (c : TextChunker) : TextChunker :=
  let '(additional_text, rest) := read_additional (cin c) in
  let c := set_cin rest c in
  if negb (str_empty additional_text)
  then recalculateChunks (set_text (text c +:+ additional_text) c)
  else c.

(** [copyToClipboard]. *)
Definition copyToClipboard (fuel : nat) (c : TextChunker) : res TextChunker :=
  chunk ← getCurrentChunk c;
  if negb (str_empty chunk) then
    if negb (isChunkUsed c chunk) then
      Ret (markChunkAsUsed chunk (set_clipboard chunk c))
    else
      '(next_unused, c) ← findNextUnusedChunk fuel c;
      if bool_decide (next_unused ≠ -1) then
        let c := set_current_chunk next_unused c in
        chunk ← getCurrentChunk c;
        Ret (markChunkAsUsed chunk (set_clipboard chunk c))
      else Ret c
  else Ret c.

(** [hasUnusedChunks]: [used_chunks.size() < total_chunks] compares a
    [size_t] with an [int], which is first converted to [size_t]. *)
Definition hasUnusedChunks (c : TextChunker) : bool :=
  bool_decide (Z.of_nat (size (used_chunks c)) < to_size_t (total_chunks c)).

(** [isAtFinalChunk]. *)
Definition isAtFinalChunk (c : TextChunker) : bool :=
  if reverse_anchored c
  then bool_decide (current_chunk c = 1)
  else bool_decide (current_chunk c = total_chunks c).

(** ** Commands

    [processCommand] dispatches on the text of the line.  [parseCommand] is
    that dispatch, in the order of the source; [execCommand] holds the
    bodies of the branches. *)
Inductive command : Type :=
  | CmdAdvance                 (* the empty line *)
  | CmdAppend                  (* A a *)
  | CmdRecopy                  (* R r *)
  | CmdUsage                   (* U u *)
  | CmdReset                   (* reset *)
  | CmdPrev                    (* P p *)
  | CmdNext                    (* N n *)
  | CmdFirst                   (* F f *)
  | CmdLast                    (* L l *)
  | CmdInvert                  (* I i *)
  | CmdResize (new_size : Z)   (* $digits, the value read by std::stoul *)
  | CmdQuit                    (* q Q quit *)
  | CmdGoto (target : Z)       (* digits, the value read by std::stoi *)
  | CmdHelp.                   (* anything else *)

(** What a command reports: the value returned by [processCommand] ([Stop]
    is [false], everything else [true]) and, for the branches that print a
    refusal and return early, which one. *)
Inductive outcome : Type :=
  | Handled
  | InvalidSize      (* Invalid chunk size. Must be > 0 and <= text length *)
  | OutOfRange       (* Invalid chunk number. Range: 1-total *)
  | HelpShown
  | Stop.

(** [::isdigit] on a character of the line. *)
Definition isdigit (a : ascii) : bool :=
  let n := Ascii.nat_of_ascii a in (48 <=? n)%nat && (n <=? 57)%nat.

Definition all_digits (s : string) : bool :=
  forallb isdigit (String.list_ascii_of_string s).

(** The decimal value of a string of digits. *)
Definition digits_value (s : string) : Z :=
  fold_left (λ v a, 10 * v + (Z.of_nat (Ascii.nat_of_ascii a) - 48))
            (String.list_ascii_of_string s) 0.

(** [std::stoul] and [std::stoi] on a string of digits: they throw
    [std::out_of_range] when the value does not fit the result type. *)
Definition stoul (s : string) : res Z :=
  let v := digits_value s in
  if bool_decide (v ≤ SIZE_MAX) then Ret v else Throw out_of_range.

Definition stoi (s : string) : res Z :=
  let v := digits_value s in
  if bool_decide (v ≤ INT_MAX) then Ret v else Throw out_of_range.

Definition parseCommand (cmd : string) : res command :=
  if str_empty cmd then Ret CmdAdvance
  else if bool_decide (cmd = "A" ∨ cmd = "a") then Ret CmdAppend
  else if bool_decide (cmd = "R" ∨ cmd = "r") then Ret CmdRecopy
  else if bool_decide (cmd = "U" ∨ cmd = "u") then Ret CmdUsage
  else if bool_decide (cmd = "reset") then Ret CmdReset
  else if bool_decide (cmd = "P" ∨ cmd = "p") then Ret CmdPrev
  else if bool_decide (cmd = "N" ∨ cmd = "n") then Ret CmdNext
  else if bool_decide (cmd = "F" ∨ cmd = "f") then Ret CmdFirst
  else if bool_decide (cmd = "L" ∨ cmd = "l") then Ret CmdLast
  else if bool_decide (cmd = "I" ∨ cmd = "i") then Ret CmdInvert
  else
    match cmd with
    | String "$"%char (String _ _ as number) =>
        if all_digits number
        then new_size ← stoul number; Ret (CmdResize new_size)
        else Ret CmdHelp
    | _ =>
        if bool_decide (cmd = "q" ∨ cmd = "Q" ∨ cmd = "quit") then Ret CmdQuit
        else if all_digits cmd
        then target ← stoi cmd; Ret (CmdGoto target)
        else Ret CmdHelp
    end.

(** The bounds check that ends [processCommand]. *)
Definition check_bounds (c : TextChunker) : TextChunker :=
  let c := if bool_decide (current_chunk c < 1)
           then set_current_chunk 1 c else c in
  if bool_decide (current_chunk c > total_chunks c)
  then set_current_chunk (total_chunks c) c else c.

Definition execCommand (fuel : nat) (cmd : command) (c : TextChunker)
    : res (outcome * TextChunker) :=
  match cmd with
  | CmdAdvance =>
      '(next_unused, c) ← findNextUnusedChunk fuel c;
      let c := if bool_decide (next_unused ≠ -1)
               then set_current_chunk next_unused c
               else set_current_chunk (next_position c) c in
      Ret (Handled, check_bounds c)
  | CmdAppend => Ret (Handled, appendText c)
  | CmdRecopy =>
      chunk ← getCurrentChunk c;
      let c := if negb (str_empty chunk) then set_clipboard chunk c else c in
      Ret (Handled, check_bounds c)
  | CmdUsage => Ret (Handled, c)
  | CmdReset => Ret (Handled, set_used_chunks ∅ c)
  | CmdPrev => Ret (Handled, check_bounds (set_current_chunk (prev_position c) c))
  | CmdNext => Ret (Handled, check_bounds (set_current_chunk (next_position c) c))
  | CmdFirst =>
      Ret (Handled,
           check_bounds
             (set_current_chunk
                (if reverse_anchored c then total_chunks c else 1) c))
  | CmdLast =>
      Ret (Handled,
           check_bounds
             (set_current_chunk
                (if reverse_anchored c then 1 else total_chunks c) c))
  | CmdInvert =>
      let c := set_inverted (negb (inverted c)) c in
      let c := set_current_chunk
                 (to_int (to_int (total_chunks c - current_chunk c) + 1)) c in
      Ret (Handled, check_bounds c)
  | CmdResize new_size =>
      if bool_decide (new_size > 0 ∧ new_size ≤ str_length (text c)) then
        let c := set_chunk_size new_size c in
        let c := set_used_chunks ∅ c in
        Ret (Handled, check_bounds (recalculateChunks c))
      else Ret (InvalidSize, c)
  | CmdQuit => Ret (Stop, c)
  | CmdGoto target =>
      if bool_decide (target >= 1 ∧ target ≤ total_chunks c)
      then Ret (Handled, check_bounds (set_current_chunk target c))
      else Ret (OutOfRange, c)
  | CmdHelp => Ret (HelpShown, c)
  end.

(** [processCommand]. *)
Definition processCommand (fuel : nat) (cmd : string) (c : TextChunker)
    : res (outcome * TextChunker) :=
  parsed ← parseCommand cmd;
  execCommand fuel parsed c.

(** How [run] ends. *)
Inductive ending : Type :=
  | AllProcessed     (* at the final chunk with no unused chunk left *)
  | EndOfText        (* at the final chunk and the current chunk is empty *)
  | QuitRequested.   (* processCommand returned false *)

(** [std::getline(std::cin, input)] as [run] calls it, without looking at
    the result.  [cin] holds what is left of standard input, cut at its
    newlines; the last element is what follows the last newline, the empty
    string when the input ends with a newline or is empty.  Reading the
    last element takes the stream to its end, so the stream is no longer
    good exactly when the list is empty: the call then fails and leaves
    [input] as it is.  (An input cut in this way has at least one element;
    a list that is empty from the start behaves as the empty input.) *)
Definition getline (input : string) (c : TextChunker)
    : string * TextChunker :=
  match cin c with
  | [] => (input, c)
  | line :: rest => (line, set_cin rest c)
  end.

(** The [while (true)] loop of [run]; one unit of fuel per turn.  [input]
    is the local variable of [run] that the loop reads the command into:
    at the end of standard input it keeps its value, and the loop goes on
    with the command it holds. *)
Fixpoint run_loop (fuel : nat) (input : string) (c : TextChunker)
    : res (ending * TextChunker) :=
  match fuel with
  | O => OutOfFuel
  | S fuel' =>
      c ← copyToClipboard fuel c;
      if isAtFinalChunk c && negb (hasUnusedChunks c) then Ret (AllProcessed, c)
      else
        let '(input, c) := getline input c in
        '(o, c) ← processCommand fuel input c;
        match o with
        | Stop => Ret (QuitRequested, c)
        | _ =>
            chunk ← getCurrentChunk c;
            if isAtFinalChunk c && str_empty chunk then Ret (EndOfText, c)
            else run_loop fuel' input c
        end
  end.

(** [run]: [input] starts as the empty string. *)
Definition run (fuel : nat) (c : TextChunker) : res (ending * TextChunker) :=
  run_loop fuel "" c.

(** The start of [main] after argument parsing: construct, load, run.
    [None] is exit code 1. *)
Definition session (fuel : nat) (tail : bool) (size : Z) (total0 : Z)
    (content : option string) (input : list string)
    : option (res (ending * TextChunker)) :=
  let '(ok, c) := loadText content (init tail size total0 input) in
  if ok then Some (run fuel c) else None.

(** ** Notions used by the statements *)

(** The ceiling of [a / b], the way the source computes it. *)
Definition ceil_div (a b : Z) : Z := (a + b - 1) / b.

(** The numbers of the state are values of their C++ types, and the chunk
    size is not 0 ([main] and the resize command refuse 0). *)
Record well_typed (c : TextChunker) : Prop := {
  wt_chunk_size : 0 < chunk_size c ≤ SIZE_MAX;
  wt_text : str_length (text c) ≤ PTRDIFF_MAX;
  wt_total : INT_MIN ≤ total_chunks c ≤ INT_MAX;
  wt_current : INT_MIN ≤ current_chunk c ≤ INT_MAX
}.

(** The state of an engine after a successful load: the buffer is not
    empty and [total_chunks] is the number of chunks of the buffer. *)
Record loaded (c : TextChunker) : Prop := {
  loaded_typed : well_typed c;
  loaded_text : 0 < str_length (text c);
  loaded_total :
    total_chunks c = ceil_div (str_length (text c)) (chunk_size c)
}.

(** The position is one of the chunks. *)
Definition in_range (c : TextChunker) : Prop :=
  1 ≤ current_chunk c ≤ total_chunks c.

(** The invariant of a running session. *)
Definition steady (c : TextChunker) : Prop := loaded c ∧ in_range c.

(** The offset at which chunk [p] ends and chunk [p + 1] begins: chunks are
    counted from the start of the buffer in both directions; the direction
    decides whether the short chunk is the last one (forward-anchored) or
    the first one (reverse-anchored). *)
Definition boundary (c : TextChunker) (p : Z) : Z :=
  if reverse_anchored c
  then Z.max 0 (str_length (text c) - (total_chunks c - p) * chunk_size c)
  else Z.min (p * chunk_size c) (str_length (text c)).

(** The characters of [s] from offset [from] up to offset [to]. *)
Definition slice (s : string) (from to : Z) : string :=
  String.substring (Z.to_nat from) (Z.to_nat (to - from)) s.

(** The chunks at positions 1 .. [total_chunks], in order. *)
Definition all_chunks (c : TextChunker) : res (list string) :=
  mapM (getChunkAtPosition c) (seqZ 1 (total_chunks c)).

Definition str_concat (l : list string) : string := foldr String.app "" l.

Definition total_length (l : list string) : Z :=
  foldr (λ s n, str_length s + n) 0 l.

(** The operations of a session: the commands, and the copy that [run]
    makes before each of them. *)
Inductive operation : Type :=
  | Command (cmd : command)
  | Copy.

Definition apply (fuel : nat) (o : operation) (c : TextChunker)
    : res TextChunker :=
  match o with
  | Command cmd => '(_, c') ← execCommand fuel cmd c; Ret c'
  | Copy => copyToClipboard fuel c
  end.

Fixpoint apply_all (fuel : nat) (os : list operation) (c : TextChunker)
    : res TextChunker :=
  match os with
  | [] => Ret c
  | o :: os' => c' ← apply fuel o c; apply_all fuel os' c'
  end.

(** What [getChunkAtPosition] returns, with the empty string standing for
    an escaped exception. *)
Definition chunk_or_empty (c : TextChunker) (p : Z) : string :=
  match getChunkAtPosition c p with
  | Ret s => s
  | _ => ""
  end.

(** The positions from the current one to the end of the traversal. *)
Definition ahead (c : TextChunker) (p : Z) : Prop :=
  1 ≤ p ≤ total_chunks c
  ∧ if reverse_anchored c then p ≤ current_chunk c else current_chunk c ≤ p.

(** The place of the current chunk in the order of traversal: 1 for the
    chunk that [F] selects, [total_chunks] for the one that [L] selects. *)
Definition traversal_rank (c : TextChunker) : Z :=
  if reverse_anchored c
  then total_chunks c - current_chunk c + 1 else current_chunk c.

(** Every consumed content is the content of a chunk of the present
    chunking. *)
Definition fresh (c : TextChunker) : Prop :=
  ∀ s, s ∈ used_chunks c →
    ∃ r, 1 ≤ r ≤ total_chunks c ∧ getChunkAtPosition c r = Ret s.

(** ** Engines used as examples *)

Definition alphabet : string := "abcdefghijklmnopqrstuvwxy".

(** The engine as [main] hands it to [run]: constructed and loaded. *)
Definition engine (tail : bool) (size : Z) (t : string) (input : list string)
    : TextChunker :=
  (loadText (Some t) (init tail size 0 input)).2.

(** A buffer of two equal chunks, after the first one was copied: the state
    in which [run] reads its first command. *)
Definition twice_aa (input : list string) : TextChunker :=
  mkTextChunker "aaaa" 2 false false 1 2 {[ "aa" ]} "aa" input.

(** A buffer of [n] characters. *)
Definition buffer_of (n : positive) : string :=
  Pos.iter (String "a"%char) "" n.

(** Three characters and the largest chunk size there is: the sum of the
    length and the chunk size does not fit [size_t]. *)
Definition one_huge_chunk : TextChunker :=
  mkTextChunker "abc" SIZE_MAX false false 1 0 ∅ "" [].

(** A window in head mode that was inverted. *)
Definition inverted_window : TextChunker :=
  mkTextChunker "abc" 10 false true 1 1 ∅ "abc" [].

(** The position of the chunk that is [k]-th in the order of traversal. *)
Definition position_of_rank (c : TextChunker) (k : Z) : Z :=
  if reverse_anchored c then total_chunks c - k + 1 else k.

(** The chunk that is [k]-th in the order of traversal. *)
Definition chunk_of_rank (c : TextChunker) (k : Z) : res string :=
  getChunkAtPosition c (position_of_rank c k).

(** Two states with the same buffer cut in the same way. *)
Definition same_chunking (c c' : TextChunker) : Prop :=
  text c' = text c ∧ chunk_size c' = chunk_size c
  ∧ tail_mode c' = tail_mode c ∧ inverted c' = inverted c
  ∧ total_chunks c' = total_chunks c.

(** No two positions hold the same content. *)
Definition distinct_chunks (c : TextChunker) : Prop :=
  ∀ p q, 1 ≤ p ≤ total_chunks c → 1 ≤ q ≤ total_chunks c →
    getChunkAtPosition c p = getChunkAtPosition c q → p = q.

(** The consumed contents are those of the chunks that come before place
    [r] in the order of traversal. *)
Definition consumed_before (c : TextChunker) (r : Z) : Prop :=
  ∀ s, s ∈ used_chunks c ↔ ∃ k, 1 ≤ k < r ∧ chunk_of_rank c k = Ret s.

(** A session that walks through chunks that all differ: the consumed
    contents are those of the chunks before the current one, and there are
    as many of them. *)
Definition walking (c : TextChunker) : Prop :=
  steady c ∧ total_chunks c < INT_MAX ∧ distinct_chunks c
  ∧ consumed_before c (traversal_rank c)
  ∧ Z.of_nat (size (used_chunks c)) = traversal_rank c - 1.

(** The text [appendText] builds from the lines it reads. *)
Definition join_lines (lines : list string) : string :=
  foldr (λ line more, line +:+ newline +:+ more) "" lines.

(** The number of characters [appendText] can still take from the input:
    every line counts with the newline added to it. *)
Definition input_size (lines : list string) : Z :=
  foldr (λ line n, str_length line + 1 + n) 0 lines.

(** ** The window of [src/gui.cpp]

    [TextChunkerWindow] has the data members [text], [chunk_size],
    [tail_mode], [inverted], [current_chunk] and [total_chunks] of the
    command-line engines, so its member functions are modelled on the same
    record; [used_chunks] and [cin] are not touched by them.  [clipboard]
    is the string last handed to [QClipboard::setText]; what
    [QClipboard::text] delivers is an argument of [loadNewText]. *)

(** [TextChunkerWindow::recalcChunks]. *)
Definition recalcChunks (c : TextChunker) : TextChunker :=
  let total :=
    to_int (to_size_t (to_size_t (str_length (text c) + chunk_size c) - 1)
            / chunk_size c) in
  let total := if bool_decide (total = 0) then 1 else total in
  let cur := current_chunk c in
  let cur := if bool_decide (cur > total) then total else cur in
  let cur := if bool_decide (cur < 1) then 1 else cur in
  set_current_chunk cur (set_total_chunks total c).
Arguments recalcChunks : simpl never.

(** [TextChunkerWindow::getChunk]. *)
Definition getChunk (c : TextChunker) (pos : Z) : res string :=
  if bool_decide (pos < 1 ∨ pos > total_chunks c) then Ret ""
  else
    let start_end :=
      if xorb (tail_mode c) (inverted c) then
        let end_pos :=
          to_size_t (str_length (text c)
                     - to_size_t (to_size_t (to_int (total_chunks c - pos))
                                  * chunk_size c)) in
        let start_pos :=
          if bool_decide (end_pos > chunk_size c)
          then to_size_t (end_pos - chunk_size c) else 0 in
        (start_pos, end_pos)
      else
        let start_pos :=
          to_size_t (to_size_t (to_int (pos - 1)) * chunk_size c) in
        let end_pos :=
          Z.min (to_size_t (start_pos + chunk_size c)) (str_length (text c)) in
        (start_pos, end_pos) in
    substr (text c) start_end.1 (to_size_t (start_end.2 - start_end.1)).

(** [TextChunkerWindow::updateUI]: the labels aside, it hands the current
    chunk to the clipboard. *)
Definition updateUI (c : TextChunker) : res TextChunker :=
  chunk ← getChunk c (current_chunk c);
  Ret (set_clipboard chunk c).

(** [TextChunkerWindow::loadNewText]; [newText] is what the clipboard
    delivered. *)
Definition loadNewText (newText : string) (c : TextChunker)
    : res TextChunker :=
  if str_empty newText then Ret c
  else
    let c := set_text newText c in
    let c := set_current_chunk 1 c in
    let c := if tail_mode c
             then let c := recalcChunks c in
                  set_current_chunk (total_chunks c) c
             else recalcChunks c in
    updateUI c.

(** The keys [keyPressEvent] distinguishes; [Key_other] is any other key. *)
Inductive key : Type :=
  | Key_N | Key_Right | Key_Space | Key_Return | Key_Enter
  | Key_P | Key_Left | Key_Backspace
  | Key_R | Key_C
  | Key_I
  | Key_F | Key_Home
  | Key_L | Key_End
  | Key_V
  | Key_Q | Key_Escape
  | Key_other.

(** [TextChunkerWindow::keyPressEvent].  [clip] is what the clipboard would
    deliver to the [V] key.  The [bool] says whether [QApplication::quit]
    was called. *)
Definition keyPressEvent (clip : string) (k : key) (c : TextChunker)
    : res (bool * TextChunker) :=
  match k with
  | Key_N | Key_Right | Key_Space | Key_Return | Key_Enter =>
      let c :=
        if xorb (tail_mode c) (inverted c)
        then set_current_chunk (Z.max 1 (to_int (current_chunk c - 1))) c
        else set_current_chunk
               (Z.min (total_chunks c) (to_int (current_chunk c + 1))) c in
      c ← updateUI c; Ret (false, c)
  | Key_P | Key_Left | Key_Backspace =>
      let c :=
        if xorb (tail_mode c) (inverted c)
        then set_current_chunk
               (Z.min (total_chunks c) (to_int (current_chunk c + 1))) c
        else set_current_chunk (Z.max 1 (to_int (current_chunk c - 1))) c in
      c ← updateUI c; Ret (false, c)
  | Key_R | Key_C =>
      chunk ← getChunk c (current_chunk c);
      Ret (false, set_clipboard chunk c)
  | Key_I =>
      let c := set_inverted (negb (inverted c)) c in
      let c := set_current_chunk
                 (to_int (to_int (total_chunks c - current_chunk c) + 1)) c in
      c ← updateUI c; Ret (false, c)
  | Key_F | Key_Home =>
      let c := set_current_chunk
                 (if xorb (tail_mode c) (inverted c)
                  then total_chunks c else 1) c in
      c ← updateUI c; Ret (false, c)
  | Key_L | Key_End =>
      let c := set_current_chunk
                 (if xorb (tail_mode c) (inverted c)
                  then 1 else total_chunks c) c in
      c ← updateUI c; Ret (false, c)
  | Key_V => c ← loadNewText clip c; Ret (false, c)
  | Key_Q | Key_Escape => Ret (true, c)
  | Key_other => Ret (false, c)
  end.

(** [TextChunkerWindow::onChunkSizeChanged]; [value] is the value of the
    spin box, which [setupUI] confines to 100 .. 100000. *)
Definition onChunkSizeChanged (value : Z) (c : TextChunker)
    : res TextChunker :=
  let c := set_chunk_size (to_size_t value) c in
  updateUI (recalcChunks c).

(** The constructor [TextChunkerWindow(inputText, size, tail)]. *)
Definition window (inputText : string) (size : Z) (tail : bool) (total0 : Z)
    : res TextChunker :=
  let c := mkTextChunker inputText size tail false 1 total0 ∅ "" [] in
  let c := recalcChunks c in
  let c := if tail_mode c then set_current_chunk (total_chunks c) c else c in
  updateUI c.

(** The command of the command-line front-ends that a key stands for. *)
Definition key_command (k : key) : option command :=
  match k with
  | Key_N | Key_Right | Key_Space | Key_Return | Key_Enter => Some CmdNext
  | Key_P | Key_Left | Key_Backspace => Some CmdPrev
  | Key_R | Key_C => Some CmdRecopy
  | Key_I => Some CmdInvert
  | Key_F | Key_Home => Some CmdFirst
  | Key_L | Key_End => Some CmdLast
  | Key_V | Key_Q | Key_Escape | Key_other => None
  end.

(** ** The plain front-end of [src/cli/cli.cpp]

    Its [TextChunker] has no [used_chunks]; the functions are modelled on
    the same record and leave that field alone.  [recalculateChunks],
    [getChunkAtPosition], [getCurrentChunk] and [loadText] are, statement
    for statement, those of [xcli.cpp] and are not repeated. *)
Module Plain.

(** [copyToClipboard]. *)
Definition copyToClipboard (c : TextChunker) : res TextChunker :=
  chunk ← getCurrentChunk c;
  Ret (if negb (str_empty chunk) then set_clipboard chunk c else c).

(** The dispatch of [processCommand]: there is no [U] and no [reset]. *)
Definition parseCommand (cmd : string) : res command :=
  if str_empty cmd then Ret CmdAdvance
  else if bool_decide (cmd = "A" ∨ cmd = "a") then Ret CmdAppend
  else if bool_decide (cmd = "R" ∨ cmd = "r") then Ret CmdRecopy
  else if bool_decide (cmd = "P" ∨ cmd = "p") then Ret CmdPrev
  else if bool_decide (cmd = "N" ∨ cmd = "n") then Ret CmdNext
  else if bool_decide (cmd = "F" ∨ cmd = "f") then Ret CmdFirst
  else if bool_decide (cmd = "L" ∨ cmd = "l") then Ret CmdLast
  else if bool_decide (cmd = "I" ∨ cmd = "i") then Ret CmdInvert
  else
    match cmd with
    | String "$"%char (String _ _ as number) =>
        if all_digits number
        then new_size ← stoul number; Ret (CmdResize new_size)
        else Ret CmdHelp
    | _ =>
        if bool_decide (cmd = "q" ∨ cmd = "Q" ∨ cmd = "quit") then Ret CmdQuit
        else if all_digits cmd
        then target ← stoi cmd; Ret (CmdGoto target)
        else Ret CmdHelp
    end.

(** The branches of [processCommand].  Only quit returns early: every other
    branch, the refusals included, runs into the bounds check. *)
Definition execCommand (cmd : command) (c : TextChunker)
    : res (outcome * TextChunker) :=
  match cmd with
  | CmdAdvance =>
      Ret (Handled, check_bounds (set_current_chunk (next_position c) c))
  | CmdAppend =>
      let '(additional_text, rest) := read_additional (cin c) in
      let c := set_cin rest c in
      let c := if negb (str_empty additional_text)
               then recalculateChunks (set_text (text c +:+ additional_text) c)
               else c in
      Ret (Handled, check_bounds c)
  | CmdRecopy =>
      chunk ← getCurrentChunk c;
      Ret (Handled, check_bounds (set_clipboard chunk c))
  | CmdPrev => Ret (Handled, check_bounds (set_current_chunk (prev_position c) c))
  | CmdNext => Ret (Handled, check_bounds (set_current_chunk (next_position c) c))
  | CmdFirst =>
      Ret (Handled,
           check_bounds
             (set_current_chunk
                (if reverse_anchored c then total_chunks c else 1) c))
  | CmdLast =>
      Ret (Handled,
           check_bounds
             (set_current_chunk
                (if reverse_anchored c then 1 else total_chunks c) c))
  | CmdInvert =>
      let c := set_inverted (negb (inverted c)) c in
      let c := set_current_chunk
                 (to_int (to_int (total_chunks c - current_chunk c) + 1)) c in
      Ret (Handled, check_bounds c)
  | CmdResize new_size =>
      if bool_decide (new_size > 0 ∧ new_size ≤ str_length (text c))
      then Ret (Handled,
                check_bounds (recalculateChunks (set_chunk_size new_size c)))
      else Ret (InvalidSize, check_bounds c)
  | CmdQuit => Ret (Stop, c)
  | CmdGoto target =>
      if bool_decide (target >= 1 ∧ target ≤ total_chunks c)
      then Ret (Handled, check_bounds (set_current_chunk target c))
      else Ret (OutOfRange, check_bounds c)
  | CmdUsage | CmdReset | CmdHelp => Ret (HelpShown, check_bounds c)
  end.

(** [processCommand]. *)
Definition processCommand (cmd : string) (c : TextChunker)
    : res (outcome * TextChunker) :=
  parsed ← parseCommand cmd;
  execCommand parsed c.

(** The loop of [run]: it ends on quit only.  [input] and the end of
    standard input are as in the dedup front-end. *)
Fixpoint run_loop (fuel : nat) (input : string) (c : TextChunker)
    : res (ending * TextChunker) :=
  match fuel with
  | O => OutOfFuel
  | S fuel' =>
      c ← copyToClipboard c;
      let '(input, c) := getline input c in
      '(o, c) ← processCommand input c;
      match o with
      | Stop => Ret (QuitRequested, c)
      | _ => run_loop fuel' input c
      end
  end.

(** [run]. *)
Definition run (fuel : nat) (c : TextChunker) : res (ending * TextChunker) :=
  run_loop fuel "" c.

End Plain.

(** ** Machine arithmetic *)

Lemma to_size_t_id z : 0 ≤ z ≤ SIZE_MAX → to_size_t z = z.
Proof. unfold to_size_t, SIZE_MAX. intros. apply Z.mod_small. lia. Qed.

Lemma to_int_id z : INT_MIN ≤ z ≤ INT_MAX → to_int z = z.
Proof.
  unfold to_int, INT_MIN, INT_MAX. intros.
  rewrite Z.mod_small; lia.
Qed.

Lemma to_int_range z : INT_MIN ≤ to_int z ≤ INT_MAX.
Proof.
  unfold to_int, INT_MIN, INT_MAX.
  pose proof (Z.mod_pos_bound (z + 2 ^ 31) (2 ^ 32)). lia.
Qed.

Lemma ceil_div_spec a b :
  0 < b → (ceil_div a b - 1) * b < a ≤ ceil_div a b * b.
Proof.
  intros Hb. unfold ceil_div.
  pose proof (Z.div_mod (a + b - 1) b) as Hdm.
  pose proof (Z.mod_pos_bound (a + b - 1) b Hb). nia.
Qed.

Lemma ceil_div_unique a b t :
  0 < b → (t - 1) * b < a ≤ t * b → t = ceil_div a b.
Proof.
  intros Hb Ht. pose proof (ceil_div_spec a b Hb). nia.
Qed.

Lemma ceil_div_pos a b : 0 < b → 0 < a → 1 ≤ ceil_div a b.
Proof. intros Hb Ha. pose proof (ceil_div_spec a b Hb). nia. Qed.

Lemma ceil_div_le a b : 0 < b → 0 < a → ceil_div a b ≤ a.
Proof. intros Hb Ha. pose proof (ceil_div_spec a b Hb). nia. Qed.

(** The quotient of [recalculateChunks] is the ceiling even when the sum
    [length + chunk_size] wraps around in [size_t]: that only happens for a
    chunk size larger than the buffer, where both sides are 1 after the
    [total_chunks == 0] correction. *)
Lemma recalculate_quotient len cs :
  0 < cs ≤ SIZE_MAX → 0 < len ≤ PTRDIFF_MAX →
  let q := to_size_t (to_size_t (len + cs) - 1) / cs in
  q = ceil_div len cs ∨ (q = 0 ∧ ceil_div len cs = 1).
Proof.
  unfold SIZE_MAX, PTRDIFF_MAX. intros Hcs Hlen. simpl.
  assert (Hmod : to_size_t (to_size_t (len + cs) - 1)
                 = (len + cs - 1) mod 2 ^ 64).
  { unfold to_size_t. by rewrite Zminus_mod_idemp_l. }
  rewrite Hmod.
  destruct (decide (len + cs - 1 < 2 ^ 64)) as [Hfit|Hwrap].
  - left. by rewrite Z.mod_small by lia.
  - right.
    assert (Hred : (len + cs - 1) mod 2 ^ 64 = len + cs - 1 - 2 ^ 64).
    { symmetry. apply (Z.mod_unique _ _ 1); lia. }
    rewrite Hred. split.
    + apply Z.div_small. lia.
    + symmetry. apply ceil_div_unique; lia.
Qed.

(** ** Strings as sequences of characters *)

Section strings.
Implicit Types s t : string.

Lemma length_list_ascii s :
  length (String.list_ascii_of_string s) = String.length s.
Proof. induction s as [|a s IH]; simpl; congruence. Qed.

Lemma list_ascii_inj s t :
  String.list_ascii_of_string s = String.list_ascii_of_string t → s = t.
Proof.
  intros H. rewrite <-(String.string_of_list_ascii_of_string s).
  rewrite H. apply String.string_of_list_ascii_of_string.
Qed.

Lemma substring_list n m s :
  String.list_ascii_of_string (String.substring n m s)
  = take m (drop n (String.list_ascii_of_string s)).
Proof.
  revert n m.
  induction s as [|a s IH]; intros [|n] [|m]; simpl;
    rewrite ?IH, ?drop_0; done.
Qed.

Lemma app_list s t :
  String.list_ascii_of_string (s +:+ t)
  = String.list_ascii_of_string s ++ String.list_ascii_of_string t.
Proof. induction s as [|a s IH]; simpl; [done|by rewrite IH]. Qed.

Lemma str_length_nonneg s : 0 ≤ str_length s.
Proof. unfold str_length. lia. Qed.

Lemma str_length_app s t : str_length (s +:+ t) = str_length s + str_length t.
Proof.
  unfold str_length. rewrite <-!length_list_ascii, app_list, length_app. lia.
Qed.

Lemma str_empty_length s : str_empty s = bool_decide (str_length s = 0).
Proof.
  unfold str_empty, str_length. apply bool_decide_ext.
  destruct s; simpl; split; intros; (done || lia).
Qed.

Lemma str_app_empty_r s : s +:+ "" = s.
Proof. apply list_ascii_inj. by rewrite app_list, app_nil_r. Qed.

Lemma str_app_assoc s t u : (s +:+ t) +:+ u = s +:+ (t +:+ u).
Proof. apply list_ascii_inj. by rewrite !app_list, app_assoc. Qed.

Lemma str_length_slice s a b :
  0 ≤ a ≤ b → b ≤ str_length s → str_length (slice s a b) = b - a.
Proof.
  unfold slice, str_length. intros Hab Hb.
  rewrite <-!length_list_ascii, substring_list, length_take, length_drop.
  rewrite length_list_ascii. lia.
Qed.

Lemma slice_app s a b d :
  0 ≤ a ≤ b → b ≤ d → slice s a b +:+ slice s b d = slice s a d.
Proof.
  unfold slice. intros Hab Hbd. apply list_ascii_inj.
  rewrite app_list, !substring_list.
  replace (Z.to_nat (d - a)) with (Z.to_nat (b - a) + Z.to_nat (d - b))%nat
    by lia.
  replace (Z.to_nat b) with (Z.to_nat a + Z.to_nat (b - a))%nat by lia.
  by rewrite <-drop_drop, take_take_drop.
Qed.

Lemma slice_full s : slice s 0 (str_length s) = s.
Proof.
  unfold slice, str_length. apply list_ascii_inj.
  rewrite substring_list, drop_0, take_ge; [done|].
  rewrite length_list_ascii. lia.
Qed.

(** An in-bounds [substr] does not throw and is the slice. *)
Lemma substr_slice s a b :
  str_length s ≤ SIZE_MAX → 0 ≤ a ≤ b → b ≤ str_length s →
  substr s a (to_size_t (b - a)) = Ret (slice s a b).
Proof.
  unfold SIZE_MAX. intros Hs Hab Hb. unfold substr, slice.
  rewrite bool_decide_eq_false_2 by lia.
  unfold to_size_t. rewrite Z.mod_small by lia.
  by rewrite Z.min_l by lia.
Qed.
End strings.

(** ** Chunk boundaries *)

Section chunks.
Variable c : TextChunker.
Hypothesis Hloaded : loaded c.

Let len := str_length (text c).
Let cs := chunk_size c.
Let T := total_chunks c.

Lemma loaded_facts :
  0 < cs ≤ SIZE_MAX ∧ 0 < len ≤ PTRDIFF_MAX ∧
  (T - 1) * cs < len ≤ T * cs ∧ 1 ≤ T ≤ INT_MAX.
Proof.
  destruct Hloaded as [[Hcs Htxt Htot Hcur] Hpos Hceil].
  fold len cs T in Hcs, Htxt, Htot, Hpos, Hceil.
  pose proof (ceil_div_spec len cs (proj1 Hcs)) as Hspec.
  pose proof (ceil_div_pos len cs (proj1 Hcs) Hpos).
  rewrite <-Hceil in *. lia.
Qed.

Lemma boundary_first : boundary c 0 = 0.
Proof.
  destruct loaded_facts as (Hcs & Hlen & HT & HT1).
  unfold boundary. fold len cs T. destruct (reverse_anchored c); lia.
Qed.

Lemma boundary_last : boundary c T = len.
Proof.
  destruct loaded_facts as (Hcs & Hlen & HT & HT1).
  unfold boundary. fold len cs T. destruct (reverse_anchored c); lia.
Qed.

Lemma boundary_step p :
  1 ≤ p ≤ T → 0 ≤ boundary c (p - 1) < boundary c p ∧ boundary c p ≤ len.
Proof.
  destruct loaded_facts as (Hcs & Hlen & HT & HT1). intros Hp.
  unfold boundary. fold len cs T. destruct (reverse_anchored c); nia.
Qed.

(** The offsets computed by the source, wrap-around included, are the
    boundaries on both sides of the chunk. *)
Lemma chunk_bounds_boundary p :
  1 ≤ p ≤ T → chunk_bounds c p = (boundary c (p - 1), boundary c p).
Proof.
  destruct loaded_facts as (Hcs & Hlen & HT & HT1). intros Hp.
  unfold chunk_bounds, boundary. fold len cs T.
  unfold SIZE_MAX, PTRDIFF_MAX, INT_MAX in *.
  destruct (reverse_anchored c).
  - rewrite (to_int_id (T - p)) by (unfold INT_MIN, INT_MAX; lia).
    rewrite (to_size_t_id (T - p)) by (unfold SIZE_MAX; lia).
    assert (0 ≤ (T - p) * cs < len) by nia.
    rewrite (to_size_t_id ((T - p) * cs)) by (unfold SIZE_MAX; lia).
    rewrite (to_size_t_id (len - _)) by (unfold SIZE_MAX; lia).
    case_bool_decide.
    + rewrite to_size_t_id by (unfold SIZE_MAX; lia). f_equal; lia.
    + f_equal; lia.
  - rewrite (to_int_id (p - 1)) by (unfold INT_MIN, INT_MAX; lia).
    rewrite (to_size_t_id (p - 1)) by (unfold SIZE_MAX; lia).
    assert (0 ≤ (p - 1) * cs < len) by nia.
    rewrite (to_size_t_id ((p - 1) * cs)) by (unfold SIZE_MAX; lia).
    assert (p = 1 ∨ cs < len) as Hsmall by nia.
    rewrite (to_size_t_id (_ + cs)) by (unfold SIZE_MAX; nia).
    f_equal; lia.
Qed.

Lemma getChunkAtPosition_slice p :
  1 ≤ p ≤ T →
  getChunkAtPosition c p
  = Ret (slice (text c) (boundary c (p - 1)) (boundary c p)).
Proof.
  destruct loaded_facts as (Hcs & Hlen & HT & HT1). intros Hp.
  pose proof (boundary_step p Hp) as Hb.
  unfold getChunkAtPosition. fold T.
  rewrite bool_decide_eq_false_2 by lia.
  rewrite chunk_bounds_boundary by done.
  apply substr_slice; fold len; unfold SIZE_MAX, PTRDIFF_MAX in *; lia.
Qed.

Lemma getChunkAtPosition_outside p :
  p < 1 ∨ T < p → getChunkAtPosition c p = Ret "".
Proof.
  intros Hp. unfold getChunkAtPosition. fold T.
  by rewrite bool_decide_eq_true_2 by lia.
Qed.

Lemma chunk_nonempty p s :
  1 ≤ p ≤ T → getChunkAtPosition c p = Ret s → str_empty s = false.
Proof.
  intros Hp. rewrite getChunkAtPosition_slice by done. intros [= <-].
  pose proof (boundary_step p Hp) as Hb.
  rewrite str_empty_length, str_length_slice by (fold len; lia).
  apply bool_decide_eq_false_2. lia.
Qed.
End chunks.

(** ** The list of all chunks *)

Lemma mapM_Ret {A B : Type} (f : A → res B) (g : A → B) (l : list A) :
  (∀ x, x ∈ l → f x = Ret (g x)) → mapM f l = Ret (g <$> l).
Proof.
  induction l as [|x l IH]; intros Hf; [done|].
  simpl. rewrite Hf by left. simpl.
  rewrite IH by (intros; apply Hf; by right). done.
Qed.

Lemma str_concat_snoc l s : str_concat (l ++ [s]) = str_concat l +:+ s.
Proof.
  induction l as [|t l IH]; simpl.
  - apply str_app_empty_r.
  - unfold str_concat in *. simpl. rewrite IH. by rewrite str_app_assoc.
Qed.

Lemma total_length_concat l : total_length l = str_length (str_concat l).
Proof.
  induction l as [|t l IH]; simpl; [done|].
  unfold str_concat in *. simpl. rewrite str_length_app. lia.
Qed.

(** Slices between consecutive values of a monotone sequence of offsets
    join into one slice. *)
Lemma str_concat_slices s (b : Z → Z) (n : nat) :
  0 ≤ b 0 →
  (∀ p, 1 ≤ p ≤ Z.of_nat n → b (p - 1) ≤ b p) →
  str_concat ((λ p, slice s (b (p - 1)) (b p)) <$> seqZ 1 (Z.of_nat n))
  = slice s (b 0) (b (Z.of_nat n)).
Proof.
  intros H0. induction n as [|n IH]; intros Hmono.
  - simpl. apply list_ascii_inj. unfold slice.
    by rewrite substring_list, Z.sub_diag.
  - rewrite seqZ_S, fmap_app, fmap_cons, fmap_nil, str_concat_snoc.
    rewrite IH by (intros; apply Hmono; lia).
    replace (1 + Z.of_nat n - 1) with (Z.of_nat n) by lia.
    replace (1 + Z.of_nat n) with (Z.of_nat (S n)) by lia.
    assert (∀ k : nat, (k ≤ S n)%nat → b 0 ≤ b (Z.of_nat k)) as Hle.
    { induction k as [|k IHk]; intros Hk; [done|].
      etrans; [apply IHk; lia|].
      specialize (Hmono (Z.of_nat (S k))).
      replace (Z.of_nat (S k) - 1) with (Z.of_nat k) in Hmono by lia.
      apply Hmono. lia. }
    apply slice_app.
    + split; [done|]. apply Hle. lia.
    + specialize (Hmono (Z.of_nat (S n))).
      replace (Z.of_nat (S n) - 1) with (Z.of_nat n) in Hmono by lia.
      apply Hmono. lia.
Qed.

Lemma all_chunks_slices c :
  loaded c →
  all_chunks c
  = Ret ((λ p, slice (text c) (boundary c (p - 1)) (boundary c p))
         <$> seqZ 1 (total_chunks c)).
Proof.
  intros Hc. unfold all_chunks. apply mapM_Ret. intros p Hp.
  apply elem_of_seqZ in Hp. apply getChunkAtPosition_slice; [done|lia].
Qed.

Lemma all_chunks_concat c l :
  loaded c → all_chunks c = Ret l → str_concat l = text c.
Proof.
  intros Hc. rewrite all_chunks_slices by done. intros [= <-].
  destruct (loaded_facts c Hc) as (Hcs & Hlen & HT & HT1).
  rewrite <-(Z2Nat.id (total_chunks c)) by lia.
  rewrite str_concat_slices.
  - rewrite Z2Nat.id by lia.
    rewrite boundary_first, boundary_last by done. apply slice_full.
  - by rewrite boundary_first.
  - intros p Hp. rewrite Z2Nat.id in Hp by lia.
    pose proof (boundary_step c Hc p Hp). lia.
Qed.

(** ** Chunking theorems *)

(** C3.  For a loaded engine (non-empty buffer, positive chunk size), in
    either direction, every chunk at a position 1 .. total_chunks is the
    non-empty substring between its two offsets; the first chunk starts at
    offset 0, each chunk starts where the previous one ends, the last one
    ends at the end of the buffer, and the lengths of the chunks sum to the
    length of the buffer. *)
Theorem chunks_partition_buffer (c : TextChunker) :
  loaded c →
  (∀ p, 1 ≤ p ≤ total_chunks c →
     0 ≤ (chunk_bounds c p).1 < (chunk_bounds c p).2
     ∧ (chunk_bounds c p).2 ≤ str_length (text c)
     ∧ getChunkAtPosition c p
       = Ret (slice (text c) (chunk_bounds c p).1 (chunk_bounds c p).2))
  ∧ (chunk_bounds c 1).1 = 0
  ∧ (∀ p, 1 ≤ p < total_chunks c →
       (chunk_bounds c (p + 1)).1 = (chunk_bounds c p).2)
  ∧ (chunk_bounds c (total_chunks c)).2 = str_length (text c)
  ∧ ∃ l, all_chunks c = Ret l
         ∧ length l = Z.to_nat (total_chunks c)
         ∧ total_length l = str_length (text c).
Proof.
  intros Hc. destruct (loaded_facts c Hc) as (Hcs & Hlen & HT & HT1).
  repeat split.
  - rewrite chunk_bounds_boundary by done. simpl.
    pose proof (boundary_step c Hc p); lia.
  - rewrite chunk_bounds_boundary by done. simpl.
    pose proof (boundary_step c Hc p); lia.
  - rewrite chunk_bounds_boundary by done. simpl.
    pose proof (boundary_step c Hc p); lia.
  - rewrite chunk_bounds_boundary by done. simpl.
    by apply getChunkAtPosition_slice.
  - rewrite chunk_bounds_boundary by (done || lia). simpl.
    by apply boundary_first.
  - intros p Hp. rewrite !chunk_bounds_boundary by (done || lia). simpl.
    f_equal. lia.
  - rewrite chunk_bounds_boundary by (done || lia). simpl.
    by apply boundary_last.
  - eexists. split; [by apply all_chunks_slices|]. split.
    + by rewrite length_fmap, length_seqZ.
    + rewrite total_length_concat. f_equal.
      apply all_chunks_concat; [done|]. by apply all_chunks_slices.
Qed.

(** C5.  For a loaded engine in the forward-anchored direction, chunk [p]
    is the text from offset (p - 1) * chunk_size to
    min (p * chunk_size, length), and joining the chunks at positions
    1, 2, .., total_chunks in this order gives back the buffer. *)
Theorem forward_chunks_roundtrip (c : TextChunker) :
  loaded c → reverse_anchored c = false →
  ∃ l, all_chunks c = Ret l
       ∧ l = (λ p, slice (text c) ((p - 1) * chunk_size c)
                         (Z.min (p * chunk_size c) (str_length (text c))))
             <$> seqZ 1 (total_chunks c)
       ∧ str_concat l = text c.
Proof.
  intros Hc Hfwd. destruct (loaded_facts c Hc) as (Hcs & Hlen & HT & HT1).
  eexists. split; [by apply all_chunks_slices|]. split.
  - apply list_fmap_ext. intros i p Hp.
    apply lookup_seqZ in Hp. unfold boundary. rewrite Hfwd.
    f_equal. nia.
  - apply all_chunks_concat; [done|]. by apply all_chunks_slices.
Qed.

(** C4.  In the reverse-anchored direction the chunk at a position in
    1 .. total_chunks is the text from max (0, end - chunk_size) to
    end = length - (total_chunks - pos) * chunk_size; it is never longer
    than chunk_size and only the chunk at position 1 can be shorter.  A
    buffer of 25 characters with chunk size 10 has 3 chunks, of sizes
    5, 10, 10 when reverse-anchored and 10, 10, 5 when forward-anchored. *)
Theorem reverse_chunks_tail_aligned (c : TextChunker) :
  loaded c →
  (reverse_anchored c = true →
   ∀ pos, 1 ≤ pos ≤ total_chunks c →
     let end_pos :=
       str_length (text c) - (total_chunks c - pos) * chunk_size c in
     let start_pos := Z.max 0 (end_pos - chunk_size c) in
     let chunk := slice (text c) start_pos end_pos in
     getChunkAtPosition c pos = Ret chunk
     ∧ 0 < str_length chunk ≤ chunk_size c
     ∧ (1 < pos → str_length chunk = chunk_size c))
  ∧ (str_length (text c) = 25 → chunk_size c = 10 →
     total_chunks c = 3
     ∧ ∃ l, all_chunks c = Ret l
            ∧ str_length <$> l
              = if reverse_anchored c then [5; 10; 10] else [10; 10; 5]).
Proof.
  intros Hc. destruct (loaded_facts c Hc) as (Hcs & Hlen & HT & HT1). split.
  - intros Hrev pos Hpos. simpl.
    pose proof (boundary_step c Hc pos Hpos) as Hb.
    pose proof (getChunkAtPosition_slice c Hc pos Hpos) as Hget.
    unfold boundary in Hb, Hget. rewrite Hrev in Hb, Hget.
    set (e := str_length (text c) - (total_chunks c - pos) * chunk_size c) in *.
    replace (str_length (text c) - (total_chunks c - (pos - 1)) * chunk_size c)
      with (e - chunk_size c) in Hb, Hget by (unfold e; lia).
    rewrite (Z.max_r 0 e) in Hb, Hget by lia.
    split; [done|].
    rewrite str_length_slice by lia.
    split; [lia|]. intros Hpos1. unfold e. nia.
  - intros H25 H10.
    assert (HT3 : total_chunks c = 3).
    { rewrite (loaded_total c Hc), H25, H10. done. }
    split; [done|]. eexists. split; [by apply all_chunks_slices|].
    rewrite HT3. change (seqZ 1 3) with [1; 2; 3].
    rewrite !fmap_cons, !fmap_nil.
    assert (∀ p, 1 ≤ p ≤ 3 →
              str_length (slice (text c) (boundary c (p - 1)) (boundary c p))
              = boundary c p - boundary c (p - 1)) as Hl.
    { intros p Hp. rewrite <-HT3 in Hp.
      pose proof (boundary_step c Hc p Hp). apply str_length_slice; lia. }
    rewrite !Hl by lia. unfold boundary. rewrite H25, H10, HT3.
    by destruct (reverse_anchored c).
Qed.

(** C10.  In the reverse-anchored branch, for a non-empty buffer, a positive
    chunk size, [total_chunks] the ceiling of length / chunk size and a
    position in 1 .. total_chunks: the product subtracted from the length
    is at most the length, so the [size_t] subtraction does not wrap (the
    machine value of [end_pos] is the mathematical one), the offsets
    satisfy 0 <= start <= end <= length, and the [substr] call does not
    throw and reads inside the buffer. *)
Theorem reverse_bounds_no_underflow (c : TextChunker) (pos : Z) :
  well_typed c →
  0 < str_length (text c) →
  total_chunks c = ceil_div (str_length (text c)) (chunk_size c) →
  reverse_anchored c = true →
  1 ≤ pos ≤ total_chunks c →
  let start_pos := (chunk_bounds c pos).1 in
  let end_pos := (chunk_bounds c pos).2 in
  (total_chunks c - pos) * chunk_size c ≤ str_length (text c)
  ∧ end_pos = str_length (text c) - (total_chunks c - pos) * chunk_size c
  ∧ 0 ≤ start_pos ≤ end_pos ∧ end_pos ≤ str_length (text c)
  ∧ start_pos + to_size_t (end_pos - start_pos) ≤ str_length (text c)
  ∧ substr (text c) start_pos (to_size_t (end_pos - start_pos))
    = Ret (slice (text c) start_pos end_pos).
Proof.
  intros Hwt Hlen Htot Hrev Hpos.
  assert (Hc : loaded c) by (by constructor).
  destruct (loaded_facts c Hc) as (Hcs & Hlen' & HT & HT1).
  pose proof (boundary_step c Hc pos Hpos) as Hb.
  rewrite chunk_bounds_boundary by done. simpl.
  assert (boundary c pos
          = str_length (text c) - (total_chunks c - pos) * chunk_size c) as He.
  { unfold boundary. rewrite Hrev. nia. }
  unfold PTRDIFF_MAX, SIZE_MAX in *.
  rewrite to_size_t_id by (unfold SIZE_MAX; lia).
  repeat split; try lia.
  rewrite <-(to_size_t_id (boundary c pos - _)) by (unfold SIZE_MAX; lia).
  apply substr_slice; unfold SIZE_MAX; lia.
Qed.

(** ** State transitions *)

Lemma loaded_update c c' :
  loaded c →
  text c' = text c → chunk_size c' = chunk_size c →
  total_chunks c' = total_chunks c →
  INT_MIN ≤ current_chunk c' ≤ INT_MAX →
  loaded c'.
Proof.
  intros [[Hcs Htxt Htot Hcur] Hpos Hceil] Et Ec ET Hcur'.
  repeat constructor; rewrite ?Et, ?Ec, ?ET; (done || lia).
Qed.

Lemma steady_set_current v c :
  steady c → 1 ≤ v ≤ total_chunks c → steady (set_current_chunk v c).
Proof.
  intros [Hc Hr] Hv. split; [|done].
  apply (loaded_update c); try done. simpl.
  pose proof (wt_total c (loaded_typed c Hc)). unfold INT_MIN in *. lia.
Qed.

Lemma steady_same_position c c' :
  steady c →
  text c' = text c → chunk_size c' = chunk_size c →
  total_chunks c' = total_chunks c → current_chunk c' = current_chunk c →
  steady c'.
Proof.
  intros [Hc Hr] Et Ec ET Ecur. split.
  - apply (loaded_update c); try done. rewrite Ecur.
    apply (wt_current c (loaded_typed c Hc)).
  - unfold in_range. by rewrite Ecur, ET.
Qed.

Lemma check_bounds_in_range c : in_range c → check_bounds c = c.
Proof.
  intros [H1 H2]. unfold check_bounds.
  rewrite (bool_decide_eq_false_2 (current_chunk c < 1)) by lia.
  by rewrite bool_decide_eq_false_2 by lia.
Qed.

Lemma next_position_clamped c :
  in_range c → total_chunks c < INT_MAX →
  next_position c
  = if reverse_anchored c
    then Z.max 1 (current_chunk c - 1)
    else Z.min (total_chunks c) (current_chunk c + 1).
Proof.
  intros [H1 H2] HT. unfold next_position.
  by rewrite !to_int_id by (unfold INT_MIN, INT_MAX in *; lia).
Qed.

Lemma prev_position_clamped c :
  in_range c → total_chunks c < INT_MAX →
  prev_position c
  = if reverse_anchored c
    then Z.min (total_chunks c) (current_chunk c + 1)
    else Z.max 1 (current_chunk c - 1).
Proof.
  intros [H1 H2] HT. unfold prev_position.
  by rewrite !to_int_id by (unfold INT_MIN, INT_MAX in *; lia).
Qed.

Lemma next_position_in_range c :
  in_range c → total_chunks c < INT_MAX →
  1 ≤ next_position c ≤ total_chunks c.
Proof.
  intros Hr HT. rewrite next_position_clamped by done.
  destruct Hr. destruct (reverse_anchored c); lia.
Qed.

Lemma prev_position_in_range c :
  in_range c → total_chunks c < INT_MAX →
  1 ≤ prev_position c ≤ total_chunks c.
Proof.
  intros Hr HT. rewrite prev_position_clamped by done.
  destruct Hr. destruct (reverse_anchored c); lia.
Qed.

(** [recalculateChunks] brings [total_chunks] up to date and puts the
    position back into range, as long as the number of chunks fits [int]. *)
Lemma recalculateChunks_steady c :
  0 < chunk_size c ≤ SIZE_MAX →
  0 < str_length (text c) ≤ PTRDIFF_MAX →
  ceil_div (str_length (text c)) (chunk_size c) ≤ INT_MAX →
  INT_MIN ≤ current_chunk c ≤ INT_MAX →
  steady (recalculateChunks c)
  ∧ current_chunk (recalculateChunks c)
    = Z.max 1 (Z.min (current_chunk c)
                     (ceil_div (str_length (text c)) (chunk_size c))).
Proof.
  intros Hcs Hlen Hfit Hcur.
  pose proof (ceil_div_pos _ _ (proj1 Hcs) (proj1 Hlen)) as Hpos.
  assert (Htot : total_chunks (recalculateChunks c)
                 = ceil_div (str_length (text c)) (chunk_size c)).
  { unfold recalculateChunks. simpl.
    destruct (recalculate_quotient _ _ Hcs Hlen) as [Hq|[Hq H1]];
      simpl in Hq; rewrite Hq.
    - rewrite to_int_id by (unfold INT_MIN; lia).
      by rewrite bool_decide_eq_false_2 by lia.
    - by rewrite H1. }
  assert (Hcur' : current_chunk (recalculateChunks c)
                  = Z.max 1 (Z.min (current_chunk c)
                       (ceil_div (str_length (text c)) (chunk_size c)))).
  { rewrite <-Htot. unfold recalculateChunks. simpl.
    repeat case_bool_decide; lia. }
  split; [|done]. split.
  - repeat constructor; rewrite ?Htot, ?Hcur'; simpl;
      unfold INT_MIN in *; (done || lia).
  - unfold in_range. rewrite Htot, Hcur'. lia.
Qed.

Lemma set_current_chunk_self c : set_current_chunk (current_chunk c) c = c.
Proof. by destruct c. Qed.

(** The scan only moves the position. *)
Lemma scan_frame fuel start c r c' :
  findNextUnusedChunk_loop fuel start c = Ret (r, c') →
  c' = set_current_chunk (current_chunk c') c.
Proof.
  revert c. induction fuel as [|fuel IH]; intros c H; simpl in H; [done|].
  destruct (getChunkAtPosition c (current_chunk c)) as [chunk|e|];
    simpl in H; try done.
  destruct (isChunkUsed c chunk); simpl in H.
  - case_bool_decide.
    + by injection H as <- <-.
    + apply IH in H. exact H.
  - injection H as <- <-. by rewrite set_current_chunk_self.
Qed.

(** The scan keeps the position in range, and a result other than -1 is the
    position it stopped at. *)
Lemma scan_in_range fuel start c r c' :
  in_range c → total_chunks c < INT_MAX →
  findNextUnusedChunk_loop fuel start c = Ret (r, c') →
  in_range c' ∧ (r = -1 ∨ r = current_chunk c').
Proof.
  revert c. induction fuel as [|fuel IH]; intros c Hr HT H;
    simpl in H; [done|].
  destruct (getChunkAtPosition c (current_chunk c)) as [chunk|e|];
    simpl in H; try done.
  pose proof (next_position_in_range c Hr HT) as Hn.
  destruct (isChunkUsed c chunk); simpl in H.
  - case_bool_decide.
    + injection H as <- <-. split; [done|by left].
    + apply IH in H; done.
  - injection H as <- <-. split; [done|by right].
Qed.

Lemma copyToClipboard_frame fuel c c' :
  copyToClipboard fuel c = Ret c' →
  text c' = text c ∧ chunk_size c' = chunk_size c
  ∧ total_chunks c' = total_chunks c
  ∧ tail_mode c' = tail_mode c ∧ inverted c' = inverted c.
Proof.
  unfold copyToClipboard, getCurrentChunk. intros H.
  destruct (getChunkAtPosition c (current_chunk c)) as [chunk|e|];
    simpl in H; try done.
  destruct (str_empty chunk); simpl in H; [by injection H as <-|].
  destruct (isChunkUsed c chunk); simpl in H; [|by injection H as <-].
  destruct (findNextUnusedChunk fuel c) as [[r c1]|e|] eqn:Hscan;
    simpl in H; try done.
  apply scan_frame in Hscan.
  case_bool_decide.
  - destruct (getChunkAtPosition _ _) as [chunk'|e|]; simpl in H; try done.
    injection H as <-. by rewrite Hscan.
  - injection H as <-. by rewrite Hscan.
Qed.

Lemma copyToClipboard_in_range fuel c c' :
  in_range c → total_chunks c < INT_MAX →
  copyToClipboard fuel c = Ret c' → in_range c'.
Proof.
  unfold copyToClipboard, getCurrentChunk. intros Hr HT H.
  destruct (getChunkAtPosition c (current_chunk c)) as [chunk|e|];
    simpl in H; try done.
  destruct (str_empty chunk); simpl in H; [by injection H as <-|].
  destruct (isChunkUsed c chunk); simpl in H; [|by injection H as <-].
  destruct (findNextUnusedChunk fuel c) as [[r c1]|e|] eqn:Hscan;
    simpl in H; try done.
  pose proof (scan_frame _ _ _ _ _ Hscan) as Hfr.
  apply scan_in_range in Hscan as [Hr1 Hres]; [|done..].
  case_bool_decide.
  - destruct (getChunkAtPosition _ _) as [chunk'|e|]; simpl in H; try done.
    injection H as <-. destruct Hres as [->| ->]; done.
  - by injection H as <-.
Qed.

Lemma appendText_text c :
  str_length (text c) ≤ str_length (text (appendText c)).
Proof.
  unfold appendText. destruct (read_additional (cin c)) as [more rest].
  destruct (str_empty more); simpl; [lia|].
  rewrite str_length_app. pose proof (str_length_nonneg more). lia.
Qed.

Lemma appendText_steady c :
  steady c → str_length (text (appendText c)) < INT_MAX →
  steady (appendText c).
Proof.
  intros [Hc Hr]. unfold appendText.
  destruct (read_additional (cin c)) as [more rest].
  destruct (str_empty more); simpl.
  - intros _. by apply (steady_same_position c).
  - intros Hlen. rewrite str_length_app in Hlen.
    destruct (loaded_facts c Hc) as (Hcs & Hl & HT & HT1).
    pose proof (str_length_nonneg more).
    apply recalculateChunks_steady; simpl; rewrite ?str_length_app.
    + done.
    + unfold INT_MAX, PTRDIFF_MAX in *. lia.
    + pose proof (ceil_div_le (str_length (text c) + str_length more)
                    (chunk_size c)). lia.
    + apply (wt_current c (loaded_typed c Hc)).
Qed.

Lemma steady_total_bound c :
  steady c → str_length (text c) < INT_MAX → total_chunks c < INT_MAX.
Proof.
  intros [Hc _] Hlen. destruct (loaded_facts c Hc) as (Hcs & Hl & HT & HT1).
  rewrite (loaded_total c Hc).
  pose proof (ceil_div_le (str_length (text c)) (chunk_size c)). lia.
Qed.

Lemma steady_move v c :
  steady c → 1 ≤ v ≤ total_chunks c →
  steady (check_bounds (set_current_chunk v c)).
Proof.
  intros Hc Hv. rewrite check_bounds_in_range by done.
  by apply steady_set_current.
Qed.

Lemma invert_position c :
  in_range c → total_chunks c ≤ INT_MAX →
  to_int (to_int (total_chunks c - current_chunk c) + 1)
  = total_chunks c - current_chunk c + 1.
Proof.
  intros [H1 H2] HT.
  rewrite (to_int_id (_ - _)) by (unfold INT_MIN, INT_MAX in *; lia).
  apply to_int_id. unfold INT_MIN, INT_MAX in *. lia.
Qed.

(** No command shortens the buffer. *)
Lemma execCommand_text fuel cmd c o c' :
  execCommand fuel cmd c = Ret (o, c') →
  str_length (text c) ≤ str_length (text c').
Proof.
  destruct cmd; simpl; intros H;
    try (injection H as <- <-; unfold check_bounds;
         repeat case_bool_decide; simpl; lia).
  - destruct (findNextUnusedChunk fuel c) as [[r c1]|e|] eqn:Hscan;
      simpl in H; try done.
    apply scan_frame in Hscan. injection H as <- <-.
    rewrite Hscan. unfold check_bounds. repeat case_bool_decide; simpl; lia.
  - injection H as <- <-. apply appendText_text.
  - destruct (getCurrentChunk c) as [chunk|e|]; simpl in H; try done.
    injection H as <- <-. unfold check_bounds.
    destruct (str_empty chunk); repeat case_bool_decide; simpl; lia.
  - case_bool_decide; injection H as <- <-; [|lia].
    unfold check_bounds, recalculateChunks.
    repeat case_bool_decide; simpl; lia.
  - case_bool_decide; injection H as <- <-; [|lia].
    unfold check_bounds. repeat case_bool_decide; simpl; lia.
Qed.

(** Every command keeps the session invariant. *)
Lemma execCommand_steady fuel cmd c o c' :
  steady c →
  execCommand fuel cmd c = Ret (o, c') →
  str_length (text c') < INT_MAX →
  steady c'.
Proof.
  intros Hst H Hlen.
  pose proof (execCommand_text _ _ _ _ _ H) as Hgrow.
  assert (HT : total_chunks c < INT_MAX) by (apply steady_total_bound; [done|lia]).
  pose proof Hst as [Hc Hr].
  pose proof (next_position_in_range c Hr HT) as Hn.
  pose proof (prev_position_in_range c Hr HT) as Hp.
  destruct (loaded_facts c Hc) as (Hcs & Hl & HTs & HT1).
  destruct cmd; simpl in H.
  - (* the empty line *)
    destruct (findNextUnusedChunk fuel c) as [[r c1]|e|] eqn:Hscan;
      simpl in H; try done.
    pose proof (scan_frame _ _ _ _ _ Hscan) as Hfr.
    apply scan_in_range in Hscan as [Hr1 Hres]; [|done..].
    assert (steady c1) as Hst1.
    { rewrite Hfr. apply steady_set_current; [done|].
      rewrite Hfr in Hr1. exact Hr1. }
    assert (total_chunks c1 = total_chunks c) as ET by (by rewrite Hfr).
    injection H as <- <-. case_bool_decide.
    + destruct Hres as [->| ->]; [done|]. apply steady_move; [done|apply Hr1].
    + apply steady_move; [done|].
      apply next_position_in_range; [done|by rewrite ET].
  - injection H as <- <-. apply appendText_steady; [done|].
    simpl in Hlen. done.
  - destruct (getCurrentChunk c) as [chunk|e|]; simpl in H; try done.
    injection H as <- <-. rewrite check_bounds_in_range.
    + destruct (str_empty chunk); [done|]. by apply (steady_same_position c).
    + by destruct (str_empty chunk).
  - by injection H as <- <-.
  - injection H as <- <-. by apply (steady_same_position c).
  - injection H as <- <-. by apply steady_move.
  - injection H as <- <-. by apply steady_move.
  - injection H as <- <-. apply steady_move; [done|].
    destruct (reverse_anchored c); lia.
  - injection H as <- <-. apply steady_move; [done|].
    destruct (reverse_anchored c); lia.
  - injection H as <- <-. simpl.
    rewrite invert_position by (done || lia).
    apply (steady_move _ (set_inverted _ c)).
    + by apply (steady_same_position c).
    + destruct Hr. simpl. lia.
  - case_bool_decide as Hguard; injection H as <- <-; [|done].
    simpl in Hlen.
    destruct (recalculateChunks_steady
                (set_used_chunks ∅ (set_chunk_size new_size c))) as [Hs _];
      simpl.
    + unfold SIZE_MAX, PTRDIFF_MAX in *. lia.
    + lia.
    + pose proof (ceil_div_le (str_length (text c)) new_size). lia.
    + apply (wt_current c (loaded_typed c Hc)).
    + rewrite check_bounds_in_range; [done|apply Hs].
  - by injection H as <- <-.
  - case_bool_decide as Hguard; injection H as <- <-; [|done].
    apply steady_move; [done|lia].
  - by injection H as <- <-.
Qed.

Lemma loadText_steady tail size total0 input t c :
  0 < size ≤ SIZE_MAX →
  loadText (Some t) (init tail size total0 input) = (true, c) →
  str_length t ≤ PTRDIFF_MAX →
  ceil_div (str_length t) size ≤ INT_MAX →
  steady c ∧ text c = t ∧ chunk_size c = size ∧ tail_mode c = tail
  ∧ inverted c = false
  ∧ current_chunk c = (if tail then total_chunks c else 1).
Proof.
  intros Hsize H Hlen Hfit. unfold loadText in H.
  destruct (str_empty t) eqn:Hempty; [done|].
  rewrite str_empty_length in Hempty. apply bool_decide_eq_false_1 in Hempty.
  pose proof (str_length_nonneg t).
  pose proof (ceil_div_pos (str_length t) size).
  destruct (recalculateChunks_steady (set_text t (init tail size total0 input)))
    as [Hst Hcur]; try (done || (simpl; lia)).
  remember (recalculateChunks (set_text t (init tail size total0 input)))
    as c1 eqn:Ec1.
  assert (tail_mode c1 = tail ∧ text c1 = t ∧ chunk_size c1 = size
          ∧ inverted c1 = false) as (Etail & Et & Ec & Ei) by (by subst c1).
  assert (current_chunk c1 = 1) as Ecur.
  { rewrite Hcur. change (current_chunk (set_text _ _)) with 1.
    change (text (set_text _ _)) with t.
    change (chunk_size (set_text _ _)) with size. lia. }
  rewrite Etail in H. destruct tail; injection H as <-.
  - split; [|done]. apply steady_set_current; [done|].
    destruct Hst as [_ [? ?]]. lia.
  - done.
Qed.

Lemma apply_text fuel o c c' :
  apply fuel o c = Ret c' → str_length (text c) ≤ str_length (text c').
Proof.
  destruct o as [cmd|]; simpl; intros H.
  - destruct (execCommand fuel cmd c) as [[o c1]|e|] eqn:Hexec;
      simpl in H; try done.
    injection H as <-. by eapply execCommand_text.
  - apply copyToClipboard_frame in H as (-> & _). done.
Qed.

Lemma apply_steady fuel o c c' :
  steady c → apply fuel o c = Ret c' →
  str_length (text c') < INT_MAX → steady c'.
Proof.
  intros Hst H Hlen. pose proof (apply_text _ _ _ _ H) as Hgrow.
  destruct o as [cmd|]; simpl in H.
  - destruct (execCommand fuel cmd c) as [[o c1]|e|] eqn:Hexec;
      simpl in H; try done.
    injection H as <-. by eapply execCommand_steady.
  - pose proof (copyToClipboard_frame _ _ _ H) as (Et & Ec & ET & _).
    assert (in_range c').
    { eapply copyToClipboard_in_range; [apply Hst| |done].
      apply steady_total_bound; [done|lia]. }
    destruct Hst as [Hc Hr]. split; [|done].
    apply (loaded_update c); try done.
    pose proof (wt_total c (loaded_typed c Hc)).
    unfold in_range, INT_MIN in *. lia.
Qed.

Lemma apply_all_steady fuel os c c' :
  steady c → apply_all fuel os c = Ret c' →
  str_length (text c') < INT_MAX →
  steady c' ∧ str_length (text c) ≤ str_length (text c').
Proof.
  revert c. induction os as [|o os IH]; intros c Hst H Hlen; simpl in H.
  - injection H as <-. split; [done|lia].
  - destruct (apply fuel o c) as [c1|e|] eqn:Hstep; simpl in H; try done.
    pose proof (apply_text _ _ _ _ Hstep) as Hgrow.
    assert (str_length (text c1) ≤ str_length (text c')) as Hgrow'.
    { clear IH Hst Hstep Hgrow. revert c1 H.
      induction os as [|o' os IH]; intros c1 H; simpl in H.
      - injection H as <-. lia.
      - destruct (apply fuel o' c1) as [c2|e|] eqn:Hstep; simpl in H; try done.
        pose proof (apply_text _ _ _ _ Hstep). apply IH in H. lia. }
    destruct (IH c1) as [Hst' _]; [|done|done|].
    + eapply apply_steady; [done..|lia].
    + split; [done|lia].
Qed.

(** In a running session no command other than the empty line depends on
    the scan: it returns, whatever the fuel. *)
Lemma execCommand_returns fuel cmd c :
  steady c → cmd ≠ CmdAdvance →
  ∃ o c', execCommand fuel cmd c = Ret (o, c').
Proof.
  intros [Hc Hr] Hcmd. destruct cmd; simpl; try done; try by eauto.
  - unfold getCurrentChunk.
    rewrite getChunkAtPosition_slice by done. simpl. eauto.
  - case_bool_decide; eauto.
  - case_bool_decide; eauto.
Qed.

(** In a running session nothing throws: every [substr] is in bounds. *)
Lemma scan_never_throws fuel start c e :
  steady c → total_chunks c < INT_MAX →
  findNextUnusedChunk_loop fuel start c ≠ Throw e.
Proof.
  revert c. induction fuel as [|fuel IH]; intros c Hst HT; simpl; [done|].
  pose proof Hst as [Hc Hr].
  rewrite getChunkAtPosition_slice by done. simpl.
  destruct (isChunkUsed c _); simpl; [|done].
  case_bool_decide; [done|]. apply IH; [|done].
  apply steady_set_current; [done|]. by apply next_position_in_range.
Qed.

Lemma apply_never_throws fuel o c e :
  steady c → str_length (text c) < INT_MAX → apply fuel o c ≠ Throw e.
Proof.
  intros Hst Hlen. pose proof (steady_total_bound c Hst Hlen) as HT.
  pose proof Hst as [Hc Hr].
  assert (∀ fuel', findNextUnusedChunk fuel' c ≠ Throw e) as Hscan.
  { intros fuel'. by apply scan_never_throws. }
  destruct o as [cmd|]; simpl.
  - assert (cmd = CmdAdvance ∨ cmd ≠ CmdAdvance) as [->|Hcmd]
      by (destruct cmd; (by left) || (by right)).
    + simpl. specialize (Hscan fuel).
      destruct (findNextUnusedChunk fuel c) as [[r c1]|e'|]; simpl;
        [done| |done].
      intros [= ->]. by apply Hscan.
    + destruct (execCommand_returns fuel cmd c Hst Hcmd) as (o & c' & ->).
      done.
  - unfold copyToClipboard, getCurrentChunk.
    rewrite getChunkAtPosition_slice by done. simpl.
    destruct (str_empty _); simpl; [done|].
    destruct (isChunkUsed c _); simpl; [|done].
    destruct (findNextUnusedChunk fuel c) as [[r c1]|e'|] eqn:Hs; simpl.
    + pose proof (scan_frame _ _ _ _ _ Hs) as Hfr.
      apply scan_in_range in Hs as [Hr1 Hres]; [|done..].
      case_bool_decide; [|done].
      destruct Hres as [->| ->]; [done|].
      rewrite (getChunkAtPosition_slice (set_current_chunk _ c1)).
      * done.
      * assert (total_chunks c1 = total_chunks c) as ET by (by rewrite Hfr).
        apply (loaded_update c); try done; try (by rewrite Hfr).
        simpl. pose proof (wt_total c (loaded_typed c Hc)).
        unfold in_range, INT_MIN in *. lia.
      * apply Hr1.
    + intros [= ->]. by apply (Hscan fuel).
    + done.
Qed.

(** The dispatch of [processCommand] on the letters and on [$digits]. *)
Lemma parseCommand_letters :
  parseCommand "" = Ret CmdAdvance
  ∧ parseCommand "N" = Ret CmdNext ∧ parseCommand "n" = Ret CmdNext
  ∧ parseCommand "P" = Ret CmdPrev ∧ parseCommand "p" = Ret CmdPrev
  ∧ parseCommand "F" = Ret CmdFirst ∧ parseCommand "f" = Ret CmdFirst
  ∧ parseCommand "L" = Ret CmdLast ∧ parseCommand "l" = Ret CmdLast
  ∧ parseCommand "I" = Ret CmdInvert ∧ parseCommand "i" = Ret CmdInvert
  ∧ parseCommand "A" = Ret CmdAppend ∧ parseCommand "a" = Ret CmdAppend
  ∧ parseCommand "R" = Ret CmdRecopy ∧ parseCommand "r" = Ret CmdRecopy
  ∧ parseCommand "U" = Ret CmdUsage ∧ parseCommand "u" = Ret CmdUsage
  ∧ parseCommand "reset" = Ret CmdReset
  ∧ parseCommand "q" = Ret CmdQuit ∧ parseCommand "Q" = Ret CmdQuit
  ∧ parseCommand "quit" = Ret CmdQuit.
Proof. repeat split; by vm_compute. Qed.

Lemma parseCommand_resize number :
  number ≠ "" → all_digits number = true →
  parseCommand (String "$" number)
  = (new_size ← stoul number; Ret (CmdResize new_size)).
Proof.
  intros Hne Hdigits. unfold parseCommand, str_empty.
  repeat (rewrite bool_decide_eq_false_2
            by (intros Heq;
                repeat match goal with
                       | Hor : _ ∨ _ |- _ => destruct Hor
                       end; discriminate)).
  destruct number; [done|]. by rewrite Hdigits.
Qed.

(** A resize request within the range of [size_t] reaches the guard of the
    resize branch; a larger number makes [std::stoul] throw. *)
Lemma processCommand_resize fuel number c :
  number ≠ "" → all_digits number = true →
  processCommand fuel (String "$" number) c
  = if bool_decide (digits_value number ≤ SIZE_MAX)
    then execCommand fuel (CmdResize (digits_value number)) c
    else Throw out_of_range.
Proof.
  intros Hne Hdigits. unfold processCommand.
  rewrite parseCommand_resize by done. unfold stoul.
  by case_bool_decide.
Qed.

(** ** Navigation theorems *)

(** ** Chunk counts beyond the range of [int] *)

Lemma str_length_buffer_of n : str_length (buffer_of n) = Z.pos n.
Proof.
  unfold buffer_of, str_length. induction n as [|n IH] using Pos.peano_ind.
  - reflexivity.
  - rewrite Pos.iter_succ. cbn [String.length].
    rewrite Nat2Z.inj_succ, IH. lia.
Qed.

(** Loading a text in head mode with chunk size 1: the number of chunks is
    the length of the text, stored in an [int]. *)
Lemma loadText_unit_chunks t input :
  0 < str_length t ≤ PTRDIFF_MAX → to_int (str_length t) ≠ 0 →
  loadText (Some t) (init false 1 0 input)
  = (true,
     mkTextChunker t 1 false false 1 (to_int (str_length t)) ∅ "" input).
Proof.
  intros Hlen Hnz.
  assert (str_empty t = false) as He.
  { rewrite str_empty_length. apply bool_decide_eq_false_2. lia. }
  unfold loadText. rewrite He. cbn [tail_mode set_text init].
  unfold recalculateChunks.
  cbn [text chunk_size current_chunk set_text init set_total_chunks
       set_current_chunk tail_mode inverted used_chunks clipboard cin
       total_chunks].
  rewrite (to_size_t_id (str_length t + 1))
    by (unfold SIZE_MAX, PTRDIFF_MAX in *; lia).
  replace (str_length t + 1 - 1) with (str_length t) by lia.
  rewrite (to_size_t_id (str_length t))
    by (unfold SIZE_MAX, PTRDIFF_MAX in *; lia).
  rewrite Z.div_1_r.
  rewrite (bool_decide_eq_false_2 (to_int (str_length t) = 0)) by done.
  do 2 f_equal.
  repeat case_bool_decide; (reflexivity || lia).
Qed.

(** C8.  The position does not stay in 1 .. total_chunks for every
    buffer: the number of chunks is computed in [size_t] and stored in an
    [int].  A buffer of 2^31 characters loaded with chunk size 1 has 2^31
    chunks; [total_chunks] is then -2^31, the position 1 lies outside
    1 .. total_chunks, and [getCurrentChunk] returns the empty string.  A
    buffer of 2^31 - 1 characters has [INT_MAX] chunks, the largest count
    an [int] holds: there the invariant holds after the load, but [N] on
    the last chunk, which is the final chunk, does not stay there: the
    position becomes 1. *)
Theorem position_leaves_range_beyond_int :
  let c := engine false 1 (buffer_of (2 ^ 31)) [] in
  let d := engine false 1 (buffer_of (2 ^ 31 - 1)) [] in
  loadText (Some (buffer_of (2 ^ 31))) (init false 1 0 []) = (true, c)
  ∧ Z.max 1 (ceil_div (str_length (text c)) (chunk_size c)) = 2 ^ 31
  ∧ total_chunks c = - 2 ^ 31
  ∧ current_chunk c = 1
  ∧ ¬ (1 ≤ current_chunk c ≤ total_chunks c)
  ∧ getCurrentChunk c = Ret ""
  ∧ loadText (Some (buffer_of (2 ^ 31 - 1))) (init false 1 0 []) = (true, d)
  ∧ steady d
  ∧ total_chunks d = INT_MAX
  ∧ ∃ d1 d2,
      execCommand 0 CmdLast d = Ret (Handled, d1)
      ∧ current_chunk d1 = total_chunks d
      ∧ isAtFinalChunk d1 = true
      ∧ execCommand 0 CmdNext d1 = Ret (Handled, d2)
      ∧ current_chunk d2 = 1.
Proof.
  intros c d. subst c d. unfold engine.
  pose proof (str_length_buffer_of (2 ^ 31)) as Hc.
  pose proof (str_length_buffer_of (2 ^ 31 - 1)) as Hd.
  change (Z.pos (2 ^ 31)) with 2147483648 in Hc.
  change (Z.pos (2 ^ 31 - 1)) with 2147483647 in Hd.
  generalize dependent (buffer_of (2 ^ 31 - 1)). intros u Hu.
  generalize dependent (buffer_of (2 ^ 31)). intros t Ht.
  assert (to_int 2147483648 = -2147483648) as Hneg by reflexivity.
  assert (to_int 2147483647 = 2147483647) as Hmax by reflexivity.
  assert (loadText (Some t) (init false 1 0 [])
          = (true, mkTextChunker t 1 false false 1 (-2147483648) ∅ "" []))
    as Hloadt.
  { rewrite loadText_unit_chunks; rewrite Ht, ?Hneg;
      [done|unfold PTRDIFF_MAX; lia|done]. }
  assert (loadText (Some u) (init false 1 0 [])
          = (true, mkTextChunker u 1 false false 1 2147483647 ∅ "" []))
    as Hloadu.
  { rewrite loadText_unit_chunks; rewrite Hu, ?Hmax;
      [done|unfold PTRDIFF_MAX; lia|done]. }
  rewrite Hloadt, Hloadu. cbn [snd].
  split; [reflexivity|]. split.
  { cbn [text chunk_size]. rewrite Ht. reflexivity. }
  split; [reflexivity|]. split; [reflexivity|].
  split; [cbn [current_chunk total_chunks]; lia|].
  split; [reflexivity|]. split; [reflexivity|].
  split.
  { apply (loadText_steady false 1 0 [] u);
      [unfold SIZE_MAX; lia|exact Hloadu| |];
      rewrite Hu; [unfold PTRDIFF_MAX; lia|by vm_compute]. }
  split; [reflexivity|].
  exists (mkTextChunker u 1 false false 2147483647 2147483647 ∅ "" []),
         (mkTextChunker u 1 false false 1 2147483647 ∅ "" []).
  split; [reflexivity|]. split; [reflexivity|]. split; [reflexivity|].
  split; reflexivity.
Qed.

(** X20.  After any sequence of commands and copies applied to a
    successfully loaded engine, the position is in 1 .. total_chunks and
    total_chunks is the ceiling of length / chunk size, at least 1; [N] and
    [P] always return, moving the position by one step and keeping it at
    the boundary when it is already there, and every command other than the
    empty line returns.  The buffer is taken to hold fewer than INT_MAX
    characters, so that every chunk count fits [int]. *)
Theorem position_stays_in_range
    (tail : bool) (size total0 : Z) (input : list string) (t : string)
    (c : TextChunker) (fuel : nat) (os : list operation) (c' : TextChunker) :
  0 < size ≤ SIZE_MAX →
  loadText (Some t) (init tail size total0 input) = (true, c) →
  apply_all fuel os c = Ret c' →
  str_length (text c') < INT_MAX →
  1 ≤ current_chunk c' ≤ total_chunks c'
  ∧ total_chunks c'
    = Z.max 1 (ceil_div (str_length (text c')) (chunk_size c'))
  ∧ (total_chunks c' - 1) * chunk_size c' < str_length (text c')
    ≤ total_chunks c' * chunk_size c'
  ∧ (∀ fuel',
       execCommand fuel' CmdNext c'
       = Ret (Handled,
              set_current_chunk
                (if reverse_anchored c'
                 then Z.max 1 (current_chunk c' - 1)
                 else Z.min (total_chunks c') (current_chunk c' + 1)) c'))
  ∧ (∀ fuel',
       execCommand fuel' CmdPrev c'
       = Ret (Handled,
              set_current_chunk
                (if reverse_anchored c'
                 then Z.min (total_chunks c') (current_chunk c' + 1)
                 else Z.max 1 (current_chunk c' - 1)) c'))
  ∧ (∀ fuel' cmd, cmd ≠ CmdAdvance →
       ∃ o c'', execCommand fuel' cmd c' = Ret (o, c'')).
Proof.
  intros Hsize Hload Hrun Hlen.
  assert (str_length (text c) ≤ str_length (text c')) as Hgrow.
  { clear Hload. revert c Hrun.
    induction os as [|o os IH]; intros c H; simpl in H.
    - injection H as <-. lia.
    - destruct (apply fuel o c) as [c1|e|] eqn:Hstep; simpl in H; try done.
      pose proof (apply_text _ _ _ _ Hstep). apply IH in H. lia. }
  assert (text c = t) as Et.
  { unfold loadText in Hload. destruct (str_empty t); [done|].
    simpl in Hload. destruct tail; by injection Hload as <-. }
  assert (0 < str_length t) as Hpos.
  { unfold loadText in Hload. destruct (str_empty t) eqn:He; [done|].
    rewrite str_empty_length in He. apply bool_decide_eq_false_1 in He.
    pose proof (str_length_nonneg t). lia. }
  rewrite Et in Hgrow.
  destruct (loadText_steady _ _ _ _ _ _ Hsize Hload) as (Hst & _).
  { unfold PTRDIFF_MAX, INT_MAX in *. lia. }
  { pose proof (ceil_div_le (str_length t) size). lia. }
  destruct (apply_all_steady _ _ _ _ Hst Hrun Hlen) as [[Hc Hr] _].
  destruct (loaded_facts c' Hc) as (Hcs & Hl & HT & HT1).
  assert (total_chunks c' < INT_MAX) as HTb.
  { apply steady_total_bound; done. }
  split; [done|]. split.
  { rewrite <-(loaded_total c' Hc). lia. }
  split; [done|]. split; [|split].
  - intros fuel'. simpl. rewrite next_position_clamped by done.
    rewrite check_bounds_in_range; [done|].
    destruct Hr. unfold in_range. simpl. destruct (reverse_anchored c'); lia.
  - intros fuel'. simpl. rewrite prev_position_clamped by done.
    rewrite check_bounds_in_range; [done|].
    destruct Hr. unfold in_range. simpl. destruct (reverse_anchored c'); lia.
  - intros fuel' cmd Hcmd. by apply execCommand_returns.
Qed.

Lemma execCommand_invert fuel c :
  in_range c → total_chunks c ≤ INT_MAX →
  execCommand fuel CmdInvert c
  = Ret (Handled,
         set_current_chunk (total_chunks c - current_chunk c + 1)
                           (set_inverted (negb (inverted c)) c)).
Proof.
  intros Hr HT. simpl. rewrite invert_position by done.
  rewrite check_bounds_in_range; [done|].
  destruct Hr. unfold in_range. simpl. lia.
Qed.

(** C6.  For every state whose position is one of the chunks, the Invert
    command applied twice gives back the state it started from: the
    position, the [inverted] flag and with it the effective direction. *)
Theorem invert_involution (fuel : nat) (c : TextChunker) :
  in_range c → total_chunks c ≤ INT_MAX →
  ∃ c1, execCommand fuel CmdInvert c = Ret (Handled, c1)
        ∧ inverted c1 = negb (inverted c)
        ∧ reverse_anchored c1 = negb (reverse_anchored c)
        ∧ current_chunk c1 = total_chunks c - current_chunk c + 1
        ∧ execCommand fuel CmdInvert c1 = Ret (Handled, c).
Proof.
  intros Hr HT. eexists. split; [by apply execCommand_invert|].
  split; [done|]. split.
  { unfold reverse_anchored. simpl. by destruct (tail_mode c), (inverted c). }
  split; [done|].
  rewrite execCommand_invert.
  - destruct c as [t cs tm inv cur tot used clip input]. simpl.
    rewrite negb_involutive.
    by replace (tot - (tot - cur + 1) + 1) with cur by lia.
  - destruct Hr. unfold in_range. simpl. lia.
  - done.
Qed.

(** C7.  The resize command is refused with [InvalidSize], leaving the whole
    state as it was, unless 0 < new_size <= length of the buffer.  When it
    is accepted, [chunk_size] becomes [new_size], the consumed set is
    emptied, [total_chunks] becomes the ceiling of length / new_size and the
    position is brought back into 1 .. total_chunks; nothing else changes. *)
Theorem resize_guarded (fuel : nat) (new_size : Z) (c : TextChunker) :
  (¬ (0 < new_size ≤ str_length (text c)) →
   execCommand fuel (CmdResize new_size) c = Ret (InvalidSize, c))
  ∧ (0 < new_size ≤ str_length (text c) →
     well_typed c →
     ceil_div (str_length (text c)) new_size ≤ INT_MAX →
     ∃ c', execCommand fuel (CmdResize new_size) c = Ret (Handled, c')
           ∧ chunk_size c' = new_size
           ∧ used_chunks c' = ∅
           ∧ total_chunks c' = ceil_div (str_length (text c)) new_size
           ∧ current_chunk c'
             = Z.max 1 (Z.min (current_chunk c) (total_chunks c'))
           ∧ 1 ≤ current_chunk c' ≤ total_chunks c'
           ∧ text c' = text c ∧ tail_mode c' = tail_mode c
           ∧ inverted c' = inverted c ∧ clipboard c' = clipboard c
           ∧ cin c' = cin c).
Proof.
  split.
  - intros Hbad. simpl. rewrite bool_decide_eq_false_2; [done|lia].
  - intros Hok [Hcs Htxt Htot Hcur] Hfit. simpl.
    rewrite bool_decide_eq_true_2 by lia.
    set (c1 := set_used_chunks ∅ (set_chunk_size new_size c)).
    destruct (recalculateChunks_steady c1) as [[Hl Hr] Hpos]; try done.
    { simpl. unfold SIZE_MAX, PTRDIFF_MAX in *. lia. }
    { simpl. lia. }
    rewrite check_bounds_in_range by done.
    eexists. split; [done|].
    pose proof (loaded_total _ Hl) as Htotal.
    change (text (recalculateChunks c1)) with (text c) in Htotal.
    change (chunk_size (recalculateChunks c1)) with new_size in Htotal.
    change (text c1) with (text c) in Hpos.
    change (chunk_size c1) with new_size in Hpos.
    change (current_chunk c1) with (current_chunk c) in Hpos.
    rewrite Hpos, Htotal. destruct Hr as [Hr1 Hr2].
    rewrite ?Hpos, ?Htotal in Hr1, Hr2.
    repeat split; (done || lia).
Qed.

(** What Invert keeps is the place in the order of traversal: the first
    chunk of one order is exchanged for the first chunk of the other. *)
Lemma invert_keeps_traversal_rank fuel c o c' :
  in_range c → total_chunks c ≤ INT_MAX →
  execCommand fuel CmdInvert c = Ret (o, c') →
  traversal_rank c' = traversal_rank c.
Proof.
  intros Hr HT. rewrite execCommand_invert by done. intros [= <- <-].
  unfold traversal_rank, reverse_anchored. simpl.
  destruct (tail_mode c), (inverted c); simpl; lia.
Qed.

(** The boundaries of the other direction are the mirror images of the
    boundaries of this one. *)
Lemma boundary_mirror c c' p :
  loaded c →
  text c' = text c → chunk_size c' = chunk_size c →
  total_chunks c' = total_chunks c →
  reverse_anchored c' = negb (reverse_anchored c) →
  0 ≤ p ≤ total_chunks c →
  boundary c' (total_chunks c - p) = str_length (text c) - boundary c p.
Proof.
  intros Hc Et Ec ET Er Hp.
  destruct (loaded_facts c Hc) as (Hcs & Hlen & HT & HT1).
  unfold boundary. rewrite Er, Et, Ec, ET.
  destruct (reverse_anchored c); simpl; nia.
Qed.

(** C1 (amended).  Invert flips [inverted] and sets the position to
    total_chunks - position + 1.  The chunk that is current afterwards is
    the mirror image of the one before: when the old chunk is the text from
    offset s to offset e, the new one is the text from length - e to
    length - s.  It has the same length; it is a different part of the
    buffer unless the old chunk sits symmetrically around the middle. *)
Theorem invert_mirrors_chunk (fuel : nat) (c : TextChunker) :
  steady c →
  let len := str_length (text c) in
  let s := (chunk_bounds c (current_chunk c)).1 in
  let e := (chunk_bounds c (current_chunk c)).2 in
  ∃ c', execCommand fuel CmdInvert c = Ret (Handled, c')
        ∧ inverted c' = negb (inverted c)
        ∧ current_chunk c' = total_chunks c - current_chunk c + 1
        ∧ getCurrentChunk c = Ret (slice (text c) s e)
        ∧ getCurrentChunk c' = Ret (slice (text c) (len - e) (len - s))
        ∧ str_length (slice (text c) (len - e) (len - s))
          = str_length (slice (text c) s e).
Proof.
  intros [Hc Hr] len s e. subst len s e.
  destruct (loaded_facts c Hc) as (Hcs & Hlen & HT & HT1).
  pose proof Hr as [Hr1 Hr2].
  set (c' := set_current_chunk (total_chunks c - current_chunk c + 1)
               (set_inverted (negb (inverted c)) c)).
  assert (Hc' : loaded c').
  { apply (loaded_update c); try done. simpl. unfold INT_MIN. lia. }
  assert (Er : reverse_anchored c' = negb (reverse_anchored c)).
  { unfold reverse_anchored. simpl. by destruct (tail_mode c), (inverted c). }
  exists c'. split; [apply execCommand_invert; (done || lia)|].
  split; [done|]. split; [done|].
  rewrite chunk_bounds_boundary by done. simpl.
  pose proof (boundary_step c Hc _ Hr) as Hb.
  split; [by apply getChunkAtPosition_slice|]. split.
  - unfold getCurrentChunk.
    rewrite (getChunkAtPosition_slice c' Hc') by (simpl; lia).
    change (text c') with (text c).
    change (current_chunk c') with (total_chunks c - current_chunk c + 1).
    replace (total_chunks c - current_chunk c + 1 - 1)
      with (total_chunks c - current_chunk c) by lia.
    replace (total_chunks c - current_chunk c + 1)
      with (total_chunks c - (current_chunk c - 1)) by lia.
    rewrite !(boundary_mirror c c') by (done || lia). done.
  - rewrite !str_length_slice by lia. lia.
Qed.

(** ** The scan for the next unused chunk *)

(** Once the scan has left its starting position, it cannot come back to
    it: the position is clamped at the end of the traversal, not wrapped.
    If every chunk from the current position to that end is consumed, no
    amount of fuel makes the loop return. *)
Lemma scan_loop_diverges fuel start c :
  in_range c → total_chunks c < INT_MAX →
  (if reverse_anchored c
   then current_chunk c < start else start < current_chunk c) →
  (∀ p, ahead c p →
     ∃ chunk, getChunkAtPosition c p = Ret chunk
              ∧ isChunkUsed c chunk = true) →
  findNextUnusedChunk_loop fuel start c = OutOfFuel.
Proof.
  revert c. induction fuel as [|fuel IH]; intros c Hr HT Hpast Hused;
    simpl; [done|].
  destruct (Hused (current_chunk c)) as (chunk & Hget & Hu).
  { destruct Hr. unfold ahead. destruct (reverse_anchored c); lia. }
  rewrite Hget. simpl. rewrite Hu. simpl.
  pose proof (next_position_in_range c Hr HT) as Hn.
  pose proof (next_position_clamped c Hr HT) as Hnext.
  assert (reverse_anchored (set_current_chunk (next_position c) c)
          = reverse_anchored c) as Er by done.
  destruct Hr as [Hr1 Hr2].
  rewrite bool_decide_eq_false_2.
  - apply IH; try done.
    + rewrite Er. simpl. destruct (reverse_anchored c); lia.
    + intros p [Hp Hdir]. rewrite Er in Hdir. simpl in Hdir, Hp.
      apply (Hused p). split; [done|].
      destruct (reverse_anchored c); lia.
  - destruct (reverse_anchored c); lia.
Qed.

(** The same for the whole function: started away from the end of the
    traversal with every chunk ahead consumed, [findNextUnusedChunk] does
    not return. *)
Lemma findNextUnusedChunk_diverges fuel c :
  in_range c → total_chunks c < INT_MAX →
  next_position c ≠ current_chunk c →
  (∀ p, ahead c p →
     ∃ chunk, getChunkAtPosition c p = Ret chunk
              ∧ isChunkUsed c chunk = true) →
  findNextUnusedChunk fuel c = OutOfFuel.
Proof.
  intros Hr HT Hnb Hused. unfold findNextUnusedChunk.
  destruct fuel as [|fuel]; simpl; [done|].
  destruct (Hused (current_chunk c)) as (chunk & Hget & Hu).
  { destruct Hr. unfold ahead. destruct (reverse_anchored c); lia. }
  rewrite Hget. simpl. rewrite Hu. simpl.
  rewrite bool_decide_eq_false_2 by done.
  pose proof (next_position_in_range c Hr HT) as Hn.
  pose proof (next_position_clamped c Hr HT) as Hnext.
  assert (reverse_anchored (set_current_chunk (next_position c) c)
          = reverse_anchored c) as Er by done.
  destruct Hr as [Hr1 Hr2].
  apply scan_loop_diverges; try done.
  - rewrite Er. simpl. destruct (reverse_anchored c); lia.
  - intros p [Hp Hdir]. rewrite Er in Hdir. simpl in Hdir, Hp.
    apply (Hused p). split; [done|].
    destruct (reverse_anchored c); lia.
Qed.

(** At the end of the traversal the scan does return: one turn of the loop
    finds the position unchanged and reports -1. *)
Lemma findNextUnusedChunk_at_end fuel c chunk :
  next_position c = current_chunk c →
  getChunkAtPosition c (current_chunk c) = Ret chunk →
  isChunkUsed c chunk = true →
  findNextUnusedChunk (S fuel) c = Ret (-1, c).
Proof.
  intros Hn Hget Hu. unfold findNextUnusedChunk. simpl.
  rewrite Hget. simpl. rewrite Hu. simpl.
  rewrite bool_decide_eq_true_2 by done.
  by rewrite Hn, set_current_chunk_self.
Qed.

(** When an unused chunk lies ahead, the scan returns the first one: the
    position [n] steps ahead, all chunks before it being consumed, is found
    with [n + 1] turns of the loop. *)
Lemma scan_loop_finds n fuel start c r :
  (n < fuel)%nat →
  in_range c → total_chunks c < INT_MAX →
  1 ≤ r ≤ total_chunks c →
  r = (if reverse_anchored c
       then current_chunk c - Z.of_nat n else current_chunk c + Z.of_nat n) →
  (if reverse_anchored c
   then current_chunk c ≤ start else start ≤ current_chunk c) →
  (∀ p, (if reverse_anchored c
         then r < p ≤ current_chunk c else current_chunk c ≤ p < r) →
     ∃ chunk, getChunkAtPosition c p = Ret chunk
              ∧ isChunkUsed c chunk = true) →
  (∃ chunk, getChunkAtPosition c r = Ret chunk
            ∧ isChunkUsed c chunk = false) →
  findNextUnusedChunk_loop fuel start c = Ret (r, set_current_chunk r c).
Proof.
  revert fuel c. induction n as [|n IH];
    intros [|fuel] c Hfuel Hr HT Hrng Hdist Hstart Hused (chunk & Hget & Hu);
    try lia; simpl.
  - assert (r = current_chunk c) as -> by (destruct (reverse_anchored c); lia).
    rewrite Hget. simpl. rewrite Hu. simpl.
    by rewrite set_current_chunk_self.
  - destruct (Hused (current_chunk c)) as (chunk' & Hget' & Hu').
    { destruct (reverse_anchored c); lia. }
    rewrite Hget'. simpl. rewrite Hu'. simpl.
    pose proof (next_position_clamped c Hr HT) as Hnext.
    assert (reverse_anchored (set_current_chunk (next_position c) c)
            = reverse_anchored c) as Er by done.
    destruct Hr as [Hr1 Hr2].
    assert (next_position c
            = if reverse_anchored c
              then current_chunk c - 1 else current_chunk c + 1) as Hstep.
    { rewrite Hnext. destruct (reverse_anchored c); lia. }
    rewrite bool_decide_eq_false_2
      by (rewrite Hstep; destruct (reverse_anchored c); lia).
    rewrite (IH fuel (set_current_chunk (next_position c) c)); try done.
    + lia.
    + unfold in_range. simpl. rewrite Hstep.
      destruct (reverse_anchored c); lia.
    + rewrite Er. simpl. rewrite Hstep. destruct (reverse_anchored c); lia.
    + rewrite Er. simpl. rewrite Hstep. destruct (reverse_anchored c); lia.
    + intros p Hp. rewrite Er in Hp. simpl in Hp. rewrite Hstep in Hp.
      apply (Hused p). destruct (reverse_anchored c); lia.
    + by exists chunk.
Qed.

(** A position returned by the scan holds a chunk that is not consumed. *)
Lemma scan_result_unused fuel start c r c' :
  findNextUnusedChunk_loop fuel start c = Ret (r, c') → r ≠ -1 →
  ∃ chunk, getChunkAtPosition c' r = Ret chunk
           ∧ isChunkUsed c' chunk = false.
Proof.
  revert c. induction fuel as [|fuel IH]; intros c H Hr; simpl in H; [done|].
  destruct (getChunkAtPosition c (current_chunk c)) as [chunk|e|] eqn:Hget;
    simpl in H; try done.
  destruct (isChunkUsed c chunk) eqn:Hu; simpl in H.
  - case_bool_decide.
    + by injection H as <- <-.
    + by apply IH in H.
  - injection H as <- <-. by exists chunk.
Qed.

Lemma run_unfold fuel input c :
  run_loop (S fuel) input c
  = (c ← copyToClipboard (S fuel) c;
     if isAtFinalChunk c && negb (hasUnusedChunks c) then Ret (AllProcessed, c)
     else
       let line := (getline input c).1 in
       '(o, c) ← processCommand (S fuel) line (getline input c).2;
       match o with
       | Stop => Ret (QuitRequested, c)
       | _ =>
           chunk ← getCurrentChunk c;
           if isAtFinalChunk c && str_empty chunk then Ret (EndOfText, c)
           else run_loop fuel line c
       end).
Proof.
  cbn [run_loop].
  destruct (copyToClipboard (S fuel) c) as [c1|?|]; [|reflexivity..].
  cbn [mbind res_bind].
  destruct (isAtFinalChunk c1 && negb (hasUnusedChunks c1)); [reflexivity|].
  by destruct (getline input c1).
Qed.

Lemma copyToClipboard_fresh fuel c chunk :
  getCurrentChunk c = Ret chunk → str_empty chunk = false →
  isChunkUsed c chunk = false →
  copyToClipboard fuel c = Ret (markChunkAsUsed chunk (set_clipboard chunk c)).
Proof.
  intros Hget He Hu. unfold copyToClipboard.
  rewrite Hget. simpl. by rewrite He, Hu.
Qed.

(** C2.  The scan does not wrap and need not terminate.  With the buffer
    aaaa and chunk size 2 both chunks read aa.  After the first copy every
    chunk's content is consumed and the position is 1; from there
    [findNextUnusedChunk] steps to position 2, stays there, and never finds
    the position equal to its start again: it returns for no amount of
    fuel, and the session started on this buffer hangs on its first empty
    command. *)
Theorem scan_hangs_when_all_consumed :
  copyToClipboard 0 (engine false 2 "aaaa" [""]) = Ret (twice_aa [""])
  ∧ (∀ p, 1 ≤ p ≤ total_chunks (twice_aa []) →
       ∃ chunk, getChunkAtPosition (twice_aa []) p = Ret chunk
                ∧ isChunkUsed (twice_aa []) chunk = true)
  ∧ (∀ fuel, findNextUnusedChunk fuel (twice_aa []) = OutOfFuel)
  ∧ (∀ fuel, session fuel false 2 0 (Some "aaaa") [""] = Some OutOfFuel).
Proof.
  assert (Hused : ∀ p, 1 ≤ p ≤ total_chunks (twice_aa []) →
            ∃ chunk, getChunkAtPosition (twice_aa []) p = Ret chunk
                     ∧ isChunkUsed (twice_aa []) chunk = true).
  { intros p Hp. exists "aa". simpl in Hp.
    assert (p = 1 ∨ p = 2) as [-> | ->] by lia; by vm_compute. }
  assert (Hscan : ∀ fuel, findNextUnusedChunk fuel (twice_aa []) = OutOfFuel).
  { intros fuel. apply findNextUnusedChunk_diverges.
    - by vm_compute.
    - by vm_compute.
    - by vm_compute.
    - intros p [Hp _]. by apply Hused. }
  assert (Hcopy : ∀ fuel,
            copyToClipboard fuel (engine false 2 "aaaa" [""])
            = Ret (twice_aa [""])).
  { intros fuel.
    rewrite (copyToClipboard_fresh _ _ "aa"); by vm_compute. }
  repeat split; try done.
  intros [|fuel]; [done|]. unfold session.
  change (loadText _ _) with (true, engine false 2 "aaaa" [""]).
  cbv beta match. unfold run. rewrite run_unfold, Hcopy. simpl.
  unfold processCommand. simpl. by rewrite Hscan.
Qed.

(** ** The consumed set *)

Lemma size_list_to_set_le (l : list string) :
  (size (list_to_set l : gset string) ≤ length l)%nat.
Proof.
  induction l as [|x l IH].
  - by rewrite list_to_set_nil, size_empty.
  - rewrite list_to_set_cons, size_union_alt, size_singleton.
    assert (size (list_to_set l ∖ {[x]} : gset string)
            ≤ size (list_to_set l : gset string))%nat as Hminus.
    { apply subseteq_size. intros y Hy.
      by apply elem_of_difference in Hy as [Hy _]. }
    simpl. lia.
Qed.

(** When two positions hold the same content, the contents of all chunks
    are fewer than the chunks. *)
Lemma duplicate_contents_bound c (X : gset string) p q :
  1 ≤ p < q → q ≤ total_chunks c →
  getChunkAtPosition c p = getChunkAtPosition c q →
  (∀ s, s ∈ X → ∃ r, 1 ≤ r ≤ total_chunks c ∧ getChunkAtPosition c r = Ret s) →
  Z.of_nat (size X) < total_chunks c.
Proof.
  intros Hp Hq Hdup Hall.
  set (others := seqZ 1 (q - 1) ++ seqZ (q + 1) (total_chunks c - q)).
  assert (X ⊆ list_to_set (chunk_or_empty c <$> others)) as Hsub.
  { intros s Hs. destruct (Hall s Hs) as (r & Hr & Hget).
    apply elem_of_list_to_set, list_elem_of_fmap.
    destruct (decide (r = q)) as [->|Hne].
    - exists p. split.
      + unfold chunk_or_empty. by rewrite Hdup, Hget.
      + apply elem_of_app. left. apply elem_of_seqZ. lia.
    - exists r. split.
      + unfold chunk_or_empty. by rewrite Hget.
      + apply elem_of_app. rewrite !elem_of_seqZ. lia. }
  apply subseteq_size in Hsub.
  pose proof (size_list_to_set_le (chunk_or_empty c <$> others)) as Hle.
  rewrite length_fmap in Hle. unfold others in Hle, Hsub.
  rewrite length_app, !length_seqZ in Hle. lia.
Qed.

(** *** When the consumed contents are chunks of the present chunking *)

Lemma getChunkAtPosition_frame c c' p :
  text c' = text c → chunk_size c' = chunk_size c →
  tail_mode c' = tail_mode c → inverted c' = inverted c →
  total_chunks c' = total_chunks c →
  getChunkAtPosition c' p = getChunkAtPosition c p.
Proof.
  intros Et Ec Etail Einv ET.
  unfold getChunkAtPosition, chunk_bounds, reverse_anchored.
  by rewrite Et, Ec, Etail, Einv, ET.
Qed.

Lemma fresh_frame c c' :
  fresh c →
  text c' = text c → chunk_size c' = chunk_size c →
  tail_mode c' = tail_mode c → inverted c' = inverted c →
  total_chunks c' = total_chunks c → used_chunks c' = used_chunks c →
  fresh c'.
Proof.
  intros Hf Et Ec Etail Einv ET Eu s Hs. rewrite Eu in Hs.
  destruct (Hf s Hs) as (r & Hr & Hget). exists r. rewrite ET. split; [done|].
  by rewrite (getChunkAtPosition_frame c c').
Qed.

Lemma fresh_mark c chunk r :
  fresh c → 1 ≤ r ≤ total_chunks c → getChunkAtPosition c r = Ret chunk →
  fresh (markChunkAsUsed chunk (set_clipboard chunk c)).
Proof.
  intros Hf Hr Hget s Hs. simpl in Hs.
  apply elem_of_union in Hs as [Hs|Hs].
  - apply elem_of_singleton in Hs as ->. by exists r.
  - destruct (Hf s Hs) as (r' & Hr' & Hget'). by exists r'.
Qed.

Lemma fresh_empty c : used_chunks c = ∅ → fresh c.
Proof. intros Eu s Hs. rewrite Eu in Hs. by apply not_elem_of_empty in Hs. Qed.

Lemma check_bounds_frame c :
  text (check_bounds c) = text c ∧ chunk_size (check_bounds c) = chunk_size c
  ∧ tail_mode (check_bounds c) = tail_mode c
  ∧ inverted (check_bounds c) = inverted c
  ∧ total_chunks (check_bounds c) = total_chunks c
  ∧ used_chunks (check_bounds c) = used_chunks c.
Proof. unfold check_bounds. by repeat case_bool_decide. Qed.

Lemma fresh_check_bounds c : fresh c → fresh (check_bounds c).
Proof.
  intros Hf. destruct (check_bounds_frame c) as (? & ? & ? & ? & ? & ?).
  by apply (fresh_frame c).
Qed.

(** The copy made by [run] consumes the content of a chunk of the present
    chunking. *)
Lemma copyToClipboard_fresh_kept fuel c c' :
  in_range c → total_chunks c < INT_MAX → fresh c →
  copyToClipboard fuel c = Ret c' → fresh c'.
Proof.
  unfold copyToClipboard, getCurrentChunk. intros Hr HT Hf H.
  destruct (getChunkAtPosition c (current_chunk c)) as [chunk|e|] eqn:Hget;
    simpl in H; try done.
  destruct (str_empty chunk); simpl in H; [by injection H as <-|].
  destruct (isChunkUsed c chunk); simpl in H.
  - destruct (findNextUnusedChunk fuel c) as [[r c1]|e|] eqn:Hscan;
      simpl in H; try done.
    pose proof (scan_frame _ _ _ _ _ Hscan) as Hfr.
    apply scan_in_range in Hscan as [Hr1 Hres]; [|done..].
    assert (fresh c1) as Hf1 by (rewrite Hfr; by apply (fresh_frame c)).
    case_bool_decide; [|by injection H as <-].
    destruct Hres as [->| ->]; [done|].
    match type of H with
    | context [getChunkAtPosition ?a ?b] =>
        destruct (getChunkAtPosition a b) as [chunk'|e|] eqn:Hget'
    end; simpl in H; try done.
    injection H as <-.
    apply (fresh_mark _ _ (current_chunk c1)); [|apply Hr1|exact Hget'].
    by apply (fresh_frame c1).
  - injection H as <-. by apply (fresh_mark _ _ (current_chunk c)).
Qed.

(** So does every command except Invert and Append, which change the
    chunking and keep the set. *)
Lemma execCommand_fresh_kept fuel cmd c o c' :
  fresh c → cmd ≠ CmdInvert → cmd ≠ CmdAppend →
  execCommand fuel cmd c = Ret (o, c') → fresh c'.
Proof.
  intros Hf Hinv Happ H. destruct cmd; simpl in H; try done;
    try (injection H as <- <-; try done;
         apply fresh_check_bounds; by apply (fresh_frame c)).
  - destruct (findNextUnusedChunk fuel c) as [[r c1]|e|] eqn:Hscan;
      simpl in H; try done.
    apply scan_frame in Hscan. injection H as <- <-.
    apply fresh_check_bounds. rewrite Hscan.
    case_bool_decide; by apply (fresh_frame c).
  - destruct (getCurrentChunk c) as [chunk|e|]; simpl in H; try done.
    injection H as <- <-. apply fresh_check_bounds.
    destruct (str_empty chunk); by apply (fresh_frame c).
  - case_bool_decide; injection H as <- <-; [|done].
    apply fresh_empty.
    by destruct (check_bounds_frame
                   (recalculateChunks
                      (set_used_chunks ∅ (set_chunk_size new_size c))))
      as (_ & _ & _ & _ & _ & ->).
  - case_bool_decide; injection H as <- <-; [|done].
    apply fresh_check_bounds. by apply (fresh_frame c).
Qed.

(** C9 (amended).  [hasUnusedChunks] is true exactly when the number of
    distinct consumed contents is less than total_chunks.  When every
    consumed content is the content of a chunk of the present chunking and
    two positions hold the same content, [hasUnusedChunks] is true and the
    all-chunks-processed exit of [run] is not taken. *)
Theorem hasUnusedChunks_counts_contents (c : TextChunker) :
  0 ≤ total_chunks c ≤ INT_MAX →
  (hasUnusedChunks c = true
   ↔ Z.of_nat (size (used_chunks c)) < total_chunks c)
  ∧ (fresh c →
     (∃ p q, 1 ≤ p < q ∧ q ≤ total_chunks c
             ∧ getChunkAtPosition c p = getChunkAtPosition c q) →
     hasUnusedChunks c = true
     ∧ isAtFinalChunk c && negb (hasUnusedChunks c) = false).
Proof.
  intros HT.
  assert (hasUnusedChunks c = true
          ↔ Z.of_nat (size (used_chunks c)) < total_chunks c) as Hiff.
  { unfold hasUnusedChunks.
    rewrite to_size_t_id by (unfold SIZE_MAX, INT_MAX in *; lia).
    apply bool_decide_eq_true. }
  split; [done|]. intros Hall (p & q & Hp & Hq & Hdup).
  assert (hasUnusedChunks c = true) as ->.
  { apply Hiff. by apply (duplicate_contents_bound c _ p q). }
  split; [done|]. by rewrite andb_false_r.
Qed.

(** C9, as stated, fails: consumed contents outlive a change of the
    chunking.  With the buffer aaaaaax and chunk size 2, the commands L, I,
    F, L consume x and aa in the forward chunking and a and ax in the
    reverse one.  The reverse chunking has aa at positions 2 and 3, yet four
    contents are consumed out of four chunks: [hasUnusedChunks] is false and
    [run] leaves through the all-chunks-processed exit. *)
Lemma stale_contents_reach_auto_exit :
  ∃ c, session 5 false 2 0 (Some "aaaaaax") ["L"; "I"; "F"; "L"]
       = Some (Ret (AllProcessed, c))
       ∧ total_chunks c = 4
       ∧ getChunkAtPosition c 2 = Ret "aa"
       ∧ getChunkAtPosition c 3 = Ret "aa"
       ∧ used_chunks c = {[ "aa"; "x"; "a"; "ax" ]}
       ∧ hasUnusedChunks c = false.
Proof.
  eexists. split; [by vm_compute|]. by vm_compute.
Qed.

(** C1, as stated, fails: with the 25 letters a .. y, chunk size 10, in
    head mode, the current chunk at position 1 is abcdefghij; Invert moves
    to position 3 of the reverse-anchored chunking, which is pqrstuvwxy. *)
Lemma invert_changes_current_chunk :
  let c := engine false 10 alphabet [] in
  steady c
  ∧ current_chunk c = 1 ∧ total_chunks c = 3
  ∧ getCurrentChunk c = Ret "abcdefghij"
  ∧ ∃ c', execCommand 0 CmdInvert c = Ret (Handled, c')
          ∧ current_chunk c' = 3 ∧ inverted c' = true
          ∧ getCurrentChunk c' = Ret "pqrstuvwxy"
          ∧ getCurrentChunk c' ≠ getCurrentChunk c.
Proof.
  cbv zeta.
  split; [split; [split; [split|..]|split]; by vm_compute|].
  split; [by vm_compute|]. split; [by vm_compute|].
  split; [by vm_compute|].
  eexists. split; [by vm_compute|].
  split; [by vm_compute|]. split; [by vm_compute|].
  split; by vm_compute.
Qed.

(** ** The theorems at concrete engines *)

Lemma engine_alphabet_steady tail : steady (engine tail 10 alphabet []).
Proof.
  destruct tail;
    (split; [split; [split|..]|split]; by vm_compute).
Defined.

Lemma invert_mirrors_chunk_witness :
  steady (engine false 10 alphabet [])
  ∧ ∃ c', execCommand 0 CmdInvert (engine false 10 alphabet [])
          = Ret (Handled, c')
          ∧ getCurrentChunk (engine false 10 alphabet [])
            = Ret (slice alphabet 0 10)
          ∧ getCurrentChunk c' = Ret (slice alphabet (25 - 10) (25 - 0)).
Proof.
  split; [apply engine_alphabet_steady|].
  destruct (invert_mirrors_chunk 0 (engine false 10 alphabet [])
              (engine_alphabet_steady false))
    as (c' & Hexec & _ & _ & Hold & Hnew & _).
  exists c'. split; [exact Hexec|]. split; [exact Hold|exact Hnew].
Defined.

Lemma chunks_partition_buffer_witness :
  loaded (engine true 10 alphabet [])
  ∧ ∃ l, all_chunks (engine true 10 alphabet []) = Ret l
         ∧ length l = 3%nat ∧ total_length l = 25.
Proof.
  split; [apply engine_alphabet_steady|].
  destruct (chunks_partition_buffer (engine true 10 alphabet [])
              (proj1 (engine_alphabet_steady true)))
    as (_ & _ & _ & _ & l & Hl & Hn & Hsum).
  exists l. split; [exact Hl|]. split; [exact Hn|exact Hsum].
Defined.

Lemma forward_chunks_roundtrip_witness :
  loaded (engine false 10 alphabet [])
  ∧ reverse_anchored (engine false 10 alphabet []) = false
  ∧ ∃ l, all_chunks (engine false 10 alphabet []) = Ret l
         ∧ str_concat l = alphabet.
Proof.
  split; [apply engine_alphabet_steady|]. split; [reflexivity|].
  destruct (forward_chunks_roundtrip (engine false 10 alphabet [])
              (proj1 (engine_alphabet_steady false)) eq_refl)
    as (l & Hl & _ & Hcat).
  exists l. split; [exact Hl|exact Hcat].
Defined.

Lemma reverse_chunks_tail_aligned_witness :
  loaded (engine true 10 alphabet [])
  ∧ getChunkAtPosition (engine true 10 alphabet []) 1
    = Ret (slice alphabet (Z.max 0 (25 - (3 - 1) * 10 - 10))
                          (25 - (3 - 1) * 10))
  ∧ ∃ l, all_chunks (engine true 10 alphabet []) = Ret l
         ∧ str_length <$> l = [5; 10; 10].
Proof.
  split; [apply engine_alphabet_steady|].
  destruct (reverse_chunks_tail_aligned (engine true 10 alphabet [])
              (proj1 (engine_alphabet_steady true))) as [Hrev Hex].
  split.
  - apply (Hrev eq_refl 1). vm_compute. split; discriminate.
  - destruct (Hex eq_refl eq_refl) as (_ & l & Hl & Hsizes).
    exists l. split; [exact Hl|exact Hsizes].
Defined.

Lemma reverse_bounds_no_underflow_witness :
  well_typed (engine true 10 alphabet [])
  ∧ (3 - 1) * 10 ≤ 25
  ∧ (chunk_bounds (engine true 10 alphabet []) 1).2 = 25 - (3 - 1) * 10
  ∧ substr alphabet (chunk_bounds (engine true 10 alphabet []) 1).1
      (to_size_t ((chunk_bounds (engine true 10 alphabet []) 1).2
                  - (chunk_bounds (engine true 10 alphabet []) 1).1))
    = Ret (slice alphabet (chunk_bounds (engine true 10 alphabet []) 1).1
                          (chunk_bounds (engine true 10 alphabet []) 1).2).
Proof.
  assert (Hwt : well_typed (engine true 10 alphabet []))
    by apply (engine_alphabet_steady true).
  split; [exact Hwt|].
  assert (Hpos : 1 ≤ 1 ≤ total_chunks (engine true 10 alphabet []))
    by (vm_compute; split; discriminate).
  assert (Hlen : 0 < str_length (text (engine true 10 alphabet [])))
    by reflexivity.
  destruct (reverse_bounds_no_underflow (engine true 10 alphabet []) 1
              Hwt Hlen eq_refl eq_refl Hpos)
    as (Hprod & Hend & _ & _ & _ & Hsub).
  split; [exact Hprod|]. split; [exact Hend|exact Hsub].
Defined.

Lemma invert_involution_witness :
  in_range (engine true 10 alphabet [])
  ∧ total_chunks (engine true 10 alphabet []) ≤ INT_MAX
  ∧ ∃ c1, execCommand 0 CmdInvert (engine true 10 alphabet [])
          = Ret (Handled, c1)
          ∧ execCommand 0 CmdInvert c1
            = Ret (Handled, engine true 10 alphabet []).
Proof.
  assert (Hr : in_range (engine true 10 alphabet []))
    by apply (engine_alphabet_steady true).
  assert (HT : total_chunks (engine true 10 alphabet []) ≤ INT_MAX)
    by (vm_compute; discriminate).
  split; [exact Hr|]. split; [exact HT|].
  destruct (invert_involution 0 (engine true 10 alphabet []) Hr HT)
    as (c1 & H1 & _ & _ & _ & H2).
  exists c1. split; [exact H1|exact H2].
Defined.

Lemma resize_guarded_witness :
  execCommand 0 (CmdResize 26) (engine false 10 alphabet [])
  = Ret (InvalidSize, engine false 10 alphabet [])
  ∧ ∃ c', execCommand 0 (CmdResize 25) (engine false 10 alphabet [])
          = Ret (Handled, c')
          ∧ chunk_size c' = 25 ∧ used_chunks c' = ∅ ∧ total_chunks c' = 1.
Proof.
  split.
  - apply (proj1 (resize_guarded 0 26 (engine false 10 alphabet []))).
    vm_compute. intros [_ H]. by apply H.
  - assert (Hok : 0 < 25 ≤ str_length (text (engine false 10 alphabet [])))
      by (by vm_compute).
    assert (Hfit : ceil_div (str_length (text (engine false 10 alphabet [])))
                            25 ≤ INT_MAX) by (by vm_compute).
    destruct (proj2 (resize_guarded 0 25 (engine false 10 alphabet []))
                Hok (loaded_typed _ (proj1 (engine_alphabet_steady false))) Hfit)
      as (c' & Hexec & Hsize & Hused & Htotal & _).
    exists c'. split; [exact Hexec|]. split; [exact Hsize|].
    split; [exact Hused|exact Htotal].
Defined.

Lemma hasUnusedChunks_counts_contents_witness :
  0 ≤ total_chunks (twice_aa []) ≤ INT_MAX
  ∧ getChunkAtPosition (twice_aa []) 1 = getChunkAtPosition (twice_aa []) 2
  ∧ hasUnusedChunks (twice_aa []) = true
  ∧ isAtFinalChunk (twice_aa []) && negb (hasUnusedChunks (twice_aa []))
    = false.
Proof.
  assert (HT : 0 ≤ total_chunks (twice_aa []) ≤ INT_MAX)
    by (vm_compute; split; discriminate).
  split; [exact HT|]. split; [reflexivity|].
  apply (proj2 (hasUnusedChunks_counts_contents (twice_aa []) HT)).
  - intros s Hs. exists 1. split; [vm_compute; split; discriminate|].
    change (used_chunks (twice_aa [])) with ({[ "aa" ]} : gset string) in Hs.
    apply elem_of_singleton in Hs. rewrite Hs. reflexivity.
  - exists 1, 2. vm_compute. repeat split; discriminate.
Defined.

Lemma position_stays_in_range_witness :
  ∃ c',
    0 < 10 ≤ SIZE_MAX
    ∧ loadText (Some alphabet) (init true 10 0 ["more"; ""])
      = (true, engine true 10 alphabet ["more"; ""])
    ∧ apply_all 9
        [Copy; Command CmdNext; Command (CmdResize 7); Copy;
         Command CmdInvert; Command CmdAppend; Command CmdAdvance; Copy;
         Command CmdLast; Command CmdNext; Command CmdNext]
        (engine true 10 alphabet ["more"; ""])
      = Ret c'
    ∧ str_length (text c') < INT_MAX
    ∧ 1 ≤ current_chunk c' ≤ total_chunks c'
    ∧ total_chunks c'
      = Z.max 1 (ceil_div (str_length (text c')) (chunk_size c')).
Proof.
  assert (Hsize : 0 < 10 ≤ SIZE_MAX) by (by vm_compute).
  assert (Hrun : ∃ c', apply_all 9
            [Copy; Command CmdNext; Command (CmdResize 7); Copy;
             Command CmdInvert; Command CmdAppend; Command CmdAdvance; Copy;
             Command CmdLast; Command CmdNext; Command CmdNext]
            (engine true 10 alphabet ["more"; ""]) = Ret c'
            ∧ str_length (text c') < INT_MAX).
  { eexists. split; [vm_compute; reflexivity|]. by vm_compute. }
  destruct Hrun as (c' & Hrun & Hlen).
  pose proof (position_stays_in_range true 10 0 ["more"; ""] alphabet _ 9 _ c'
                Hsize eq_refl Hrun Hlen) as (Hr & Htot & _).
  exists c'. split; [exact Hsize|]. split; [reflexivity|].
  split; [exact Hrun|]. split; [exact Hlen|]. split; [exact Hr|exact Htot].
Defined.

(** * Further properties of the code *)

(** ** [findNextUnusedChunk] *)

(** Every position in range holds a chunk, consumed or not. *)
Lemma chunk_used_or_unused c p :
  loaded c → 1 ≤ p ≤ total_chunks c →
  ∃ chunk, getChunkAtPosition c p = Ret chunk
           ∧ (isChunkUsed c chunk = true ∨ isChunkUsed c chunk = false).
Proof.
  intros Hc Hp. eexists. split; [by apply getChunkAtPosition_slice|].
  destruct (isChunkUsed c _); auto.
Qed.

Lemma ahead_current c : in_range c → ahead c (current_chunk c).
Proof.
  intros [H1 H2]. unfold ahead. destruct (reverse_anchored c); lia.
Qed.

(** One step of the scan: the positions ahead of the next position are the
    positions ahead of this one, the current position left out unless the
    step was clamped. *)
Lemma ahead_next c p :
  in_range c → total_chunks c < INT_MAX →
  ahead c p →
  p = current_chunk c ∨ ahead (set_current_chunk (next_position c) c) p.
Proof.
  intros Hr HT [Hp Hdir].
  pose proof (next_position_clamped c Hr HT) as Hn.
  destruct Hr as [H1 H2]. unfold ahead.
  change (reverse_anchored (set_current_chunk _ c)) with (reverse_anchored c).
  simpl. rewrite Hn. destruct (reverse_anchored c); lia.
Qed.

Lemma next_ahead c p :
  in_range c → total_chunks c < INT_MAX →
  ahead (set_current_chunk (next_position c) c) p → ahead c p.
Proof.
  intros Hr HT [Hp Hdir].
  pose proof (next_position_clamped c Hr HT) as Hn.
  destruct Hr as [H1 H2]. unfold ahead.
  change (reverse_anchored (set_current_chunk _ c)) with (reverse_anchored c)
    in Hdir.
  simpl in Hdir, Hp. rewrite Hn in Hdir. destruct (reverse_anchored c); lia.
Qed.

(** What a returned position means: it lies ahead, its chunk is not
    consumed, and every chunk ahead that comes before it is consumed. *)
Lemma scan_loop_meaning fuel start c r c' :
  in_range c → total_chunks c < INT_MAX →
  findNextUnusedChunk_loop fuel start c = Ret (r, c') → r ≠ -1 →
  ahead c r
  ∧ c' = set_current_chunk r c
  ∧ (∃ chunk, getChunkAtPosition c r = Ret chunk
              ∧ isChunkUsed c chunk = false)
  ∧ (∀ p, ahead c p →
       (if reverse_anchored c then r < p else p < r) →
       ∃ chunk, getChunkAtPosition c p = Ret chunk
                ∧ isChunkUsed c chunk = true).
Proof.
  revert c. induction fuel as [|fuel IH]; intros c Hr HT H Hne;
    simpl in H; [done|].
  destruct (getChunkAtPosition c (current_chunk c)) as [chunk|e|] eqn:Hget;
    simpl in H; try done.
  destruct (isChunkUsed c chunk) eqn:Hu; simpl in H.
  - case_bool_decide; [by injection H as <- <-|].
    pose proof (next_position_in_range c Hr HT) as Hn.
    apply IH in H as (Ha & Hc' & Hun & Hbefore); try done.
    split; [by apply next_ahead|]. split; [done|]. split; [done|].
    intros p Hp Hlt.
    destruct (ahead_next c p Hr HT Hp) as [->|Hp']; [by exists chunk|].
    by apply Hbefore.
  - injection H as <- <-. split; [by apply ahead_current|].
    split; [by rewrite set_current_chunk_self|]. split; [by exists chunk|].
    intros p [_ Hdir] Hlt. destruct (reverse_anchored c); lia.
Qed.

(** Once the scan has left its starting position it cannot report -1. *)
Lemma scan_loop_past_start fuel start c r c' :
  in_range c → total_chunks c < INT_MAX →
  (if reverse_anchored c
   then current_chunk c < start else start < current_chunk c) →
  findNextUnusedChunk_loop fuel start c = Ret (r, c') → r ≠ -1.
Proof.
  revert c. induction fuel as [|fuel IH]; intros c Hr HT Hpast H;
    simpl in H; [done|].
  destruct (getChunkAtPosition c (current_chunk c)) as [chunk|e|] eqn:Hget;
    simpl in H; try done.
  pose proof (next_position_in_range c Hr HT) as Hn.
  pose proof (next_position_clamped c Hr HT) as Hnext.
  destruct (isChunkUsed c chunk) eqn:Hu; simpl in H.
  - case_bool_decide as Heq.
    + simpl in Heq. destruct Hr. destruct (reverse_anchored c); lia.
    + apply IH in H; try done.
      change (reverse_anchored (set_current_chunk _ c))
        with (reverse_anchored c).
      simpl. destruct Hr. destruct (reverse_anchored c); lia.
  - injection H as <- <-. destruct Hr. lia.
Qed.

(** What [findNextUnusedChunk] returns, when it returns.  Either -1:
    then the position is unchanged, it is the end of the traversal and its
    chunk is consumed.  Or a position: it is the first position from the
    current one onwards, in the direction of traversal, whose chunk is not
    consumed, and it has become the current position. *)
Lemma scan_result (fuel : nat) (c : TextChunker)
    (r : Z) (c' : TextChunker) :
  in_range c → total_chunks c < INT_MAX →
  findNextUnusedChunk fuel c = Ret (r, c') →
  (r = -1 ∧ c' = c ∧ next_position c = current_chunk c
   ∧ ∃ chunk, getChunkAtPosition c (current_chunk c) = Ret chunk
              ∧ isChunkUsed c chunk = true)
  ∨ (ahead c r ∧ c' = set_current_chunk r c
     ∧ (∃ chunk, getChunkAtPosition c r = Ret chunk
                 ∧ isChunkUsed c chunk = false)
     ∧ ∀ p, ahead c p →
         (if reverse_anchored c then r < p else p < r) →
         ∃ chunk, getChunkAtPosition c p = Ret chunk
                  ∧ isChunkUsed c chunk = true).
Proof.
  intros Hr HT H.
  destruct (decide (r = -1)) as [->|Hne];
    [left|right; by eapply scan_loop_meaning].
  unfold findNextUnusedChunk in H. destruct fuel as [|fuel]; [done|].
  simpl in H.
  destruct (getChunkAtPosition c (current_chunk c)) as [chunk|e|] eqn:Hget;
    simpl in H; try done.
  pose proof (next_position_in_range c Hr HT) as Hn.
  pose proof (next_position_clamped c Hr HT) as Hnext.
  destruct (isChunkUsed c chunk) eqn:Hu; simpl in H.
  - case_bool_decide as Heq.
    + injection H as <-. simpl in Heq. rewrite Heq.
      split; [done|]. split; [by rewrite set_current_chunk_self|].
      split; [done|]. by exists chunk.
    + exfalso. apply scan_loop_past_start in H; try done.
      change (reverse_anchored (set_current_chunk _ c))
        with (reverse_anchored c).
      simpl in *. destruct Hr. destruct (reverse_anchored c); lia.
  - injection H as H1 _. destruct Hr. lia.
Qed.

(** X1.  What [findNextUnusedChunk] returns, when it returns.  Either -1:
    then the position is unchanged, it is the end of the traversal and its
    chunk is consumed.  Or a position: it is the first position from the
    current one onwards, in the direction of traversal, whose chunk is not
    consumed, and it has become the current position. *)
Theorem findNextUnusedChunk_result (fuel : nat) (c : TextChunker)
    (r : Z) (c' : TextChunker) :
  in_range c → total_chunks c < INT_MAX →
  findNextUnusedChunk fuel c = Ret (r, c') →
  (r = -1 ∧ c' = c ∧ next_position c = current_chunk c
   ∧ ∃ chunk, getChunkAtPosition c (current_chunk c) = Ret chunk
              ∧ isChunkUsed c chunk = true)
  ∨ (ahead c r ∧ c' = set_current_chunk r c
     ∧ (∃ chunk, getChunkAtPosition c r = Ret chunk
                 ∧ isChunkUsed c chunk = false)
     ∧ ∀ p, ahead c p →
         (if reverse_anchored c then r < p else p < r) →
         ∃ chunk, getChunkAtPosition c p = Ret chunk
                  ∧ isChunkUsed c chunk = true).
Proof. apply scan_result. Qed.

(** The first chunk ahead that is not consumed, [n] steps from the current
    position. *)
Lemma first_unused_ahead n c :
  steady c → total_chunks c < INT_MAX →
  let p := if reverse_anchored c
           then current_chunk c - Z.of_nat n
           else current_chunk c + Z.of_nat n in
  1 ≤ p ≤ total_chunks c →
  (∃ chunk, getChunkAtPosition c p = Ret chunk
            ∧ isChunkUsed c chunk = false) →
  ∃ (m : nat) r,
    (m ≤ n)%nat
    ∧ r = (if reverse_anchored c
           then current_chunk c - Z.of_nat m else current_chunk c + Z.of_nat m)
    ∧ 1 ≤ r ≤ total_chunks c
    ∧ (∃ chunk, getChunkAtPosition c r = Ret chunk
                ∧ isChunkUsed c chunk = false)
    ∧ ∀ q, (if reverse_anchored c
            then r < q ≤ current_chunk c else current_chunk c ≤ q < r) →
        ∃ chunk, getChunkAtPosition c q = Ret chunk
                 ∧ isChunkUsed c chunk = true.
Proof.
  revert c. induction n as [|n IH]; intros c Hst HT p Hp Hun; subst p.
  - exists 0%nat, (current_chunk c). split; [done|].
    split; [destruct (reverse_anchored c); lia|].
    split; [apply Hst|]. split.
    + replace (current_chunk c)
        with (if reverse_anchored c
              then current_chunk c - Z.of_nat 0
              else current_chunk c + Z.of_nat 0)
        by (destruct (reverse_anchored c); lia).
      done.
    + intros q Hq. destruct (reverse_anchored c); lia.
  - pose proof Hst as [Hc Hr].
    destruct (chunk_used_or_unused c (current_chunk c) Hc Hr)
      as (chunk & Hget & [Hu|Hu]).
    + pose proof (next_position_clamped c Hr HT) as Hnext.
      pose proof (next_position_in_range c Hr HT) as Hn.
      assert (next_position c
              = if reverse_anchored c
                then current_chunk c - 1 else current_chunk c + 1) as Hstep.
      { rewrite Hnext. destruct Hr. destruct (reverse_anchored c); lia. }
      destruct (IH (set_current_chunk (next_position c) c))
        as (m & r & Hm & Hr' & Hrng & Hun' & Hbefore).
      * by apply steady_set_current.
      * done.
      * change (reverse_anchored (set_current_chunk _ c))
          with (reverse_anchored c).
        simpl. rewrite Hstep. destruct (reverse_anchored c); lia.
      * change (reverse_anchored (set_current_chunk _ c))
          with (reverse_anchored c).
        simpl. rewrite Hstep.
        destruct Hun as (ch & Hg & Hx). exists ch. split; [|done].
        rewrite (getChunkAtPosition_frame c) by done.
        rewrite <-Hg. f_equal. destruct (reverse_anchored c); lia.
      * change (reverse_anchored (set_current_chunk _ c))
          with (reverse_anchored c) in Hr', Hbefore.
        simpl in Hr', Hbefore, Hrng. rewrite Hstep in Hr', Hbefore.
        exists (S m), r. split; [lia|].
        split; [destruct (reverse_anchored c); lia|]. split; [done|].
        split; [done|]. intros q Hq.
        destruct (decide (q = current_chunk c)) as [->|Hne];
          [by exists chunk|].
        apply Hbefore. destruct (reverse_anchored c); lia.
    + exists 0%nat, (current_chunk c). split; [lia|].
      split; [destruct (reverse_anchored c); lia|].
      split; [apply Hr|]. split; [by exists chunk|].
      intros q Hq. destruct (reverse_anchored c); lia.
Qed.

(** X2.  When [findNextUnusedChunk] returns.  In a running session: if the
    position is the end of the traversal, or some chunk from the current
    position onwards is not consumed, the scan returns within total_chunks
    turns of its loop; otherwise it returns for no number of turns. *)
Theorem findNextUnusedChunk_returns_or_never (c : TextChunker) :
  steady c → total_chunks c < INT_MAX →
  let can_finish :=
    next_position c = current_chunk c
    ∨ ∃ p chunk, ahead c p ∧ getChunkAtPosition c p = Ret chunk
                 ∧ isChunkUsed c chunk = false in
  (can_finish →
   ∃ fuel r c', Z.of_nat fuel ≤ total_chunks c
                ∧ findNextUnusedChunk fuel c = Ret (r, c'))
  ∧ (¬ can_finish → ∀ fuel, findNextUnusedChunk fuel c = OutOfFuel).
Proof.
  intros Hst HT can_finish. pose proof Hst as [Hc Hr]. split.
  - assert (∀ p chunk, ahead c p → getChunkAtPosition c p = Ret chunk →
              isChunkUsed c chunk = false →
              ∃ fuel r c', Z.of_nat fuel ≤ total_chunks c
                           ∧ findNextUnusedChunk fuel c = Ret (r, c'))
      as Hfound.
    { intros p chunk [Hp Hdir] Hget Hu.
      set (n := Z.to_nat (if reverse_anchored c
                          then current_chunk c - p else p - current_chunk c)).
      destruct (first_unused_ahead n c Hst HT)
        as (m & r & Hm & Hdist & Hrng & Hun & Hbefore).
      - unfold n. destruct Hr. destruct (reverse_anchored c); lia.
      - exists chunk. split; [|done]. rewrite <-Hget. f_equal.
        unfold n. destruct (reverse_anchored c); lia.
      - exists (S m), r, (set_current_chunk r c). split.
        + unfold n in Hm. destruct Hr. destruct (reverse_anchored c); lia.
        + apply (scan_loop_finds m); try done; [lia|].
          destruct (reverse_anchored c); lia. }
    intros [Hend|(p & chunk & Hp & Hget & Hu)]; [|by eapply Hfound].
    destruct (chunk_used_or_unused c (current_chunk c) Hc Hr)
      as (chunk & Hget & [Hu|Hu]).
    + exists 1%nat, (-1), c. split; [destruct Hr; lia|].
      by eapply findNextUnusedChunk_at_end.
    + eapply Hfound; [by apply ahead_current|done..].
  - intros Hno fuel.
    destruct (findNextUnusedChunk fuel c) as [[r c']|e|] eqn:Hscan; [| |done].
    + exfalso. apply Hno.
      destruct (scan_result fuel c r c' Hr HT Hscan)
        as [(_ & _ & Hend & _)|(Ha & _ & (chunk & Hget & Hu) & _)].
      * by left.
      * right. by exists r, chunk.
    + exfalso. by eapply scan_never_throws.
Qed.

(** ** [copyToClipboard] *)

(** X3.  [copyToClipboard] never hands out a content twice.  When it
    returns, either it has copied nothing (clipboard and consumed set are
    as before), or the content it handed to the clipboard was not consumed
    before, is consumed now, and is the chunk at the position it left the
    engine on. *)
Theorem copyToClipboard_never_repeats (fuel : nat) (c c' : TextChunker) :
  copyToClipboard fuel c = Ret c' →
  (clipboard c' = clipboard c ∧ used_chunks c' = used_chunks c)
  ∨ ((clipboard c' ∉ used_chunks c)
     ∧ used_chunks c' = {[ clipboard c' ]} ∪ used_chunks c
     ∧ getCurrentChunk c' = Ret (clipboard c')).
Proof.
  unfold copyToClipboard. intros H.
  destruct (getCurrentChunk c) as [chunk|e|] eqn:Hget; simpl in H; try done.
  destruct (str_empty chunk); simpl in H; [injection H as <-; by left|].
  destruct (isChunkUsed c chunk) eqn:Hu; simpl in H.
  - destruct (findNextUnusedChunk fuel c) as [[r c1]|e|] eqn:Hscan;
      simpl in H; try done.
    pose proof (scan_frame _ _ _ _ _ Hscan) as Hfr.
    case_bool_decide as Hr; [|injection H as <-; left; by rewrite Hfr].
    destruct (scan_result_unused _ _ _ _ _ Hscan Hr) as (found & Hf & Hfu).
    assert (getCurrentChunk (set_current_chunk r c1) = Ret found) as Hcur.
    { unfold getCurrentChunk. simpl. by rewrite (getChunkAtPosition_frame c1). }
    rewrite Hcur in H. simpl in H. injection H as <-. right. simpl.
    assert (used_chunks c1 = used_chunks c) as Eu by (by rewrite Hfr).
    split; [|split].
    + unfold isChunkUsed in Hfu. apply bool_decide_eq_false_1 in Hfu.
      by rewrite <-Eu.
    + by rewrite Eu.
    + unfold getCurrentChunk in *. simpl in *.
      by rewrite (getChunkAtPosition_frame (set_current_chunk r c1)).
  - injection H as <-. right. simpl. split; [|split].
    + unfold isChunkUsed in Hu. by apply bool_decide_eq_false_1 in Hu.
    + done.
    + unfold getCurrentChunk in *. simpl.
      by rewrite (getChunkAtPosition_frame c).
Qed.

(** ** [loadText] *)

Lemma slice_empty_iff s a b :
  0 ≤ a ≤ b → b ≤ str_length s → (str_empty (slice s a b) = true ↔ a = b).
Proof.
  intros Hab Hb. rewrite str_empty_length, bool_decide_eq_true.
  rewrite str_length_slice by done. lia.
Qed.

(** X4.  [loadText] refuses a file that cannot be opened and an empty
    text.  A text that is not empty is accepted, and the engine then stands
    on the first chunk of the traversal with nothing consumed: in head mode
    the first chunk_size characters of the text, in tail mode its last
    chunk_size characters (the whole text when it is shorter); this is also
    the final chunk exactly when the text is no longer than chunk_size. *)
Theorem loadText_shows_first_chunk
    (tail : bool) (size total0 : Z) (input : list string) :
  (loadText None (init tail size total0 input)).1 = false
  ∧ (loadText (Some "") (init tail size total0 input)).1 = false
  ∧ ∀ t, t ≠ "" →
      0 < size ≤ SIZE_MAX → str_length t ≤ PTRDIFF_MAX →
      ceil_div (str_length t) size ≤ INT_MAX →
      ∃ c, loadText (Some t) (init tail size total0 input) = (true, c)
           ∧ text c = t ∧ used_chunks c = ∅ ∧ inverted c = false
           ∧ traversal_rank c = 1
           ∧ getCurrentChunk c
             = Ret (if tail
                    then slice t (Z.max 0 (str_length t - size)) (str_length t)
                    else slice t 0 (Z.min size (str_length t)))
           ∧ (isAtFinalChunk c = true ↔ str_length t ≤ size).
Proof.
  split; [done|]. split; [done|]. intros t Ht Hsize Hlen Hfit.
  destruct (loadText (Some t) (init tail size total0 input)) as [ok c] eqn:Hl.
  assert (ok = true) as ->.
  { unfold loadText in Hl. destruct (str_empty t) eqn:He.
    - unfold str_empty in He. by apply bool_decide_eq_true_1 in He.
    - by injection Hl as <- _. }
  destruct (loadText_steady _ _ _ _ _ _ Hsize Hl Hlen Hfit)
    as ([Hc Hr] & Et & Ecs & Etail & Einv & Ecur).
  destruct (loaded_facts c Hc) as (Hcs & Hl' & HT & HT1).
  assert (used_chunks c = ∅) as Eu.
  { unfold loadText in Hl. destruct (str_empty t); [done|].
    simpl in Hl. destruct tail; by injection Hl as <-. }
  assert (reverse_anchored c = tail) as Erev.
  { unfold reverse_anchored. rewrite Etail, Einv. by destruct tail. }
  rewrite Et, Ecs in *.
  exists c. split; [done|]. split; [done|]. split; [done|]. split; [done|].
  split; [|split].
  - unfold traversal_rank. rewrite Erev, Ecur. destruct tail; lia.
  - unfold getCurrentChunk. rewrite getChunkAtPosition_slice by done.
    unfold boundary. rewrite Erev, Ecur, Et, Ecs.
    destruct tail; do 2 f_equal; nia.
  - unfold isAtFinalChunk. rewrite Erev, Ecur.
    destruct tail; rewrite bool_decide_eq_true; nia.
Qed.

(** ** [appendText] *)

Lemma ceil_div_mono a a' b : 0 < b → a ≤ a' → ceil_div a b ≤ ceil_div a' b.
Proof. intros Hb Ha. unfold ceil_div. apply Z.div_le_mono; lia. Qed.

Lemma slice_app_l s t a b :
  0 ≤ a ≤ b → b ≤ str_length s → slice (s +:+ t) a b = slice s a b.
Proof.
  intros Hab Hb. unfold slice. apply list_ascii_inj.
  rewrite !substring_list, app_list.
  unfold str_length in Hb. rewrite <-length_list_ascii in Hb.
  rewrite drop_app_le by lia. rewrite take_app_le; [done|].
  rewrite length_drop. lia.
Qed.

Lemma read_additional_terminated ls rest :
  Forall (λ line, line ≠ "") ls →
  read_additional (ls ++ "" :: rest) = (join_lines ls, rest).
Proof.
  induction 1 as [|line ls Hline _ IH]; simpl; [done|].
  unfold str_empty. rewrite bool_decide_eq_false_2 by done. by rewrite IH.
Qed.

Lemma read_additional_all ls :
  Forall (λ line, line ≠ "") ls → read_additional ls = (join_lines ls, []).
Proof.
  induction 1 as [|line ls Hline _ IH]; simpl; [done|].
  unfold str_empty. rewrite bool_decide_eq_false_2 by done. by rewrite IH.
Qed.

Lemma str_empty_true s : str_empty s = true → s = "".
Proof. unfold str_empty. apply bool_decide_eq_true_1. Qed.

(** X5.  What [appendText] reads and adds: the lines up to the first empty
    line, each followed by a newline, are added to the end of the buffer in
    the order read; the empty line is consumed and the lines after it stay
    in the input.  Without an empty line the whole input is taken.  With no
    line before the empty one nothing but the input changes. *)
Theorem appendText_adds_lines (c : TextChunker) (ls rest : list string) :
  Forall (λ line, line ≠ "") ls →
  cin c = ls ++ "" :: rest ∨ (cin c = ls ∧ rest = []) →
  text (appendText c) = text c +:+ join_lines ls
  ∧ cin (appendText c) = rest
  ∧ (ls = [] → appendText c = set_cin rest c).
Proof.
  intros Hls Hcin.
  assert (read_additional (cin c) = (join_lines ls, rest)) as Hread.
  { destruct Hcin as [->|[-> ->]];
      [by apply read_additional_terminated|by apply read_additional_all]. }
  unfold appendText. rewrite Hread.
  destruct (str_empty (join_lines ls)) eqn:He; simpl.
  - apply str_empty_true in He. rewrite He, str_app_empty_r. done.
  - split; [done|]. split; [done|]. intros ->. done.
Qed.

Lemma appendText_cases c :
  ∃ more rest,
    (str_empty more = true ∧ appendText c = set_cin rest c)
    ∨ (str_empty more = false
       ∧ appendText c
         = recalculateChunks (set_text (text c +:+ more) (set_cin rest c))).
Proof.
  unfold appendText. destruct (read_additional (cin c)) as [more rest].
  exists more, rest. destruct (str_empty more); [by left|by right].
Qed.

(** X6.  [appendText] in a running session keeps the position and the
    consumed set, and never lowers total_chunks.  In the forward-anchored
    direction every chunk before the last one reads as before; only the
    last chunk, and the chunks after it, are new. *)
Theorem appendText_keeps_shown_chunks (c : TextChunker) :
  steady c → str_length (text (appendText c)) < INT_MAX →
  steady (appendText c)
  ∧ current_chunk (appendText c) = current_chunk c
  ∧ used_chunks (appendText c) = used_chunks c
  ∧ total_chunks c ≤ total_chunks (appendText c)
  ∧ (reverse_anchored c = false →
     ∀ p, 1 ≤ p < total_chunks c →
       getChunkAtPosition (appendText c) p = getChunkAtPosition c p).
Proof.
  intros Hst Hlen. pose proof (appendText_steady c Hst Hlen) as Hst'.
  split; [done|].
  destruct (appendText_cases c) as (more & rest & [[_ Heq]|[_ Heq]]);
    rewrite Heq in *; clear Heq.
  { split; [done|]. split; [done|]. split; [done|]. intros _ p _.
    by apply getChunkAtPosition_frame. }
  pose proof Hst as [Hc Hr]. pose proof Hst' as [Hc' Hr'].
  destruct (loaded_facts c Hc) as (Hcs & Hl & HT & HT1).
  set (c2 := set_text (text c +:+ more) (set_cin rest c)) in *.
  pose proof (str_length_nonneg more) as Hmore.
  assert (Hlen2 : str_length (text c2)
                  = str_length (text c) + str_length more)
    by apply str_length_app.
  change (text (recalculateChunks c2)) with (text c2) in Hlen.
  assert (Hceil : ceil_div (str_length (text c2)) (chunk_size c)
                  ≤ str_length (text c2)) by (apply ceil_div_le; lia).
  assert (Hmono : ceil_div (str_length (text c)) (chunk_size c)
                  ≤ ceil_div (str_length (text c2)) (chunk_size c))
    by (apply ceil_div_mono; lia).
  destruct (recalculateChunks_steady c2) as [_ Hcur].
  { done. }
  { unfold INT_MAX, PTRDIFF_MAX in *. lia. }
  { change (chunk_size c2) with (chunk_size c). lia. }
  { apply (wt_current c (loaded_typed c Hc)). }
  pose proof (loaded_total _ Hc') as Htot.
  change (text (recalculateChunks c2)) with (text c2) in Htot.
  change (chunk_size (recalculateChunks c2)) with (chunk_size c) in Htot.
  change (chunk_size c2) with (chunk_size c) in Hcur.
  change (current_chunk c2) with (current_chunk c) in Hcur.
  pose proof (loaded_total c Hc) as Htot0.
  destruct Hr as [Hr1 Hr2].
  split; [rewrite Hcur; lia|]. split; [done|]. split; [lia|].
  intros Hfwd p Hp.
  rewrite (getChunkAtPosition_slice _ Hc') by lia.
  rewrite (getChunkAtPosition_slice _ Hc) by lia.
  unfold boundary.
  change (reverse_anchored (recalculateChunks c2)) with (reverse_anchored c).
  rewrite Hfwd.
  change (text (recalculateChunks c2)) with (text c2).
  change (chunk_size (recalculateChunks c2)) with (chunk_size c).
  rewrite Hlen2. rewrite !Z.min_l by nia.
  f_equal. apply slice_app_l; nia.
Qed.

(** ** Numbers on the command line *)

Lemma all_digits_first a s :
  all_digits (String a s) = true → isdigit a = true ∧ all_digits s = true.
Proof. unfold all_digits. simpl. by intros [? ?]%andb_prop. Qed.

Lemma parseCommand_digits cmd :
  cmd ≠ "" → all_digits cmd = true →
  parseCommand cmd = (target ← stoi cmd; Ret (CmdGoto target)).
Proof.
  intros Hne Hdigits. destruct cmd as [|a s]; [done|].
  destruct (all_digits_first a s Hdigits) as [Ha _].
  unfold parseCommand, str_empty.
  rewrite (bool_decide_eq_false_2 (String a s = "")) by done.
  destruct a as [[] [] [] [] [] [] [] []]; try discriminate Ha;
    repeat (rewrite bool_decide_eq_false_2
              by (intros Heq;
                  repeat match goal with
                         | Hor : _ ∨ _ |- _ => destruct Hor
                         end; discriminate));
    by rewrite Hdigits.
Qed.

(** X7.  A line of digits is a request for a chunk number, a [$] followed
    by digits a request for a chunk size.  A number that does not fit the
    type it is read into ([int], [size_t]) makes [std::stoi] / [std::stoul]
    throw [std::out_of_range], which nothing catches.  Otherwise a chunk
    number in 1 .. total_chunks becomes the position and any other is
    refused with [OutOfRange]; a chunk size outside 1 .. length of the
    buffer is refused with [InvalidSize]; a refused request changes
    nothing. *)
Theorem numeric_lines (fuel : nat) (number : string) (c : TextChunker) :
  number ≠ "" → all_digits number = true →
  processCommand fuel number c
  = (if bool_decide (digits_value number ≤ INT_MAX)
     then if bool_decide (1 ≤ digits_value number ≤ total_chunks c)
          then Ret (Handled, set_current_chunk (digits_value number) c)
          else Ret (OutOfRange, c)
     else Throw out_of_range)
  ∧ processCommand fuel (String "$" number) c
    = (if bool_decide (digits_value number ≤ SIZE_MAX)
       then if bool_decide (0 < digits_value number ≤ str_length (text c))
            then execCommand fuel (CmdResize (digits_value number)) c
            else Ret (InvalidSize, c)
       else Throw out_of_range).
Proof.
  intros Hne Hdigits. split.
  - unfold processCommand. rewrite parseCommand_digits by done.
    unfold stoi. case_bool_decide; [|done]. simpl.
    case_bool_decide as Hin.
    + rewrite bool_decide_eq_true_2 by lia.
      rewrite check_bounds_in_range; [done|]. unfold in_range. simpl. lia.
    + by rewrite bool_decide_eq_false_2 by lia.
  - rewrite processCommand_resize by done.
    case_bool_decide; [|done]. case_bool_decide as Hin; [done|].
    simpl. by rewrite bool_decide_eq_false_2 by lia.
Qed.

(** ** Navigation in the order of traversal *)

(** X8.  Read by the place in the order of traversal, the navigation
    commands do the same in both directions: [N] moves one place on and
    stops at the last place, [P] moves one place back and stops at the
    first, [F] goes to the first place, [L] to the last, and
    [isAtFinalChunk] holds exactly at the last place. *)
Theorem navigation_by_rank (fuel : nat) (c : TextChunker) :
  in_range c → total_chunks c < INT_MAX →
  1 ≤ traversal_rank c ≤ total_chunks c
  ∧ current_chunk c = position_of_rank c (traversal_rank c)
  ∧ (isAtFinalChunk c = true ↔ traversal_rank c = total_chunks c)
  ∧ (∃ c', execCommand fuel CmdNext c = Ret (Handled, c')
           ∧ traversal_rank c'
             = Z.min (total_chunks c) (traversal_rank c + 1))
  ∧ (∃ c', execCommand fuel CmdPrev c = Ret (Handled, c')
           ∧ traversal_rank c' = Z.max 1 (traversal_rank c - 1))
  ∧ (∃ c', execCommand fuel CmdFirst c = Ret (Handled, c')
           ∧ traversal_rank c' = 1)
  ∧ (∃ c', execCommand fuel CmdLast c = Ret (Handled, c')
           ∧ traversal_rank c' = total_chunks c).
Proof.
  intros Hr HT. pose proof Hr as [H1 H2].
  pose proof (next_position_clamped c Hr HT) as Hn.
  pose proof (prev_position_clamped c Hr HT) as Hp.
  unfold traversal_rank, position_of_rank, isAtFinalChunk.
  split; [destruct (reverse_anchored c); lia|].
  split; [destruct (reverse_anchored c); lia|].
  split; [destruct (reverse_anchored c); rewrite bool_decide_eq_true; lia|].
  repeat split; eexists; (split; [simpl; rewrite check_bounds_in_range; [done|]|]);
    unfold in_range, reverse_anchored in *; simpl;
    rewrite ?Hn, ?Hp; destruct (xorb _ _); lia.
Qed.

(** X9.  [P] undoes [N] and [N] undoes [P], except at the ends: away from
    the final chunk, [N] followed by [P] gives back the state; away from
    the first chunk of the traversal, so does [P] followed by [N].  At the
    final chunk [N] changes nothing. *)
Theorem next_and_prev_cancel (fuel : nat) (c : TextChunker) :
  in_range c → total_chunks c < INT_MAX →
  (isAtFinalChunk c = false →
   ∃ c1, execCommand fuel CmdNext c = Ret (Handled, c1)
         ∧ execCommand fuel CmdPrev c1 = Ret (Handled, c))
  ∧ (traversal_rank c ≠ 1 →
     ∃ c1, execCommand fuel CmdPrev c = Ret (Handled, c1)
           ∧ execCommand fuel CmdNext c1 = Ret (Handled, c))
  ∧ (isAtFinalChunk c = true →
     execCommand fuel CmdNext c = Ret (Handled, c)).
Proof.
  intros Hr HT. pose proof Hr as [H1 H2].
  pose proof (next_position_clamped c Hr HT) as Hn.
  pose proof (prev_position_clamped c Hr HT) as Hp.
  assert (∀ v, 1 ≤ v ≤ total_chunks c →
            in_range (set_current_chunk v c)) as Hin by done.
  assert (∀ v, v = current_chunk c → set_current_chunk v c = c) as Hself.
  { intros v ->. apply set_current_chunk_self. }
  unfold isAtFinalChunk, traversal_rank. split; [|split].
  - intros Hnf. eexists. split.
    + simpl. rewrite check_bounds_in_range; [done|].
      apply Hin. rewrite Hn. destruct (reverse_anchored c); lia.
    + simpl.
      assert (in_range (set_current_chunk (next_position c) c)) as Hr'.
      { apply Hin. rewrite Hn. destruct (reverse_anchored c); lia. }
      rewrite (prev_position_clamped _ Hr' HT).
      change (reverse_anchored (set_current_chunk _ c))
        with (reverse_anchored c).
      simpl. rewrite Hn.
      rewrite check_bounds_in_range.
      * do 2 f_equal. apply Hself.
        destruct (reverse_anchored c);
          apply bool_decide_eq_false_1 in Hnf; lia.
      * apply Hin.
        destruct (reverse_anchored c);
          apply bool_decide_eq_false_1 in Hnf; lia.
  - intros Hnf. eexists. split.
    + simpl. rewrite check_bounds_in_range; [done|].
      apply Hin. rewrite Hp. destruct (reverse_anchored c); lia.
    + simpl.
      assert (in_range (set_current_chunk (prev_position c) c)) as Hr'.
      { apply Hin. rewrite Hp. destruct (reverse_anchored c); lia. }
      rewrite (next_position_clamped _ Hr' HT).
      change (reverse_anchored (set_current_chunk _ c))
        with (reverse_anchored c).
      simpl. rewrite Hp.
      rewrite check_bounds_in_range.
      * do 2 f_equal. apply Hself. destruct (reverse_anchored c); lia.
      * apply Hin. destruct (reverse_anchored c); lia.
  - intros Hf. simpl. rewrite Hn.
    rewrite check_bounds_in_range.
    + do 2 f_equal. apply Hself.
      destruct (reverse_anchored c);
        apply bool_decide_eq_true_1 in Hf; lia.
    + apply Hin. destruct (reverse_anchored c); lia.
Qed.

(** ** A session on chunks that are all different *)

Lemma same_chunking_refl c : same_chunking c c.
Proof. by repeat split. Qed.

Lemma same_chunking_trans c1 c2 c3 :
  same_chunking c1 c2 → same_chunking c2 c3 → same_chunking c1 c3.
Proof.
  intros (? & ? & ? & ? & ?) (? & ? & ? & ? & ?).
  repeat split; congruence.
Qed.

Lemma chunk_of_rank_frame c c' k :
  same_chunking c c' → chunk_of_rank c' k = chunk_of_rank c k.
Proof.
  intros (Et & Ec & Etail & Einv & ET).
  unfold chunk_of_rank, position_of_rank, reverse_anchored.
  rewrite Etail, Einv, ET. by apply getChunkAtPosition_frame.
Qed.

Lemma chunk_of_rank_current c :
  chunk_of_rank c (traversal_rank c) = getCurrentChunk c.
Proof.
  unfold chunk_of_rank, position_of_rank, traversal_rank, getCurrentChunk.
  destruct (reverse_anchored c); f_equal; lia.
Qed.

Lemma chunk_of_rank_inj c j k :
  distinct_chunks c → 1 ≤ j ≤ total_chunks c → 1 ≤ k ≤ total_chunks c →
  chunk_of_rank c j = chunk_of_rank c k → j = k.
Proof.
  intros Hd Hj Hk Heq. unfold chunk_of_rank, position_of_rank in Heq.
  destruct (reverse_anchored c); apply Hd in Heq; lia.
Qed.

Lemma distinct_chunks_frame c c' :
  same_chunking c c' → distinct_chunks c → distinct_chunks c'.
Proof.
  intros Hsame Hd p q Hp Hq Heq.
  destruct Hsame as (Et & Ec & Etail & Einv & ET). rewrite ET in Hp, Hq.
  rewrite !(getChunkAtPosition_frame c c') in Heq by done. by apply Hd.
Qed.

Lemma consumed_before_frame c c' r :
  same_chunking c c' → used_chunks c' = used_chunks c →
  consumed_before c r → consumed_before c' r.
Proof.
  intros Hsame Eu Hinv s. rewrite Eu, (Hinv s).
  split; intros (k & Hk & Hck); exists k; split; try done.
  - by rewrite (chunk_of_rank_frame c).
  - by rewrite <-(chunk_of_rank_frame c c').
Qed.

Lemma traversal_rank_range c :
  in_range c → 1 ≤ traversal_rank c ≤ total_chunks c.
Proof.
  intros [H1 H2]. unfold traversal_rank. destruct (reverse_anchored c); lia.
Qed.

Lemma isAtFinalChunk_rank c :
  isAtFinalChunk c = bool_decide (traversal_rank c = total_chunks c).
Proof.
  unfold isAtFinalChunk, traversal_rank.
  destruct (reverse_anchored c); apply bool_decide_ext; lia.
Qed.

(** The copy that opens a turn of [run], when the chunks before the
    current one are the consumed ones. *)
Lemma walk_copy fuel c :
  steady c → distinct_chunks c →
  consumed_before c (traversal_rank c) →
  Z.of_nat (size (used_chunks c)) = traversal_rank c - 1 →
  ∃ chunk,
    getCurrentChunk c = Ret chunk ∧ str_empty chunk = false
    ∧ copyToClipboard fuel c
      = Ret (markChunkAsUsed chunk (set_clipboard chunk c))
    ∧ consumed_before (markChunkAsUsed chunk (set_clipboard chunk c))
        (traversal_rank c + 1)
    ∧ Z.of_nat (size (used_chunks
                        (markChunkAsUsed chunk (set_clipboard chunk c))))
      = traversal_rank c.
Proof.
  intros [Hc Hr] Hd Hinv Hsize.
  pose proof (traversal_rank_range c Hr) as Hrank.
  destruct (chunk_used_or_unused c (current_chunk c) Hc Hr)
    as (chunk & Hget & _).
  assert (str_empty chunk = false) as Hne
    by (by apply (chunk_nonempty c Hc (current_chunk c))).
  assert (chunk ∉ used_chunks c) as Hnew.
  { intros Hin. apply Hinv in Hin as (k & Hk & Hck).
    assert (k = traversal_rank c); [|lia].
    apply (chunk_of_rank_inj c); [done|lia|done|].
    by rewrite chunk_of_rank_current, Hck. }
  assert (same_chunking c (markChunkAsUsed chunk (set_clipboard chunk c)))
    as Hsame by (by repeat split).
  exists chunk. split; [done|]. split; [done|]. split.
  { apply copyToClipboard_fresh; [done..|]. by apply bool_decide_eq_false_2. }
  split.
  - intros s. simpl. rewrite elem_of_union, elem_of_singleton, (Hinv s).
    split.
    + intros [->|(k & Hk & Hck)].
      * exists (traversal_rank c). split; [lia|].
        rewrite (chunk_of_rank_frame c) by done.
        by rewrite chunk_of_rank_current.
      * exists k. split; [lia|]. by rewrite (chunk_of_rank_frame c).
    + intros (k & Hk & Hck). rewrite (chunk_of_rank_frame c) in Hck by done.
      destruct (decide (k = traversal_rank c)) as [->|].
      * left. rewrite chunk_of_rank_current in Hck.
        unfold getCurrentChunk in Hck. rewrite Hget in Hck. by injection Hck.
      * right. exists k. split; [lia|done].
  - simpl. rewrite size_union by (by apply disjoint_singleton_l).
    rewrite size_singleton. lia.
Qed.

(** The empty line, after that copy and away from the final chunk: the
    next chunk is not consumed, so the scan stops there. *)
Lemma walk_advance fuel c :
  steady c → total_chunks c < INT_MAX → distinct_chunks c →
  consumed_before c (traversal_rank c + 1) →
  traversal_rank c < total_chunks c → (2 ≤ fuel)%nat →
  execCommand fuel CmdAdvance c
  = Ret (Handled, set_current_chunk (next_position c) c)
  ∧ traversal_rank (set_current_chunk (next_position c) c)
    = traversal_rank c + 1
  ∧ 1 ≤ next_position c ≤ total_chunks c.
Proof.
  intros [Hc Hr] HT Hd Hinv Hlt Hfuel.
  pose proof (next_position_clamped c Hr HT) as Hn.
  pose proof (traversal_rank_range c Hr) as Hrank.
  pose proof Hr as [H1 H2].
  assert (1 ≤ next_position c ≤ total_chunks c
          ∧ traversal_rank (set_current_chunk (next_position c) c)
            = traversal_rank c + 1
          ∧ next_position c = position_of_rank c (traversal_rank c + 1)
          ∧ next_position c
            = (if reverse_anchored c
               then current_chunk c - Z.of_nat 1
               else current_chunk c + Z.of_nat 1))
    as (Hnr & Hrk & Hpos & Hstep).
  { unfold traversal_rank, position_of_rank in *.
    change (reverse_anchored (set_current_chunk _ c))
      with (reverse_anchored c).
    simpl. rewrite Hn. destruct (reverse_anchored c); lia. }
  split; [|done].
  assert (findNextUnusedChunk fuel c
          = Ret (next_position c, set_current_chunk (next_position c) c))
    as Hscan.
  { unfold findNextUnusedChunk.
    apply (scan_loop_finds 1); try done.
    - destruct (reverse_anchored c); lia.
    - intros p Hp. assert (p = current_chunk c) as ->.
      { rewrite Hstep in Hp. destruct (reverse_anchored c); lia. }
      destruct (chunk_used_or_unused c (current_chunk c) Hc Hr)
        as (chunk & Hget & _).
      exists chunk. split; [done|]. apply bool_decide_eq_true_2.
      apply Hinv. exists (traversal_rank c). split; [lia|].
      by rewrite chunk_of_rank_current.
    - destruct (chunk_used_or_unused c (next_position c) Hc Hnr)
        as (chunk & Hget & _).
      exists chunk. split; [done|]. apply bool_decide_eq_false_2.
      intros Hin. apply Hinv in Hin as (k & Hk & Hck).
      assert (k = traversal_rank c + 1); [|lia].
      apply (chunk_of_rank_inj c); [done|lia|lia|].
      rewrite Hck. unfold chunk_of_rank. by rewrite <-Hpos. }
  simpl. rewrite Hscan. simpl.
  rewrite bool_decide_eq_true_2 by lia.
  by rewrite check_bounds_in_range.
Qed.

(** What [getline] leaves: the first line in [input], the others in the
    stream; at the end of the stream nothing changes. *)
Lemma getline_state input c :
  (getline input c).2 = set_cin (tail (cin c)) c
  ∧ (getline input c).1
    = match cin c with [] => input | line :: _ => line end.
Proof.
  unfold getline. destruct c as [? ? ? ? ? ? ? ? lines]. simpl.
  by destruct lines.
Qed.

(** The copy that opens a turn of the loop, in a walking session. *)
Lemma walk_copied fuel c :
  walking c →
  ∃ chunk,
    getCurrentChunk c = Ret chunk
    ∧ copyToClipboard fuel c
      = Ret (markChunkAsUsed chunk (set_clipboard chunk c))
    ∧ steady (markChunkAsUsed chunk (set_clipboard chunk c))
    ∧ consumed_before (markChunkAsUsed chunk (set_clipboard chunk c))
        (traversal_rank c + 1)
    ∧ Z.of_nat (size (used_chunks
                        (markChunkAsUsed chunk (set_clipboard chunk c))))
      = traversal_rank c
    ∧ isAtFinalChunk (markChunkAsUsed chunk (set_clipboard chunk c))
      && negb (hasUnusedChunks (markChunkAsUsed chunk (set_clipboard chunk c)))
      = bool_decide (traversal_rank c = total_chunks c).
Proof.
  intros (Hs & HT & Hd & Hinv & Hsize).
  destruct (walk_copy fuel c Hs Hd Hinv Hsize)
    as (chunk & Hget & Hne & Hcopy & Hinv1 & Hsize1).
  pose proof Hs as [Hc Hr].
  pose proof (traversal_rank_range c Hr) as Hrank.
  destruct (loaded_facts c Hc) as (_ & _ & _ & HT1).
  exists chunk. split; [done|]. split; [done|].
  split; [by apply (steady_same_position c)|]. split; [done|].
  split; [done|].
  rewrite isAtFinalChunk_rank. unfold hasUnusedChunks.
  rewrite Hsize1.
  change (traversal_rank (markChunkAsUsed chunk (set_clipboard chunk c)))
    with (traversal_rank c).
  change (total_chunks (markChunkAsUsed chunk (set_clipboard chunk c)))
    with (total_chunks c).
  rewrite to_size_t_id by (unfold SIZE_MAX, INT_MAX in *; lia).
  repeat case_bool_decide; simpl; try done; lia.
Qed.

(** A turn at the final chunk: the copy, then the automatic exit. *)
Lemma walk_final fuel input c :
  walking c → traversal_rank c = total_chunks c →
  ∃ c', run_loop (S fuel) input c = Ret (AllProcessed, c')
        ∧ same_chunking c c' ∧ cin c' = cin c
        ∧ traversal_rank c' = traversal_rank c
        ∧ getCurrentChunk c' = Ret (clipboard c')
        ∧ consumed_before c' (traversal_rank c' + 1).
Proof.
  intros Hw Hfin.
  destruct (walk_copied (S fuel) c Hw)
    as (chunk & Hget & Hcopy & Hs1 & Hinv1 & Hsize1 & Hexit).
  exists (markChunkAsUsed chunk (set_clipboard chunk c)).
  split.
  { rewrite run_unfold, Hcopy.
    change (Ret ?x ≫= ?k) with (k x). cbv beta.
    by rewrite Hexit, bool_decide_eq_true_2. }
  split; [by repeat split|]. split; [done|]. split; [done|].
  split; [done|]. done.
Qed.

(** A turn away from the final chunk that reads [q]. *)
Lemma walk_quit fuel input c rest :
  walking c → traversal_rank c < total_chunks c → cin c = "q" :: rest →
  ∃ c', run_loop (S fuel) input c = Ret (QuitRequested, c')
        ∧ same_chunking c c' ∧ cin c' = rest
        ∧ traversal_rank c' = traversal_rank c
        ∧ getCurrentChunk c' = Ret (clipboard c')
        ∧ consumed_before c' (traversal_rank c' + 1).
Proof.
  intros Hw Hlt Hcin.
  destruct (walk_copied (S fuel) c Hw)
    as (chunk & Hget & Hcopy & Hs1 & Hinv1 & Hsize1 & Hexit).
  set (c1 := markChunkAsUsed chunk (set_clipboard chunk c)) in *.
  exists (set_cin rest c1).
  split.
  { rewrite run_unfold, Hcopy.
    change (Ret ?x ≫= ?k) with (k x). cbv beta.
    rewrite Hexit, bool_decide_eq_false_2 by lia.
    destruct (getline_state input c1) as [-> ->].
    change (cin c1) with (cin c). rewrite Hcin. cbv zeta. simpl tail.
    reflexivity. }
  split; [by repeat split|]. split; [done|]. split; [done|].
  split; [done|].
  by apply (consumed_before_frame c1).
Qed.

(** A turn away from the final chunk on the empty command, read from the
    input or left in [input] at its end: the session moves one place on. *)
Lemma walk_turn fuel input c :
  walking c → traversal_rank c < total_chunks c → (1 ≤ fuel)%nat →
  (getline input c).1 = "" →
  ∃ c2, run_loop (S fuel) input c = run_loop fuel "" c2
        ∧ walking c2 ∧ same_chunking c c2 ∧ cin c2 = tail (cin c)
        ∧ traversal_rank c2 = traversal_rank c + 1.
Proof.
  intros Hw Hlt Hfuel Hline. pose proof Hw as (Hs & HT & Hd & Hinv & Hsize).
  destruct (walk_copied (S fuel) c Hw)
    as (chunk & Hget & Hcopy & Hs1 & Hinv1 & Hsize1 & Hexit).
  set (c1 := markChunkAsUsed chunk (set_clipboard chunk c)) in *.
  set (c1' := set_cin (tail (cin c)) c1).
  assert (same_chunking c c1') as Hsame by (by repeat split).
  assert (steady c1') as Hs1' by (by apply (steady_same_position c)).
  destruct (walk_advance (S fuel) c1') as (Hadv & Hrk & Hnr);
    [done|done|by apply (distinct_chunks_frame c)
    |by apply (consumed_before_frame c1)
    |change (traversal_rank c1') with (traversal_rank c);
     change (total_chunks c1') with (total_chunks c); lia|lia|].
  set (c2 := set_current_chunk (next_position c1') c1') in *.
  change (traversal_rank c1') with (traversal_rank c) in Hrk.
  change (total_chunks c1') with (total_chunks c) in Hnr.
  assert (same_chunking c c2) as Hsame2 by (by repeat split).
  assert (steady c2) as Hs2 by (by apply steady_set_current).
  pose proof Hs2 as [Hc2 Hr2].
  destruct (chunk_used_or_unused c2 (current_chunk c2) Hc2 Hr2)
    as (chunk2 & Hget2 & _).
  assert (str_empty chunk2 = false) as Hne2
    by (by apply (chunk_nonempty c2 Hc2 (current_chunk c2))).
  exists c2. split.
  { rewrite run_unfold, Hcopy.
    change (Ret ?x ≫= ?k) with (k x). cbv beta.
    rewrite Hexit, bool_decide_eq_false_2 by lia.
    assert ((getline input c1).1 = "") as Hline1.
    { rewrite (proj2 (getline_state input c1)).
      rewrite (proj2 (getline_state input c)) in Hline.
      by change (cin c1) with (cin c). }
    rewrite Hline1, (proj1 (getline_state input c1)).
    change (set_cin (tail (cin c1)) c1) with c1'. cbv zeta.
    change (processCommand (S fuel) "" c1')
      with (execCommand (S fuel) CmdAdvance c1').
    rewrite Hadv.
    change (Ret (Handled, c2) ≫= ?k) with (k (Handled, c2)). cbv beta iota.
    unfold getCurrentChunk at 1. rewrite Hget2.
    change (Ret chunk2 ≫= ?k) with (k chunk2). cbv beta.
    by rewrite Hne2, andb_false_r. }
  split.
  { split; [done|]. split; [done|].
    split; [by apply (distinct_chunks_frame c)|].
    split; [rewrite Hrk; by apply (consumed_before_frame c1)|].
    rewrite Hrk. change (used_chunks c2) with (used_chunks c1). lia. }
  split; [done|]. split; [done|]. done.
Qed.

(** The turns that read [n] empty lines. *)
Lemma walk_steps n : ∀ fuel c rest,
  walking c → traversal_rank c + Z.of_nat n ≤ total_chunks c →
  (n < fuel)%nat → cin c = replicate n "" ++ rest →
  ∃ c', run_loop fuel "" c = run_loop (fuel - n) "" c'
        ∧ walking c' ∧ same_chunking c c' ∧ cin c' = rest
        ∧ traversal_rank c' = traversal_rank c + Z.of_nat n.
Proof.
  induction n as [|n IH]; intros fuel c rest Hw Hle Hfuel Hcin.
  - exists c. rewrite Nat.sub_0_r. split; [done|]. split; [done|].
    split; [apply same_chunking_refl|]. split; [done|]. lia.
  - destruct fuel as [|fuel]; [lia|].
    destruct (walk_turn fuel "" c) as (c2 & Hrun & Hw2 & Hsame & Hcin2 & Hrk);
      [done|lia|lia| |].
    { rewrite (proj2 (getline_state "" c)), Hcin. done. }
    rewrite Hcin in Hcin2. simpl in Hcin2.
    destruct (IH fuel c2 rest) as (c' & Hrun' & Hw' & Hsame' & Hcin' & Hrk');
      [done| |lia|done|].
    { destruct Hsame as (_ & _ & _ & _ & ->). lia. }
    exists c'. split; [by rewrite Hrun, Hrun'|]. split; [done|].
    split; [by apply (same_chunking_trans c c2)|]. split; [done|]. lia.
Qed.

(** At the end of the input, with the empty command left in [input], the
    session walks on to the final chunk and ends there. *)
Lemma walk_to_the_end m : ∀ fuel c,
  walking c → cin c = [] →
  traversal_rank c + Z.of_nat m = total_chunks c → (m < fuel)%nat →
  ∃ c', run_loop fuel "" c = Ret (AllProcessed, c')
        ∧ same_chunking c c' ∧ cin c' = []
        ∧ traversal_rank c' = total_chunks c
        ∧ getCurrentChunk c' = Ret (clipboard c')
        ∧ consumed_before c' (traversal_rank c' + 1).
Proof.
  induction m as [|m IH]; intros [|fuel] c Hw Hcin Hrk Hfuel; try lia.
  - destruct (walk_final fuel "" c Hw) as (c' & Hrun & Hsame & Hcin' & Hrk' & H);
      [lia|].
    exists c'. split; [done|]. split; [done|]. split; [congruence|].
    split; [lia|done].
  - destruct (walk_turn fuel "" c) as (c2 & Hrun & Hw2 & Hsame & Hcin2 & Hrk2);
      [done|lia|lia| |].
    { rewrite (proj2 (getline_state "" c)), Hcin. done. }
    rewrite Hcin in Hcin2. simpl in Hcin2.
    pose proof Hsame as (_ & _ & _ & _ & ET).
    destruct (IH fuel c2) as (c' & Hrun' & Hsame' & Hcin' & Hrk' & H);
      [done|done|lia|lia|].
    exists c'. split; [by rewrite Hrun|].
    split; [by apply (same_chunking_trans c c2)|]. split; [done|].
    split; [lia|done].
Qed.

Lemma walking_start c :
  steady c → total_chunks c < INT_MAX → traversal_rank c = 1 →
  used_chunks c = ∅ → distinct_chunks c → walking c.
Proof.
  intros Hs HT Hrk Hu Hd. split; [done|]. split; [done|]. split; [done|].
  split.
  - intros s. rewrite Hu, Hrk. split; [by intros ?%not_elem_of_empty|].
    intros (k & Hk & _). lia.
  - rewrite Hu, Hrk. by rewrite size_empty.
Qed.

(** X10.  The session on a buffer whose chunks are all different, started
    in the state [loadText] leaves (first chunk of the traversal, nothing
    consumed), on an input that begins with n empty lines, n <
    total_chunks.  When n = total_chunks - 1, or when the input ends after
    the n lines (the loop then goes on with the empty command), the session
    walks to the final chunk and ends there by itself with [AllProcessed]:
    the final chunk is on the clipboard and the consumed contents are
    exactly those of all chunks; what follows the n lines is left unread.
    When a line [q] follows fewer than total_chunks - 1 empty lines, the
    session ends on it at chunk n + 1 of the traversal, with that chunk on
    the clipboard and exactly the contents of chunks 1 .. n + 1
    consumed. *)
Theorem run_walks_distinct_chunks
    (fuel n : nat) (c : TextChunker) (rest : list string) :
  steady c → total_chunks c < INT_MAX →
  traversal_rank c = 1 → used_chunks c = ∅ →
  distinct_chunks c →
  total_chunks c ≤ Z.of_nat fuel → Z.of_nat n < total_chunks c →
  (cin c = replicate n "" ++ rest →
   Z.of_nat n = total_chunks c - 1 ∨ rest = [] →
   ∃ c', run fuel c = Ret (AllProcessed, c')
         ∧ same_chunking c c' ∧ cin c' = rest
         ∧ traversal_rank c' = total_chunks c
         ∧ chunk_of_rank c (total_chunks c) = Ret (clipboard c')
         ∧ ∀ s, s ∈ used_chunks c'
                ↔ ∃ k, 1 ≤ k ≤ total_chunks c ∧ chunk_of_rank c k = Ret s)
  ∧ (cin c = replicate n "" ++ "q" :: rest →
     Z.of_nat n < total_chunks c - 1 →
     ∃ c', run fuel c = Ret (QuitRequested, c')
           ∧ same_chunking c c' ∧ cin c' = rest
           ∧ traversal_rank c' = Z.of_nat n + 1
           ∧ chunk_of_rank c (Z.of_nat n + 1) = Ret (clipboard c')
           ∧ ∀ s, s ∈ used_chunks c'
                  ↔ ∃ k, 1 ≤ k ≤ Z.of_nat n + 1
                         ∧ chunk_of_rank c k = Ret s).
Proof.
  intros Hs HT Hrk Hu Hd Hfuel Hn.
  pose proof (walking_start c Hs HT Hrk Hu Hd) as Hw.
  assert (∀ c1 c' r,
            same_chunking c c1 → same_chunking c1 c' →
            traversal_rank c' = r →
            getCurrentChunk c' = Ret (clipboard c') →
            consumed_before c' (traversal_rank c' + 1) →
            same_chunking c c'
            ∧ chunk_of_rank c r = Ret (clipboard c')
            ∧ ∀ s, s ∈ used_chunks c'
                   ↔ ∃ k, 1 ≤ k ≤ r ∧ chunk_of_rank c k = Ret s) as Hread.
  { intros c1 c' r Hsame1 Hsame' Hrk' Hclip Hinv.
    pose proof (same_chunking_trans _ _ _ Hsame1 Hsame') as Hsame.
    split; [done|]. split.
    - rewrite <-(chunk_of_rank_frame c c') by done.
      by rewrite <-Hrk', chunk_of_rank_current.
    - intros s. rewrite (Hinv s), Hrk'.
      split; intros (k & Hk & Hck); exists k; (split; [lia|]).
      + by rewrite <-(chunk_of_rank_frame c c').
      + by rewrite (chunk_of_rank_frame c c'). }
  split.
  - intros Hcin Hend.
    destruct (walk_steps n fuel c rest)
      as (c1 & Hrun1 & Hw1 & Hsame1 & Hcin1 & Hrk1); [done|lia|lia|done|].
    pose proof Hsame1 as (_ & _ & _ & _ & ET1).
    unfold run. rewrite Hrun1.
    destruct (decide (Z.of_nat n = total_chunks c - 1)) as [Hlast|Hmore].
    + destruct (fuel - n)%nat as [|fuel'] eqn:Hleft; [lia|].
      destruct (walk_final fuel' "" c1 Hw1)
        as (c' & Hrun & Hsame' & Hcin' & Hrk' & Hclip & Hinv); [lia|].
      exists c'. split; [done|].
      destruct (Hread c1 c' (total_chunks c)) as (H1 & H2 & H3);
        [done|done|lia|done|done|].
      split; [done|]. split; [congruence|]. split; [lia|done].
    + destruct Hend as [?| ->]; [done|].
      destruct (walk_to_the_end (Z.to_nat (total_chunks c - 1) - n)
                  (fuel - n) c1)
        as (c' & Hrun & Hsame' & Hcin' & Hrk' & Hclip & Hinv);
        [done|done|lia|lia|].
      exists c'. split; [done|].
      destruct (Hread c1 c' (total_chunks c)) as (H1 & H2 & H3);
        [done|done|lia|done|done|].
      split; [done|]. split; [done|]. split; [lia|done].
  - intros Hcin Hless.
    destruct (walk_steps n fuel c ("q" :: rest))
      as (c1 & Hrun1 & Hw1 & Hsame1 & Hcin1 & Hrk1); [done|lia|lia|done|].
    pose proof Hsame1 as (_ & _ & _ & _ & ET1).
    unfold run. rewrite Hrun1.
    destruct (fuel - n)%nat as [|fuel'] eqn:Hleft; [lia|].
    destruct (walk_quit fuel' "" c1 rest Hw1)
      as (c' & Hrun & Hsame' & Hcin' & Hrk' & Hclip & Hinv); [lia|done|].
    exists c'. split; [done|].
    destruct (Hread c1 c' (Z.of_nat n + 1)) as (H1 & H2 & H3);
      [done|done|lia|done|done|].
    split; [done|]. split; [done|]. split; [lia|done].
Qed.

Lemma loadText_accepts tail size total0 input t :
  t ≠ "" → 0 < size ≤ SIZE_MAX → str_length t ≤ PTRDIFF_MAX →
  ceil_div (str_length t) size ≤ INT_MAX →
  ∃ c, loadText (Some t) (init tail size total0 input) = (true, c)
       ∧ steady c ∧ text c = t ∧ chunk_size c = size
       ∧ reverse_anchored c = tail
       ∧ current_chunk c = (if tail then total_chunks c else 1)
       ∧ used_chunks c = ∅ ∧ clipboard c = "" ∧ cin c = input.
Proof.
  intros Ht Hsize Hlen Hfit.
  destruct (loadText (Some t) (init tail size total0 input)) as [ok c] eqn:Hl.
  assert (ok = true) as ->.
  { unfold loadText in Hl. destruct (str_empty t) eqn:He.
    - unfold str_empty in He. by apply bool_decide_eq_true_1 in He.
    - by injection Hl as <- _. }
  destruct (loadText_steady _ _ _ _ _ _ Hsize Hl Hlen Hfit)
    as (Hs & Et & Ecs & Etail & Einv & Ecur).
  assert (used_chunks c = ∅ ∧ clipboard c = "" ∧ cin c = input)
    as (Eu & Eclip & Ecin).
  { unfold loadText in Hl. destruct (str_empty t); [done|].
    simpl in Hl. destruct tail; by injection Hl as <-. }
  exists c. split; [done|]. split; [done|]. split; [done|]. split; [done|].
  split; [|done]. unfold reverse_anchored. rewrite Etail, Einv.
  by destruct tail.
Qed.

(** X11.  A text that fits into one chunk: the session copies the whole
    text to the clipboard, records it as consumed and ends at once with
    [AllProcessed], in head mode and in tail mode, without reading a
    command. *)
Theorem session_single_chunk
    (fuel : nat) (tail : bool) (size total0 : Z) (t : string)
    (input : list string) :
  t ≠ "" → 0 < size ≤ SIZE_MAX → str_length t ≤ PTRDIFF_MAX →
  str_length t ≤ size →
  ∃ c, session (S fuel) tail size total0 (Some t) input
       = Some (Ret (AllProcessed, c))
       ∧ text c = t ∧ clipboard c = t ∧ used_chunks c = {[ t ]}
       ∧ total_chunks c = 1 ∧ current_chunk c = 1 ∧ cin c = input.
Proof.
  intros Ht Hsize Hlen Hfits.
  pose proof (str_length_nonneg t) as H0.
  assert (0 < str_length t) as Hpos.
  { destruct (decide (str_length t = 0)) as [Hz|]; [|lia].
    destruct t; [done|]. unfold str_length in Hz. simpl in Hz. lia. }
  assert (ceil_div (str_length t) size = 1) as Hone.
  { symmetry. apply ceil_div_unique; lia. }
  destruct (loadText_accepts tail size total0 input t)
    as (c & Hl & Hs & Et & Ecs & Erev & Ecur & Eu & Eclip & Ecin);
    try done.
  { rewrite Hone. unfold INT_MAX. lia. }
  pose proof Hs as [Hc Hr].
  assert (total_chunks c = 1) as ET.
  { rewrite (loaded_total c Hc), Et, Ecs. done. }
  assert (current_chunk c = 1) as Ecur1.
  { rewrite Ecur, ET. by destruct tail. }
  assert (getCurrentChunk c = Ret t) as Hget.
  { unfold getCurrentChunk. rewrite getChunkAtPosition_slice by done.
    rewrite Ecur1. change (1 - 1) with 0.
    rewrite boundary_first by done.
    replace 1 with (total_chunks c) by done.
    rewrite boundary_last by done. by rewrite Et, slice_full. }
  unfold session. rewrite Hl. unfold run. rewrite run_unfold.
  rewrite (copyToClipboard_fresh _ c t); try done.
  2: { unfold str_empty. by apply bool_decide_eq_false_2. }
  2: { unfold isChunkUsed. rewrite Eu. apply bool_decide_eq_false_2.
       apply not_elem_of_empty. }
  set (c1 := markChunkAsUsed t (set_clipboard t c)).
  change (Ret c1 ≫= ?k) with (k c1). cbv beta.
  assert (used_chunks c1 = {[ t ]}) as Eu1.
  { simpl. rewrite Eu. by rewrite union_empty_r_L. }
  assert (isAtFinalChunk c1 && negb (hasUnusedChunks c1) = true) as ->.
  { rewrite isAtFinalChunk_rank. unfold hasUnusedChunks, traversal_rank.
    rewrite Eu1, size_singleton.
    change (total_chunks c1) with (total_chunks c).
    change (current_chunk c1) with (current_chunk c).
    change (reverse_anchored c1) with (reverse_anchored c).
    rewrite ET, Ecur1. by destruct (reverse_anchored c). }
  exists c1. by repeat split.
Qed.

(** ** The window *)

Lemma getChunk_eq c p : getChunk c p = getChunkAtPosition c p.
Proof.
  unfold getChunk, getChunkAtPosition, chunk_bounds, reverse_anchored.
  case_bool_decide; [done|]. by destruct (xorb _ _).
Qed.

Lemma updateUI_steady c :
  steady c →
  ∃ chunk, getCurrentChunk c = Ret chunk
           ∧ updateUI c = Ret (set_clipboard chunk c)
           ∧ steady (set_clipboard chunk c).
Proof.
  intros Hs. pose proof Hs as [Hc Hr].
  destruct (chunk_used_or_unused c (current_chunk c) Hc Hr)
    as (chunk & Hget & _).
  exists chunk. split; [done|]. split.
  - unfold updateUI. by rewrite getChunk_eq, Hget.
  - by apply (steady_same_position c).
Qed.

Lemma single_chunk_whole c :
  loaded c → total_chunks c = 1 → getChunkAtPosition c 1 = Ret (text c).
Proof.
  intros Hc ET. rewrite getChunkAtPosition_slice by (done || lia).
  change (1 - 1) with 0. rewrite boundary_first by done.
  rewrite <-ET at 1. rewrite boundary_last by done. by rewrite slice_full.
Qed.

(** X12.  The chunk size set in the window.  The spin box delivers a value
    in 100 .. 100000, and every such value is taken, also one larger than
    the buffer (which the [$] command of the command-line front-ends
    refuses): the buffer is then a single chunk, the whole text.  The
    position is kept unless it lies beyond the new number of chunks, where
    it becomes the last position, and the chunk now at the position is put
    on the clipboard. *)
Theorem onChunkSizeChanged_any_size (value : Z) (c : TextChunker) :
  steady c → 100 ≤ value ≤ 100000 →
  ceil_div (str_length (text c)) value ≤ INT_MAX →
  ∃ c', onChunkSizeChanged value c = Ret c'
        ∧ steady c' ∧ chunk_size c' = value ∧ text c' = text c
        ∧ current_chunk c' = Z.min (current_chunk c) (total_chunks c')
        ∧ getCurrentChunk c' = Ret (clipboard c')
        ∧ (str_length (text c) ≤ value
           → total_chunks c' = 1 ∧ clipboard c' = text c).
Proof.
  intros [Hc Hr] Hv Hfit.
  destruct (loaded_facts c Hc) as (Hcs & Hlen & HT & HT1).
  unfold onChunkSizeChanged.
  rewrite to_size_t_id by (unfold SIZE_MAX; lia).
  change (recalcChunks (set_chunk_size value c))
    with (recalculateChunks (set_chunk_size value c)).
  destruct (recalculateChunks_steady (set_chunk_size value c))
    as [Hs1 Hcur1];
    [simpl; unfold SIZE_MAX; lia|exact Hlen|exact Hfit
    |simpl; destruct Hr; unfold INT_MIN; lia|].
  change (current_chunk (set_chunk_size value c)) with (current_chunk c)
    in Hcur1.
  change (text (set_chunk_size value c)) with (text c) in Hcur1.
  change (chunk_size (set_chunk_size value c)) with value in Hcur1.
  assert (text (recalculateChunks (set_chunk_size value c)) = text c
          ∧ chunk_size (recalculateChunks (set_chunk_size value c)) = value)
    as [Et Ecs] by (split; reflexivity).
  generalize dependent (recalculateChunks (set_chunk_size value c)).
  intros c1 Hs1 Hcur1 Et Ecs.
  destruct (updateUI_steady c1 Hs1) as (chunk & Hget & HUI & Hs').
  pose proof Hs1 as [Hc1 Hr1].
  assert (total_chunks c1 = ceil_div (str_length (text c)) value) as ET.
  { by rewrite (loaded_total c1 Hc1), Et, Ecs. }
  exists (set_clipboard chunk c1). split; [exact HUI|]. split; [exact Hs'|].
  split; [exact Ecs|]. split; [exact Et|]. split; [|split; [exact Hget|]].
  - change (current_chunk (set_clipboard chunk c1)) with (current_chunk c1).
    change (total_chunks (set_clipboard chunk c1)) with (total_chunks c1).
    rewrite Hcur1, ET. destruct Hr, Hr1. lia.
  - intros Hle.
    assert (total_chunks c1 = 1) as ET1.
    { rewrite ET. symmetry. apply ceil_div_unique; lia. }
    split; [exact ET1|].
    change (clipboard (set_clipboard chunk c1)) with chunk.
    assert (current_chunk c1 = 1) as Ecur by (destruct Hr1; lia).
    unfold getCurrentChunk in Hget. rewrite Ecur in Hget.
    rewrite single_chunk_whole in Hget by done.
    injection Hget as <-. exact Et.
Qed.

(** X13.  Loading a new text from the clipboard in the window.  An empty
    clipboard changes nothing.  Otherwise the text is replaced and the
    position is 1 in head mode and the last position in tail mode; the
    [inverted] flag is kept, so the window stands on the first chunk of the
    traversal when it is not inverted and on the final one when it is.  The
    chunk at the position is put on the clipboard. *)
Theorem loadNewText_position (newText : string) (c : TextChunker) :
  0 < chunk_size c ≤ SIZE_MAX →
  loadNewText "" c = Ret c
  ∧ (newText ≠ "" → str_length newText ≤ PTRDIFF_MAX →
     ceil_div (str_length newText) (chunk_size c) ≤ INT_MAX →
     ∃ c', loadNewText newText c = Ret c'
           ∧ steady c' ∧ text c' = newText
           ∧ chunk_size c' = chunk_size c ∧ tail_mode c' = tail_mode c
           ∧ inverted c' = inverted c
           ∧ current_chunk c'
             = (if tail_mode c then total_chunks c' else 1)
           ∧ traversal_rank c' = (if inverted c then total_chunks c' else 1)
           ∧ getCurrentChunk c' = Ret (clipboard c')).
Proof.
  intros Hcs. split; [reflexivity|]. intros Hne Hlen Hfit.
  assert (0 < str_length newText) as Hpos.
  { pose proof (str_length_nonneg newText).
    destruct (decide (str_length newText = 0)) as [Hz|]; [|lia].
    destruct newText; [done|]. unfold str_length in Hz. simpl in Hz. lia. }
  unfold loadNewText, str_empty.
  rewrite bool_decide_eq_false_2 by done.
  set (c0 := set_current_chunk 1 (set_text newText c)).
  change (recalcChunks c0) with (recalculateChunks c0).
  change (tail_mode c0) with (tail_mode c).
  destruct (recalculateChunks_steady c0) as [Hs1 Hcur1];
    [exact Hcs|split; [exact Hpos|exact Hlen]|exact Hfit
    |simpl; unfold INT_MIN, INT_MAX; lia|].
  assert (current_chunk (recalculateChunks c0) = 1) as Ecur1.
  { rewrite Hcur1. change (current_chunk c0) with 1.
    pose proof (ceil_div_pos (str_length (text c0)) (chunk_size c0)) as Hp.
    change (text c0) with newText in *.
    change (chunk_size c0) with (chunk_size c) in *. lia. }
  assert (tail_mode (recalculateChunks c0) = tail_mode c
          ∧ inverted (recalculateChunks c0) = inverted c
          ∧ text (recalculateChunks c0) = newText
          ∧ chunk_size (recalculateChunks c0) = chunk_size c)
    as (Etail & Einv & Et & Ecs)
    by (split; [|split; [|split]]; reflexivity).
  clear Hcur1.
  generalize dependent (recalculateChunks c0).
  intros c1 Hs1 Ecur1 Etail Einv Et Ecs.
  pose proof Hs1 as [Hc1 [Hr1 Hr1']].
  set (c2 := if tail_mode c
             then set_current_chunk (total_chunks c1) c1 else c1).
  assert (steady c2 ∧ same_chunking c1 c2
          ∧ current_chunk c2 = (if tail_mode c then total_chunks c2 else 1))
    as (Hs2 & Hsame2 & Ecur2).
  { unfold c2. destruct (tail_mode c).
    - split; [apply steady_set_current; [exact Hs1|lia]|].
      split; [by repeat split|reflexivity].
    - split; [exact Hs1|]. split; [by repeat split|exact Ecur1]. }
  clearbody c2.
  destruct Hsame2 as (Et2 & Ecs2 & Etail2 & Einv2 & ET2).
  destruct (updateUI_steady c2 Hs2) as (chunk & Hget & HUI & Hs').
  exists (set_clipboard chunk c2). split; [exact HUI|]. split; [exact Hs'|].
  split; [by rewrite <-Et, <-Et2|]. split; [by rewrite <-Ecs, <-Ecs2|].
  split; [by rewrite <-Etail, <-Etail2|].
  split; [by rewrite <-Einv, <-Einv2|]. split; [exact Ecur2|].
  split; [|exact Hget].
  unfold traversal_rank, reverse_anchored.
  change (current_chunk (set_clipboard chunk c2)) with (current_chunk c2).
  change (total_chunks (set_clipboard chunk c2)) with (total_chunks c2).
  change (tail_mode (set_clipboard chunk c2)) with (tail_mode c2).
  change (inverted (set_clipboard chunk c2)) with (inverted c2).
  rewrite Ecur2, Etail2, Einv2, Etail, Einv.
  destruct (tail_mode c), (inverted c); simpl; lia.
Qed.

(** X14.  The keys of the window and the commands of the command-line
    front-end.  On a loaded buffer every key for next, previous, recopy,
    invert, first and last moves the window exactly as the command of the
    same name moves the engine, and then puts the chunk at the new position
    on the clipboard, so that the clipboard always holds the chunk
    shown. *)
Theorem keyPressEvent_follows_commands
    (fuel : nat) (clip : string) (k : key) (cmd : command)
    (c : TextChunker) :
  steady c → total_chunks c < INT_MAX →
  key_command k = Some cmd →
  ∃ c1 chunk,
    execCommand fuel cmd c = Ret (Handled, c1)
    ∧ getCurrentChunk c1 = Ret chunk
    ∧ keyPressEvent clip k c = Ret (false, set_clipboard chunk c1).
Proof.
  intros Hs HT Hk. pose proof Hs as [Hc Hr]. pose proof Hr as [H1 H2].
  pose proof (next_position_in_range c Hr HT) as Hn.
  pose proof (prev_position_in_range c Hr HT) as Hp.
  assert (∀ v, 1 ≤ v ≤ total_chunks c →
            ∃ chunk,
              check_bounds (set_current_chunk v c) = set_current_chunk v c
              ∧ getCurrentChunk (set_current_chunk v c) = Ret chunk
              ∧ updateUI (set_current_chunk v c)
                = Ret (set_clipboard chunk (set_current_chunk v c)))
    as Hmove.
  { intros v Hv.
    destruct (updateUI_steady (set_current_chunk v c))
      as (chunk & Hget & HUI & _); [by apply steady_set_current|].
    exists chunk. split; [by apply check_bounds_in_range|done]. }
  assert ((if xorb (tail_mode c) (inverted c)
           then set_current_chunk (Z.max 1 (to_int (current_chunk c - 1))) c
           else set_current_chunk
                  (Z.min (total_chunks c) (to_int (current_chunk c + 1))) c)
          = set_current_chunk (next_position c) c) as Enext.
  { unfold next_position, reverse_anchored. by destruct (xorb _ _). }
  assert ((if xorb (tail_mode c) (inverted c)
           then set_current_chunk
                  (Z.min (total_chunks c) (to_int (current_chunk c + 1))) c
           else set_current_chunk (Z.max 1 (to_int (current_chunk c - 1))) c)
          = set_current_chunk (prev_position c) c) as Eprev.
  { unfold prev_position, reverse_anchored. by destruct (xorb _ _). }
  destruct k; simpl in Hk; try done; injection Hk as <-;
    unfold keyPressEvent; rewrite ?Enext, ?Eprev.
  1-5: destruct (Hmove (next_position c) Hn) as (chunk & Hcb & Hget & HUI);
       exists (set_current_chunk (next_position c) c), chunk;
       split; [simpl; by rewrite Hcb|]; split; [done|]; by rewrite HUI.
  1-3: destruct (Hmove (prev_position c) Hp) as (chunk & Hcb & Hget & HUI);
       exists (set_current_chunk (prev_position c) c), chunk;
       split; [simpl; by rewrite Hcb|]; split; [done|]; by rewrite HUI.
  1-2: destruct (updateUI_steady c Hs) as (chunk & Hget & HUI & _);
       assert (str_empty chunk = false) as Hne
         by (by apply (chunk_nonempty c Hc (current_chunk c)));
       exists (set_clipboard chunk c), chunk;
       split; [unfold execCommand; rewrite Hget;
               change (Ret chunk ≫= ?f) with (f chunk); cbv beta;
               rewrite Hne; simpl negb; cbv iota;
               by rewrite check_bounds_in_range|];
       split; [done|]; rewrite getChunk_eq;
       change (getChunkAtPosition c (current_chunk c))
         with (getCurrentChunk c);
       by rewrite Hget.
  - rewrite execCommand_invert by (done || lia).
    change (total_chunks (set_inverted _ c)) with (total_chunks c).
    change (current_chunk (set_inverted _ c)) with (current_chunk c).
    rewrite invert_position by (done || lia).
    set (c1 := set_current_chunk (total_chunks c - current_chunk c + 1)
                 (set_inverted (negb (inverted c)) c)).
    destruct (updateUI_steady c1) as (chunk & Hget & HUI & _).
    { apply steady_set_current; [|simpl; lia].
      by apply (steady_same_position c). }
    exists c1, chunk. split; [done|]. split; [done|]. by rewrite HUI.
  - unfold execCommand, reverse_anchored.
    set (v := if xorb (tail_mode c) (inverted c) then total_chunks c else 1).
    assert (1 ≤ v ≤ total_chunks c) as Hv
      by (unfold v; destruct (xorb _ _); lia).
    destruct (Hmove v Hv) as (chunk & Hcb & Hget & HUI).
    exists (set_current_chunk v c), chunk.
    split; [by rewrite Hcb|]. split; [done|]. by rewrite HUI.
  - unfold execCommand, reverse_anchored.
    set (v := if xorb (tail_mode c) (inverted c) then total_chunks c else 1).
    assert (1 ≤ v ≤ total_chunks c) as Hv
      by (unfold v; destruct (xorb _ _); lia).
    destruct (Hmove v Hv) as (chunk & Hcb & Hget & HUI).
    exists (set_current_chunk v c), chunk.
    split; [by rewrite Hcb|]. split; [done|]. by rewrite HUI.
  - unfold execCommand, reverse_anchored.
    set (v := if xorb (tail_mode c) (inverted c) then 1 else total_chunks c).
    assert (1 ≤ v ≤ total_chunks c) as Hv
      by (unfold v; destruct (xorb _ _); lia).
    destruct (Hmove v Hv) as (chunk & Hcb & Hget & HUI).
    exists (set_current_chunk v c), chunk.
    split; [by rewrite Hcb|]. split; [done|]. by rewrite HUI.
  - unfold execCommand, reverse_anchored.
    set (v := if xorb (tail_mode c) (inverted c) then 1 else total_chunks c).
    assert (1 ≤ v ≤ total_chunks c) as Hv
      by (unfold v; destruct (xorb _ _); lia).
    destruct (Hmove v Hv) as (chunk & Hcb & Hget & HUI).
    exists (set_current_chunk v c), chunk.
    split; [by rewrite Hcb|]. split; [done|]. by rewrite HUI.
Qed.

(** ** The plain front-end *)

Lemma plain_parseCommand cmd :
  cmd ≠ "U" → cmd ≠ "u" → cmd ≠ "reset" →
  Plain.parseCommand cmd = parseCommand cmd.
Proof.
  intros HU Hu Hreset. unfold Plain.parseCommand, parseCommand.
  destruct (str_empty cmd); [done|].
  rewrite (bool_decide_eq_false_2 (cmd = "U" ∨ cmd = "u"))
    by (by intros [?|?]).
  by rewrite (bool_decide_eq_false_2 (cmd = "reset")) by done.
Qed.

Lemma parseCommand_special cmd parsed :
  parseCommand cmd = Ret parsed →
  (parsed = CmdAdvance → cmd = "")
  ∧ (parsed = CmdUsage → cmd = "U" ∨ cmd = "u")
  ∧ (parsed = CmdReset → cmd = "reset").
Proof.
  unfold parseCommand, str_empty, stoul, stoi.
  repeat case_bool_decide; repeat case_match; simpl;
    intros [= <-]; by repeat split.
Qed.

Lemma input_size_nonneg lines : 0 ≤ input_size lines.
Proof.
  induction lines as [|line rest IH]; simpl; [lia|].
  pose proof (str_length_nonneg line). lia.
Qed.

Lemma read_additional_budget lines :
  str_length (read_additional lines).1 + input_size (read_additional lines).2
  ≤ input_size lines.
Proof.
  induction lines as [|line rest IH]; [done|]. simpl.
  pose proof (str_length_nonneg line).
  destruct (str_empty line); simpl; [change (str_length "") with 0; lia|].
  destruct (read_additional rest) as [more rest']. simpl in *.
  rewrite !str_length_app. change (str_length newline) with 1. lia.
Qed.

(** [appendText] takes what it adds to the buffer from the input. *)
Lemma appendText_budget c :
  str_length (text (appendText c)) + input_size (cin (appendText c))
  ≤ str_length (text c) + input_size (cin c).
Proof.
  unfold appendText. pose proof (read_additional_budget (cin c)) as Hb.
  destruct (read_additional (cin c)) as [more rest]. simpl in Hb.
  pose proof (str_length_nonneg more).
  destruct (str_empty more); simpl negb; cbv iota.
  - simpl. lia.
  - change (text (recalculateChunks ?x)) with (text x).
    change (cin (recalculateChunks ?x)) with (cin x).
    simpl. rewrite str_length_app. lia.
Qed.

Lemma check_bounds_budget c :
  text (check_bounds c) = text c ∧ cin (check_bounds c) = cin c.
Proof. unfold check_bounds. by repeat case_bool_decide. Qed.

Lemma execCommand_budget fuel cmd c o c' :
  execCommand fuel cmd c = Ret (o, c') →
  str_length (text c') + input_size (cin c')
  ≤ str_length (text c) + input_size (cin c).
Proof.
  destruct cmd; simpl; intros H;
    try (injection H as <- <-;
         rewrite ?(proj1 (check_bounds_budget _)),
                 ?(proj2 (check_bounds_budget _)); simpl; lia).
  - destruct (findNextUnusedChunk fuel c) as [[r c1]|e|] eqn:Hscan;
      simpl in H; try done.
    apply scan_frame in Hscan. injection H as <- <-.
    destruct (check_bounds_budget
                (if bool_decide (r ≠ -1) then set_current_chunk r c1
                 else set_current_chunk (next_position c1) c1)) as [-> ->].
    assert (text c1 = text c ∧ cin c1 = cin c) as [Et Ecin]
      by (by rewrite Hscan).
    case_bool_decide; simpl; rewrite Et, Ecin; lia.
  - injection H as <- <-. apply appendText_budget.
  - destruct (getCurrentChunk c) as [chunk|e|]; simpl in H; try done.
    injection H as <- <-.
    destruct (check_bounds_budget
                (if negb (str_empty chunk) then set_clipboard chunk c else c))
      as [-> ->].
    destruct (str_empty chunk); simpl; lia.
  - case_bool_decide; injection H as <- <-; [|lia].
    destruct (check_bounds_budget
                (recalculateChunks
                   (set_used_chunks ∅ (set_chunk_size new_size c))))
      as [-> ->].
    change (text (recalculateChunks ?x)) with (text x).
    change (cin (recalculateChunks ?x)) with (cin x). simpl. lia.
  - case_bool_decide; injection H as <- <-; [|lia].
    destruct (check_bounds_budget (set_current_chunk target c)) as [-> ->].
    simpl. lia.
Qed.

Lemma copyToClipboard_budget fuel c c' :
  copyToClipboard fuel c = Ret c' → text c' = text c ∧ cin c' = cin c.
Proof.
  unfold copyToClipboard, getCurrentChunk. intros H.
  destruct (getChunkAtPosition c (current_chunk c)) as [chunk|e|];
    simpl in H; try done.
  destruct (str_empty chunk); simpl in H; [by injection H as <-|].
  destruct (isChunkUsed c chunk); simpl in H; [|by injection H as <-].
  destruct (findNextUnusedChunk fuel c) as [[r c1]|e|] eqn:Hscan;
    simpl in H; try done.
  apply scan_frame in Hscan.
  case_bool_decide.
  - destruct (getChunkAtPosition _ _) as [chunk'|e|]; simpl in H; try done.
    injection H as <-. by rewrite Hscan.
  - injection H as <-. by rewrite Hscan.
Qed.

Lemma input_size_tail lines : input_size (tail lines) ≤ input_size lines.
Proof.
  destruct lines as [|line rest]; simpl; [lia|].
  pose proof (str_length_nonneg line). lia.
Qed.

Lemma run_loop_never_ends_on_empty_chunk fuel : ∀ input c e c',
  steady c →
  str_length (text c) + input_size (cin c) < INT_MAX →
  run_loop fuel input c = Ret (e, c') →
  e ≠ EndOfText ∧ steady c'.
Proof.
  induction fuel as [|fuel IH]; intros input c e c' Hs Hbudget H; [done|].
  rewrite run_unfold in H.
  destruct (copyToClipboard (S fuel) c) as [c1|?|] eqn:Hcopy; try done.
  change (Ret c1 ≫= ?k) with (k c1) in H. cbv beta in H.
  destruct (copyToClipboard_budget _ _ _ Hcopy) as [Et1 Ecin1].
  pose proof (input_size_nonneg (cin c)) as Hin.
  assert (steady c1) as Hs1.
  { apply (apply_steady (S fuel) Copy c); [done|done|]. rewrite Et1. lia. }
  destruct (isAtFinalChunk c1 && negb (hasUnusedChunks c1)).
  { by injection H as <- <-. }
  cbv zeta in H. rewrite (proj1 (getline_state input c1)) in H.
  set (line := (getline input c1).1) in *. clearbody line.
  set (c1' := set_cin (tail (cin c1)) c1) in *.
  pose proof (input_size_tail (cin c1)) as Htail. rewrite Ecin1 in Htail.
  unfold processCommand in H.
  destruct (parseCommand line) as [parsed|?|]; try done.
  change (Ret parsed ≫= ?k) with (k parsed) in H. cbv beta in H.
  destruct (execCommand (S fuel) parsed c1')
    as [[o c2]|?|] eqn:Hexec; try done.
  change (Ret (o, c2) ≫= ?k) with (k (o, c2)) in H. cbv beta iota in H.
  pose proof (execCommand_budget _ _ _ _ _ Hexec) as Hb2.
  change (text c1') with (text c1) in Hb2.
  change (cin c1') with (tail (cin c1)) in Hb2.
  rewrite Et1, Ecin1 in Hb2.
  pose proof (input_size_nonneg (cin c2)) as Hin2.
  assert (steady c2) as Hs2.
  { apply (execCommand_steady (S fuel) parsed c1' o);
      [by apply (steady_same_position c1)|done|lia]. }
  pose proof Hs2 as [Hc2 Hr2].
  destruct (chunk_used_or_unused c2 (current_chunk c2) Hc2 Hr2)
    as (chunk & Hget & _).
  assert (str_empty chunk = false) as Hne
    by (by apply (chunk_nonempty c2 Hc2 (current_chunk c2))).
  assert (run_loop fuel line c2 = Ret (e, c') → e ≠ EndOfText ∧ steady c')
    as Hnext.
  { apply IH; [done|lia]. }
  unfold getCurrentChunk in H. rewrite Hget in H.
  change (Ret chunk ≫= ?k) with (k chunk) in H. cbv beta in H.
  rewrite Hne, andb_false_r in H.
  destruct o; try (by apply Hnext). by injection H as <- <-.
Qed.

(** X15.  The second automatic exit of [run], taken at the final chunk
    when the current chunk is empty, is never taken: a session started on
    a loaded buffer ends with all chunks processed or on quit, or goes on.
    Every state in which it ends has a position in range and a chunk count
    that matches the buffer.  (The bound keeps the buffer, with everything
    the input can add to it, within the range of [int].) *)
Theorem run_never_ends_on_empty_chunk
    (fuel : nat) (c : TextChunker) (e : ending) (c' : TextChunker) :
  steady c →
  str_length (text c) + input_size (cin c) < INT_MAX →
  run fuel c = Ret (e, c') →
  e ≠ EndOfText ∧ steady c'.
Proof. apply run_loop_never_ends_on_empty_chunk. Qed.

Lemma parseCommand_returns_or_throws cmd : parseCommand cmd ≠ OutOfFuel.
Proof.
  unfold parseCommand, str_empty, stoul, stoi.
  repeat case_bool_decide; repeat case_match; by simpl.
Qed.

Lemma set_used_chunks_self c : set_used_chunks (used_chunks c) c = c.
Proof. by destruct c. Qed.

Lemma check_bounds_used u c :
  check_bounds (set_used_chunks u c) = set_used_chunks u (check_bounds c).
Proof. unfold check_bounds. simpl. by repeat case_bool_decide. Qed.

Lemma appendText_used c : used_chunks (appendText c) = used_chunks c.
Proof.
  destruct (appendText_cases c) as (more & rest & [[_ ->]|[_ ->]]); done.
Qed.

(** X16.  The plain front-end and the dedup front-end.  Every command
    line other than the empty line, [U], [u] and [reset] (which only the
    dedup front-end knows) has the same effect in both, on a loaded
    buffer: the same answer, the same exception for a number out of range,
    and the same state, except that the plain front-end has no set of
    consumed contents for a resize to clear. *)
Theorem plain_processCommand_agrees
    (fuel : nat) (cmd : string) (c : TextChunker) :
  steady c → str_length (text c) + input_size (cin c) < INT_MAX →
  cmd ≠ "" → cmd ≠ "U" → cmd ≠ "u" → cmd ≠ "reset" →
  match processCommand fuel cmd c with
  | Ret (o, c1) =>
      Plain.processCommand cmd c
      = Ret (o, set_used_chunks (used_chunks c) c1)
  | Throw e => Plain.processCommand cmd c = Throw e
  | OutOfFuel => False
  end.
Proof.
  intros Hs Hbudget Hne HU Hu Hreset. pose proof Hs as [Hc Hr].
  unfold processCommand, Plain.processCommand.
  rewrite plain_parseCommand by done.
  pose proof (parseCommand_returns_or_throws cmd) as Hfuel.
  destruct (parseCommand cmd) as [parsed|e|] eqn:Hp; [|done|done].
  destruct (parseCommand_special _ _ Hp) as (HA & HUs & HR).
  change (Ret parsed ≫= ?k) with (k parsed). cbv beta.
  destruct (chunk_used_or_unused c (current_chunk c) Hc Hr)
    as (chunk & Hget & _).
  assert (str_empty chunk = false) as Hchunk
    by (by apply (chunk_nonempty c Hc (current_chunk c))).
  assert (∀ v, set_used_chunks (used_chunks c) (set_current_chunk v c)
               = set_current_chunk v c) as Hcur by (by destruct c).
  destruct parsed;
    try (simpl; rewrite <-check_bounds_used; by rewrite Hcur).
  - by destruct Hne; apply HA.
  - assert (Plain.execCommand CmdAppend c
            = Ret (Handled, check_bounds (appendText c))) as ->.
    { unfold Plain.execCommand, appendText.
      by destruct (read_additional (cin c)). }
    simpl. rewrite <-(appendText_used c), set_used_chunks_self.
    rewrite check_bounds_in_range; [done|].
    apply appendText_steady; [done|].
    pose proof (appendText_budget c).
    pose proof (input_size_nonneg (cin (appendText c))). lia.
  - unfold execCommand, Plain.execCommand.
    change (getCurrentChunk c) with (getChunkAtPosition c (current_chunk c)).
    rewrite Hget.
    change (Ret chunk ≫= ?k) with (k chunk). cbv beta.
    rewrite Hchunk. simpl negb. cbv iota.
    by rewrite <-check_bounds_used.
  - by destruct (HUs eq_refl).
  - by destruct Hreset; apply HR.
  - simpl. by rewrite <-check_bounds_used.
  - simpl. case_bool_decide.
    + by rewrite <-check_bounds_used.
    + by rewrite check_bounds_in_range, set_used_chunks_self.
  - simpl. by rewrite set_used_chunks_self.
  - simpl. case_bool_decide.
    + rewrite <-check_bounds_used. by rewrite Hcur.
    + by rewrite check_bounds_in_range, set_used_chunks_self.
  - simpl. by rewrite check_bounds_in_range, set_used_chunks_self.
Qed.

(** One turn of the plain loop on the empty command, read from the input
    or left in [input] at its end. *)
Lemma plain_turn fuel input c :
  steady c → total_chunks c < INT_MAX → (getline input c).1 = "" →
  ∃ c2, Plain.run_loop (S fuel) input c = Plain.run_loop fuel "" c2
        ∧ steady c2 ∧ same_chunking c c2
        ∧ used_chunks c2 = used_chunks c ∧ cin c2 = tail (cin c)
        ∧ traversal_rank c2
          = Z.min (total_chunks c) (traversal_rank c + 1).
Proof.
  intros Hs HT Hline. pose proof Hs as [Hc Hr].
  pose proof (traversal_rank_range c Hr) as Hrank.
  destruct (chunk_used_or_unused c (current_chunk c) Hc Hr)
    as (chunk & Hget & _).
  assert (str_empty chunk = false) as Hne
    by (by apply (chunk_nonempty c Hc (current_chunk c))).
  assert (Plain.copyToClipboard c = Ret (set_clipboard chunk c)) as Hcopy
    by (unfold Plain.copyToClipboard, getCurrentChunk;
        rewrite Hget; simpl; by rewrite Hne).
  set (c1 := set_cin (tail (cin c)) (set_clipboard chunk c)).
  assert (steady c1) as Hs1 by (by apply (steady_same_position c)).
  pose proof (next_position_in_range c1 (proj2 Hs1) HT) as Hn.
  pose proof (next_position_clamped c1 (proj2 Hs1) HT) as Hstep.
  set (c2 := set_current_chunk (next_position c1) c1).
  exists c2. split.
  { cbn [Plain.run_loop]. rewrite Hcopy.
    change (Ret ?x ≫= ?k) with (k x). cbv beta.
    assert ((getline input (set_clipboard chunk c)).1 = "") as Hline1.
    { rewrite (proj2 (getline_state input _)).
      by rewrite (proj2 (getline_state input c)) in Hline. }
    pose proof (proj1 (getline_state input (set_clipboard chunk c))) as Hst.
    destruct (getline input (set_clipboard chunk c)) as [line c1'].
    simpl in Hline1, Hst. subst line c1'.
    change (set_cin (tail (cin c)) (set_clipboard chunk c)) with c1.
    change (Plain.processCommand "" c1)
      with (Plain.execCommand CmdAdvance c1).
    unfold Plain.execCommand.
    by rewrite check_bounds_in_range by done. }
  split; [by apply steady_set_current|]. split; [by repeat split|].
  split; [done|]. split; [done|].
  unfold traversal_rank, c2.
  change (reverse_anchored (set_current_chunk _ c1))
    with (reverse_anchored c).
  change (total_chunks (set_current_chunk _ c1)) with (total_chunks c).
  change (current_chunk (set_current_chunk (next_position c1) c1))
    with (next_position c1).
  rewrite Hstep. change (reverse_anchored c1) with (reverse_anchored c).
  change (total_chunks c1) with (total_chunks c).
  change (current_chunk c1) with (current_chunk c).
  destruct Hr. destruct (reverse_anchored c); lia.
Qed.

Lemma plain_run_quits n : ∀ fuel input c rest,
  steady c → total_chunks c < INT_MAX →
  (n < fuel)%nat → cin c = replicate n "" ++ "q" :: rest →
  ∃ c', Plain.run_loop fuel input c = Ret (QuitRequested, c')
        ∧ same_chunking c c' ∧ used_chunks c' = used_chunks c
        ∧ cin c' = rest
        ∧ traversal_rank c'
          = Z.min (total_chunks c) (traversal_rank c + Z.of_nat n)
        ∧ getCurrentChunk c' = Ret (clipboard c').
Proof.
  induction n as [|n IH];
    intros [|fuel] input c rest Hs HT Hfuel Hcin; try lia.
  - pose proof Hs as [Hc Hr].
    pose proof (traversal_rank_range c Hr) as Hrank.
    destruct (chunk_used_or_unused c (current_chunk c) Hc Hr)
      as (chunk & Hget & _).
    assert (str_empty chunk = false) as Hne
      by (by apply (chunk_nonempty c Hc (current_chunk c))).
    assert (Plain.copyToClipboard c = Ret (set_clipboard chunk c)) as Hcopy
      by (unfold Plain.copyToClipboard, getCurrentChunk;
          rewrite Hget; simpl; by rewrite Hne).
    exists (set_cin rest (set_clipboard chunk c)). split.
    { cbn [Plain.run_loop]. rewrite Hcopy.
      change (Ret ?x ≫= ?k) with (k x). cbv beta.
      unfold getline. change (cin (set_clipboard chunk c)) with (cin c).
      rewrite Hcin. reflexivity. }
    split; [by repeat split|]. split; [done|]. split; [done|].
    split; [|done].
    change (traversal_rank (set_cin rest (set_clipboard chunk c)))
      with (traversal_rank c). lia.
  - destruct (plain_turn fuel input c)
      as (c2 & Hrun & Hs2 & Hsame & Hu & Hcin2 & Hrk); [done|done| |].
    { rewrite (proj2 (getline_state input c)), Hcin. done. }
    rewrite Hcin in Hcin2. simpl in Hcin2.
    pose proof Hsame as (_ & _ & _ & _ & ET).
    destruct (IH fuel "" c2 rest)
      as (c' & Hrun' & Hsame' & Hu' & Hcin' & Hrk' & Hclip);
      [done|lia|lia|done|].
    exists c'. split; [by rewrite Hrun|].
    split; [by apply (same_chunking_trans c c2)|].
    split; [congruence|]. split; [done|]. split; [lia|done].
Qed.

Lemma plain_run_spins fuel : ∀ n input c,
  steady c → total_chunks c < INT_MAX →
  cin c = replicate n "" → (n = 0%nat → input = "") →
  Plain.run_loop fuel input c = OutOfFuel.
Proof.
  induction fuel as [|fuel IH]; intros n input c Hs HT Hcin Hinput; [done|].
  destruct (plain_turn fuel input c)
    as (c2 & Hrun & Hs2 & Hsame & _ & Hcin2 & _); [done|done| |].
  { rewrite (proj2 (getline_state input c)), Hcin.
    destruct n; [by apply Hinput|done]. }
  pose proof Hsame as (_ & _ & _ & _ & ET).
  rewrite Hrun. apply (IH (pred n)); [done|lia| |done].
  rewrite Hcin2, Hcin. by destruct n.
Qed.

(** X17.  The session of the plain front-end.  Empty lines step through
    the chunks in the order of traversal whatever their content: when a
    line [q] follows n of them, the session ends on it standing n places
    further, or on the final chunk when fewer were left, with the chunk at
    that place on the clipboard.  It does not end by itself: on an input
    of empty lines only, which then ends, the loop goes on with the empty
    command for ever and ends for no number of turns. *)
Theorem plain_run_steps
    (fuel n : nat) (c : TextChunker) (rest : list string) :
  steady c → total_chunks c < INT_MAX →
  (cin c = replicate n "" ++ "q" :: rest → (n < fuel)%nat →
   ∃ c', Plain.run fuel c = Ret (QuitRequested, c')
         ∧ same_chunking c c' ∧ used_chunks c' = used_chunks c
         ∧ cin c' = rest
         ∧ traversal_rank c'
           = Z.min (total_chunks c) (traversal_rank c + Z.of_nat n)
         ∧ getCurrentChunk c' = Ret (clipboard c'))
  ∧ (cin c = replicate n "" → Plain.run fuel c = OutOfFuel).
Proof.
  intros Hs HT. split.
  - intros Hcin Hfuel. by apply plain_run_quits.
  - intros Hcin. by apply (plain_run_spins fuel n).
Qed.

(** ** The number of chunks *)

(** X18.  [recalculateChunks] sets the number of chunks to the ceiling of
    length / chunk_size, also for a chunk size so large that the sum
    length + chunk_size - 1 wraps around in [size_t] (the quotient is then
    0 and the test for 0 puts 1 in its place), and brings the position into
    1 .. total_chunks; it changes nothing else.  The chunk count is assumed
    to fit the [int] that holds it. *)
Theorem recalculateChunks_counts (c : TextChunker) :
  0 < chunk_size c ≤ SIZE_MAX →
  0 < str_length (text c) ≤ PTRDIFF_MAX →
  ceil_div (str_length (text c)) (chunk_size c) ≤ INT_MAX →
  INT_MIN ≤ current_chunk c ≤ INT_MAX →
  recalculateChunks c
  = set_current_chunk
      (Z.max 1 (Z.min (current_chunk c)
                      (ceil_div (str_length (text c)) (chunk_size c))))
      (set_total_chunks (ceil_div (str_length (text c)) (chunk_size c)) c)
  ∧ (str_length (text c) + chunk_size c > SIZE_MAX →
     total_chunks (recalculateChunks c) = 1).
Proof.
  intros Hcs Hlen Hfit Hcur.
  destruct (recalculateChunks_steady c Hcs Hlen Hfit Hcur) as [[Hc _] Ecur].
  pose proof (loaded_total _ Hc) as ET.
  change (text (recalculateChunks c)) with (text c) in ET.
  change (chunk_size (recalculateChunks c)) with (chunk_size c) in ET.
  split.
  - rewrite <-Ecur, <-ET. by destruct c.
  - intros Hwrap. rewrite ET. symmetry. apply ceil_div_unique; [lia|].
    unfold SIZE_MAX, PTRDIFF_MAX in *. lia.
Qed.

(** X19.  The window starts where the command-line engine starts: for a
    text that is not empty, the constructor leaves the state that
    [loadText] leaves for the same text, chunk size and mode, with the
    chunk at the position, the first of the traversal, on the clipboard. *)
Theorem window_starts_like_loadText
    (t : string) (size : Z) (tail : bool) (total0 : Z) :
  t ≠ "" → 0 < size ≤ SIZE_MAX → str_length t ≤ PTRDIFF_MAX →
  ceil_div (str_length t) size ≤ INT_MAX →
  ∃ c chunk,
    loadText (Some t) (init tail size total0 []) = (true, c)
    ∧ getCurrentChunk c = Ret chunk
    ∧ window t size tail total0 = Ret (set_clipboard chunk c)
    ∧ traversal_rank c = 1.
Proof.
  intros Ht Hsize Hlen Hfit.
  destruct (loadText_accepts tail size total0 [] t Ht Hsize Hlen Hfit)
    as (c & Hl & Hs & Et & Ecs & Erev & Ecur & Eu & Eclip & Ecin).
  destruct (updateUI_steady c Hs) as (chunk & Hget & HUI & _).
  exists c, chunk. split; [exact Hl|]. split; [exact Hget|]. split.
  - rewrite <-HUI. unfold window. f_equal.
    unfold loadText, str_empty in Hl.
    rewrite bool_decide_eq_false_2 in Hl by done.
    change (recalcChunks ?x) with (recalculateChunks x).
    injection Hl as <-. reflexivity.
  - unfold traversal_rank. rewrite Erev, Ecur. destruct tail; lia.
Qed.

(** ** The further properties at concrete inputs *)

Lemma engine_alphabet_input_steady tail input :
  steady (engine tail 10 alphabet input).
Proof.
  destruct tail;
    (split; [split; [split|..]|split]; by vm_compute).
Defined.

Lemma twice_aa_steady input : steady (twice_aa input).
Proof. split; [split; [split|..]|split]; by vm_compute. Defined.

Lemma findNextUnusedChunk_returns_or_never_witness :
  steady (twice_aa []) ∧ total_chunks (twice_aa []) < INT_MAX
  ∧ ∀ fuel, findNextUnusedChunk fuel (twice_aa []) = OutOfFuel.
Proof.
  assert (HT : total_chunks (twice_aa []) < INT_MAX) by (by vm_compute).
  split; [apply twice_aa_steady|]. split; [exact HT|].
  apply (findNextUnusedChunk_returns_or_never (twice_aa [])
           (twice_aa_steady []) HT).
  intros [Hend|(p & chunk & [Hp _] & Hget & Hunused)].
  - vm_compute in Hend. discriminate Hend.
  - change (total_chunks (twice_aa [])) with 2 in Hp.
    assert (p = 1 ∨ p = 2) as [-> | ->] by lia;
      vm_compute in Hget; injection Hget as <-;
      vm_compute in Hunused; discriminate Hunused.
Defined.

Lemma findNextUnusedChunk_result_witness :
  in_range (engine false 10 alphabet [])
  ∧ findNextUnusedChunk 1 (engine false 10 alphabet [])
    = Ret (1, engine false 10 alphabet [])
  ∧ ahead (engine false 10 alphabet []) 1.
Proof.
  assert (HT : total_chunks (engine false 10 alphabet []) < INT_MAX)
    by (by vm_compute).
  assert (Hscan : findNextUnusedChunk 1 (engine false 10 alphabet [])
                  = Ret (1, engine false 10 alphabet []))
    by (vm_compute; reflexivity).
  split; [exact (proj2 (engine_alphabet_steady false))|].
  split; [exact Hscan|].
  destruct (findNextUnusedChunk_result 1 (engine false 10 alphabet []) 1
              (engine false 10 alphabet [])
              (proj2 (engine_alphabet_steady false)) HT Hscan)
    as [[Hnone _]|[Hahead _]]; [discriminate Hnone|exact Hahead].
Defined.

Lemma copyToClipboard_never_repeats_witness :
  ∃ c', copyToClipboard 0 (engine false 10 alphabet []) = Ret c'
        ∧ ((clipboard c' = clipboard (engine false 10 alphabet [])
            ∧ used_chunks c' = used_chunks (engine false 10 alphabet []))
           ∨ ((clipboard c' ∉ used_chunks (engine false 10 alphabet []))
              ∧ used_chunks c'
                = {[ clipboard c' ]}
                  ∪ used_chunks (engine false 10 alphabet [])
              ∧ getCurrentChunk c' = Ret (clipboard c'))).
Proof.
  assert (Hcopy : ∃ c', copyToClipboard 0 (engine false 10 alphabet [])
                        = Ret c')
    by (eexists; vm_compute; reflexivity).
  destruct Hcopy as (c' & Hcopy). exists c'. split; [exact Hcopy|].
  exact (copyToClipboard_never_repeats 0 _ c' Hcopy).
Defined.

Lemma loadText_shows_first_chunk_witness :
  ∃ c, loadText (Some alphabet) (init true 10 0 []) = (true, c)
       ∧ traversal_rank c = 1
       ∧ getCurrentChunk c
         = Ret (slice alphabet (Z.max 0 (str_length alphabet - 10))
                  (str_length alphabet)).
Proof.
  assert (Hne : alphabet ≠ "") by discriminate.
  assert (Hsize : 0 < 10 ≤ SIZE_MAX) by (by vm_compute).
  assert (Hlen : str_length alphabet ≤ PTRDIFF_MAX) by (by vm_compute).
  assert (Hfit : ceil_div (str_length alphabet) 10 ≤ INT_MAX)
    by (by vm_compute).
  destruct (proj2 (proj2 (loadText_shows_first_chunk true 10 0 []))
              alphabet Hne Hsize Hlen Hfit)
    as (c & Hl & _ & _ & _ & Hrank & Hget & _).
  exists c. split; [exact Hl|]. split; [exact Hrank|exact Hget].
Defined.

Lemma appendText_keeps_shown_chunks_witness :
  steady (engine false 10 alphabet ["more"; ""])
  ∧ steady (appendText (engine false 10 alphabet ["more"; ""]))
  ∧ current_chunk (appendText (engine false 10 alphabet ["more"; ""]))
    = current_chunk (engine false 10 alphabet ["more"; ""])
  ∧ total_chunks (engine false 10 alphabet ["more"; ""])
    ≤ total_chunks (appendText (engine false 10 alphabet ["more"; ""])).
Proof.
  assert (Hlen : str_length
                   (text (appendText (engine false 10 alphabet ["more"; ""])))
                 < INT_MAX) by (by vm_compute).
  destruct (appendText_keeps_shown_chunks
              (engine false 10 alphabet ["more"; ""])
              (engine_alphabet_input_steady false ["more"; ""]) Hlen)
    as (Hs & Hcur & _ & HT & _).
  split; [apply engine_alphabet_input_steady|].
  split; [exact Hs|]. split; [exact Hcur|exact HT].
Defined.

Lemma appendText_adds_lines_witness :
  Forall (λ line, line ≠ "") ["more"]
  ∧ text (appendText (engine false 10 alphabet ["more"; ""; "N"]))
    = text (engine false 10 alphabet ["more"; ""; "N"])
      +:+ join_lines ["more"]
  ∧ cin (appendText (engine false 10 alphabet ["more"; ""; "N"])) = ["N"].
Proof.
  assert (Hls : Forall (λ line, line ≠ "") ["more"]).
  { apply Forall_cons. split; [discriminate|apply Forall_nil_2]. }
  assert (Hcin : cin (engine false 10 alphabet ["more"; ""; "N"])
                 = ["more"] ++ "" :: ["N"]
                 ∨ (cin (engine false 10 alphabet ["more"; ""; "N"])
                    = ["more"] ∧ ["N"] = []))
    by (left; vm_compute; reflexivity).
  destruct (appendText_adds_lines _ ["more"] ["N"] Hls Hcin)
    as (Htext & Hrest & _).
  split; [exact Hls|]. split; [exact Htext|exact Hrest].
Defined.

Lemma numeric_lines_witness :
  processCommand 0 "2" (engine false 10 alphabet [])
  = Ret (Handled,
         set_current_chunk (digits_value "2") (engine false 10 alphabet []))
  ∧ processCommand 0 "99999999999" (engine false 10 alphabet [])
    = Throw out_of_range.
Proof.
  split.
  - pose proof (proj1 (numeric_lines 0 "2" (engine false 10 alphabet [])
                         ltac:(discriminate) eq_refl)) as H.
    rewrite (bool_decide_eq_true_2 (digits_value "2" ≤ INT_MAX)) in H
      by (by vm_compute).
    rewrite bool_decide_eq_true_2 in H by (by vm_compute).
    exact H.
  - pose proof (proj1 (numeric_lines 0 "99999999999"
                         (engine false 10 alphabet [])
                         ltac:(discriminate) eq_refl)) as H.
    rewrite bool_decide_eq_false_2 in H; [exact H|].
    intros Hle. vm_compute in Hle. by apply Hle.
Defined.

Lemma navigation_by_rank_witness :
  in_range (engine true 10 alphabet [])
  ∧ traversal_rank (engine true 10 alphabet []) = 1
  ∧ ∃ c', execCommand 0 CmdNext (engine true 10 alphabet [])
          = Ret (Handled, c')
          ∧ traversal_rank c'
            = Z.min (total_chunks (engine true 10 alphabet []))
                (traversal_rank (engine true 10 alphabet []) + 1).
Proof.
  assert (HT : total_chunks (engine true 10 alphabet []) < INT_MAX)
    by (by vm_compute).
  destruct (navigation_by_rank 0 (engine true 10 alphabet [])
              (proj2 (engine_alphabet_steady true)) HT)
    as (_ & _ & _ & Hnext & _).
  split; [exact (proj2 (engine_alphabet_steady true))|].
  split; [by vm_compute|exact Hnext].
Defined.

Lemma next_and_prev_cancel_witness :
  isAtFinalChunk (engine true 10 alphabet []) = false
  ∧ ∃ c1, execCommand 0 CmdNext (engine true 10 alphabet [])
          = Ret (Handled, c1)
          ∧ execCommand 0 CmdPrev c1
            = Ret (Handled, engine true 10 alphabet []).
Proof.
  assert (HT : total_chunks (engine true 10 alphabet []) < INT_MAX)
    by (by vm_compute).
  assert (Hnf : isAtFinalChunk (engine true 10 alphabet []) = false)
    by (by vm_compute).
  split; [exact Hnf|].
  exact (proj1 (next_and_prev_cancel 0 (engine true 10 alphabet [])
                  (proj2 (engine_alphabet_steady true)) HT) Hnf).
Defined.

Lemma onChunkSizeChanged_any_size_witness :
  str_length (text (engine false 10 alphabet [])) ≤ 100
  ∧ ∃ c', onChunkSizeChanged 100 (engine false 10 alphabet []) = Ret c'
          ∧ chunk_size c' = 100 ∧ total_chunks c' = 1
          ∧ clipboard c' = text (engine false 10 alphabet []).
Proof.
  assert (Hle : str_length (text (engine false 10 alphabet [])) ≤ 100)
    by (by vm_compute).
  assert (Hfit : ceil_div (str_length (text (engine false 10 alphabet [])))
                   100 ≤ INT_MAX) by (by vm_compute).
  destruct (onChunkSizeChanged_any_size 100 (engine false 10 alphabet [])
              (engine_alphabet_steady false) ltac:(lia) Hfit)
    as (c' & Hset & _ & Hcs & _ & _ & _ & Hone).
  split; [exact Hle|]. exists c'. split; [exact Hset|].
  split; [exact Hcs|exact (Hone Hle)].
Defined.

Lemma loadNewText_position_witness :
  ∃ c', loadNewText alphabet inverted_window = Ret c'
        ∧ text c' = alphabet
        ∧ current_chunk c' = 1
        ∧ traversal_rank c' = total_chunks c'.
Proof.
  assert (Hcs : 0 < chunk_size inverted_window ≤ SIZE_MAX)
    by (by vm_compute).
  assert (Hne : alphabet ≠ "") by discriminate.
  assert (Hlen : str_length alphabet ≤ PTRDIFF_MAX) by (by vm_compute).
  assert (Hfit : ceil_div (str_length alphabet) (chunk_size inverted_window)
                 ≤ INT_MAX) by (by vm_compute).
  destruct (proj2 (loadNewText_position alphabet inverted_window Hcs)
              Hne Hlen Hfit)
    as (c' & Hload & _ & Ht & _ & _ & _ & Hcur & Hrank & _).
  exists c'. split; [exact Hload|]. split; [exact Ht|].
  split; [exact Hcur|exact Hrank].
Defined.

Lemma keyPressEvent_follows_commands_witness :
  ∃ c1 chunk,
    execCommand 0 CmdNext (engine false 10 alphabet []) = Ret (Handled, c1)
    ∧ getCurrentChunk c1 = Ret chunk
    ∧ keyPressEvent "" Key_Right (engine false 10 alphabet [])
      = Ret (false, set_clipboard chunk c1).
Proof.
  assert (HT : total_chunks (engine false 10 alphabet []) < INT_MAX)
    by (by vm_compute).
  exact (keyPressEvent_follows_commands 0 "" Key_Right CmdNext
           (engine false 10 alphabet [])
           (engine_alphabet_steady false) HT eq_refl).
Defined.

Lemma plain_processCommand_agrees_witness :
  ∃ c1, processCommand 0 "L" (engine false 10 alphabet [])
        = Ret (Handled, c1)
        ∧ Plain.processCommand "L" (engine false 10 alphabet [])
          = Ret (Handled,
                 set_used_chunks (used_chunks (engine false 10 alphabet []))
                   c1).
Proof.
  assert (Hbudget :
            str_length (text (engine false 10 alphabet []))
            + input_size (cin (engine false 10 alphabet []))
            < INT_MAX) by (by vm_compute).
  assert (Hp : ∃ c1, processCommand 0 "L" (engine false 10 alphabet [])
                     = Ret (Handled, c1))
    by (eexists; vm_compute; reflexivity).
  destruct Hp as (c1 & Hp).
  pose proof (plain_processCommand_agrees 0 "L"
                (engine false 10 alphabet [])
                (engine_alphabet_steady false) Hbudget
                ltac:(discriminate) ltac:(discriminate)
                ltac:(discriminate) ltac:(discriminate)) as H.
  rewrite Hp in H. exists c1. split; [exact Hp|exact H].
Defined.

Lemma recalculateChunks_counts_witness :
  str_length (text one_huge_chunk) + chunk_size one_huge_chunk > SIZE_MAX
  ∧ total_chunks (recalculateChunks one_huge_chunk) = 1.
Proof.
  assert (Hcs : 0 < chunk_size one_huge_chunk ≤ SIZE_MAX)
    by (by vm_compute).
  assert (Hlen : 0 < str_length (text one_huge_chunk) ≤ PTRDIFF_MAX)
    by (by vm_compute).
  assert (Hfit : ceil_div (str_length (text one_huge_chunk))
                   (chunk_size one_huge_chunk) ≤ INT_MAX)
    by (by vm_compute).
  assert (Hcur : INT_MIN ≤ current_chunk one_huge_chunk ≤ INT_MAX)
    by (by vm_compute).
  assert (Hwrap : str_length (text one_huge_chunk)
                  + chunk_size one_huge_chunk > SIZE_MAX)
    by (by vm_compute).
  split; [exact Hwrap|].
  exact (proj2 (recalculateChunks_counts one_huge_chunk Hcs Hlen Hfit Hcur)
           Hwrap).
Defined.

Lemma window_starts_like_loadText_witness :
  ∃ c chunk,
    loadText (Some alphabet) (init true 10 0 []) = (true, c)
    ∧ getCurrentChunk c = Ret chunk
    ∧ window alphabet 10 true 0 = Ret (set_clipboard chunk c)
    ∧ traversal_rank c = 1.
Proof.
  assert (Hne : alphabet ≠ "") by discriminate.
  assert (Hsize : 0 < 10 ≤ SIZE_MAX) by (by vm_compute).
  assert (Hlen : str_length alphabet ≤ PTRDIFF_MAX) by (by vm_compute).
  assert (Hfit : ceil_div (str_length alphabet) 10 ≤ INT_MAX)
    by (by vm_compute).
  exact (window_starts_like_loadText alphabet 10 true 0
           Hne Hsize Hlen Hfit).
Defined.

Lemma engine_alphabet_distinct input :
  distinct_chunks (engine false 10 alphabet input).
Proof.
  intros p q Hp Hq Heq.
  change (total_chunks (engine false 10 alphabet input)) with 3 in Hp, Hq.
  assert (p = 1 ∨ p = 2 ∨ p = 3) as [-> | [-> | ->]] by lia;
    (assert (q = 1 ∨ q = 2 ∨ q = 3) as [-> | [-> | ->]] by lia);
    first [reflexivity | vm_compute in Heq; discriminate Heq].
Defined.

Lemma run_walks_distinct_chunks_witness :
  (∃ c', run 3 (engine false 10 alphabet [""]) = Ret (AllProcessed, c')
         ∧ cin c' = []
         ∧ traversal_rank c' = total_chunks (engine false 10 alphabet [""])
         ∧ chunk_of_rank (engine false 10 alphabet [""])
             (total_chunks (engine false 10 alphabet [""]))
           = Ret (clipboard c'))
  ∧ (∃ c', run 3 (engine false 10 alphabet [""; "q"; "N"])
           = Ret (QuitRequested, c')
           ∧ cin c' = ["N"]
           ∧ traversal_rank c' = Z.of_nat 1 + 1
           ∧ chunk_of_rank (engine false 10 alphabet [""; "q"; "N"])
               (Z.of_nat 1 + 1)
             = Ret (clipboard c')).
Proof.
  assert (HT : ∀ input,
            total_chunks (engine false 10 alphabet input) < INT_MAX)
    by (intros input; by vm_compute).
  assert (Hrk : ∀ input, traversal_rank (engine false 10 alphabet input) = 1)
    by (intros input; by vm_compute).
  assert (Hu : ∀ input, used_chunks (engine false 10 alphabet input) = ∅)
    by (intros input; vm_compute; reflexivity).
  assert (Hfuel : ∀ input,
            total_chunks (engine false 10 alphabet input) ≤ Z.of_nat 3)
    by (intros input; by vm_compute).
  assert (Hn : ∀ input,
            Z.of_nat 1 < total_chunks (engine false 10 alphabet input))
    by (intros input; by vm_compute).
  split.
  - destruct (proj1 (run_walks_distinct_chunks 3 1
                       (engine false 10 alphabet [""]) []
                       (engine_alphabet_input_steady false [""])
                       (HT _) (Hrk _) (Hu _) (engine_alphabet_distinct _)
                       (Hfuel _) (Hn _))
                eq_refl (or_intror eq_refl))
      as (c' & Hrun & _ & Hcin & Hrank & Hclip & _).
    exists c'. split; [exact Hrun|]. split; [exact Hcin|].
    split; [exact Hrank|exact Hclip].
  - assert (Hless : Z.of_nat 1
                    < total_chunks (engine false 10 alphabet [""; "q"; "N"])
                      - 1) by (by vm_compute).
    destruct (proj2 (run_walks_distinct_chunks 3 1
                       (engine false 10 alphabet [""; "q"; "N"]) ["N"]
                       (engine_alphabet_input_steady false [""; "q"; "N"])
                       (HT _) (Hrk _) (Hu _) (engine_alphabet_distinct _)
                       (Hfuel _) (Hn _))
                eq_refl Hless)
      as (c' & Hrun & _ & Hcin & Hrank & Hclip & _).
    exists c'. split; [exact Hrun|]. split; [exact Hcin|].
    split; [exact Hrank|exact Hclip].
Defined.

Lemma session_single_chunk_witness :
  str_length alphabet ≤ 100
  ∧ ∃ c, session 1 true 100 0 (Some alphabet) ["x"]
         = Some (Ret (AllProcessed, c))
         ∧ clipboard c = alphabet ∧ cin c = ["x"].
Proof.
  assert (Hne : alphabet ≠ "") by discriminate.
  assert (Hsize : 0 < 100 ≤ SIZE_MAX) by (by vm_compute).
  assert (Hlen : str_length alphabet ≤ PTRDIFF_MAX) by (by vm_compute).
  assert (Hfits : str_length alphabet ≤ 100) by (by vm_compute).
  destruct (session_single_chunk 0 true 100 0 alphabet ["x"]
              Hne Hsize Hlen Hfits)
    as (c & Hrun & _ & Hclip & _ & _ & _ & Hcin).
  split; [exact Hfits|]. exists c. split; [exact Hrun|].
  split; [exact Hclip|exact Hcin].
Defined.

Lemma run_never_ends_on_empty_chunk_witness :
  ∃ e c', run 4 (engine false 10 alphabet [""; "q"]) = Ret (e, c')
          ∧ e ≠ EndOfText ∧ steady c'.
Proof.
  assert (Hbudget :
            str_length (text (engine false 10 alphabet [""; "q"]))
            + input_size (cin (engine false 10 alphabet [""; "q"]))
            < INT_MAX) by (by vm_compute).
  assert (Hrun : ∃ e c', run 4 (engine false 10 alphabet [""; "q"])
                         = Ret (e, c'))
    by (do 2 eexists; vm_compute; reflexivity).
  destruct Hrun as (e & c' & Hrun). exists e, c'. split; [exact Hrun|].
  exact (run_never_ends_on_empty_chunk 4 _ e c'
           (engine_alphabet_input_steady false [""; "q"]) Hbudget Hrun).
Defined.

Lemma plain_run_steps_witness :
  (∃ c', Plain.run 3 (engine false 10 alphabet [""; ""; "q"])
         = Ret (QuitRequested, c')
         ∧ traversal_rank c'
           = Z.min (total_chunks (engine false 10 alphabet [""; ""; "q"]))
               (traversal_rank (engine false 10 alphabet [""; ""; "q"])
                + Z.of_nat 2)
         ∧ getCurrentChunk c' = Ret (clipboard c'))
  ∧ Plain.run 7 (engine false 10 alphabet [""; ""]) = OutOfFuel.
Proof.
  assert (HT : ∀ input,
            total_chunks (engine false 10 alphabet input) < INT_MAX)
    by (intros input; by vm_compute).
  split.
  - destruct (proj1 (plain_run_steps 3 2
                       (engine false 10 alphabet [""; ""; "q"]) []
                       (engine_alphabet_input_steady false [""; ""; "q"])
                       (HT _))
                eq_refl ltac:(lia))
      as (c' & Hrun & _ & _ & _ & Hrank & Hclip).
    exists c'. split; [exact Hrun|]. split; [exact Hrank|exact Hclip].
  - exact (proj2 (plain_run_steps 7 2
                    (engine false 10 alphabet [""; ""]) []
                    (engine_alphabet_input_steady false [""; ""])
                    (HT _))
             eq_refl).
Defined.
